(** * Balizas v16: record extraction and geocoding resolver

    A shallow embedding of [scraper.py] (the HTML-to-record extractor) and
    [geocoding.py] (the rate-limited, memoised geocoding cascade), with the
    properties of the design document stated and settled against it.

    Layout:
    - [Py]: Python strings as sequences of code points, and the [str]
      methods the two modules call;
    - [Float64]: Python floats, as the rationals that are binary64 numbers,
      with the rounding of their arithmetic;
    - [Bs4]: the document tree produced by BeautifulSoup and the queries
      the scraper runs on it;
    - [Scraper]: [get_comunidad], [extract_id], [parse_row],
      [parse_incidencias], [filtrar_activas];
    - [Geocoding]: [_rate_limit], [geocodificar_nominatim],
      [geocodificar_baliza] over an explicit world (memo cache, throttle
      timestamp, clock, outbound traffic);
    - [ScraperSpec], [GeocodingSpec]: the vocabulary of the properties and
      the sample inputs;
    - [ScraperProps], [GeocodingProps]: the properties C1 to C10.

    Left out of the model: the text both modules [print] when they swallow
    an exception, the HTTP and JSON layers below [requests.get], whose
    outcome is all the resolver looks at, and the overflow of floats to
    infinity. *)

From stdpp Require Import base option list strings gmap.
From Stdlib Require Import NArith ZArith QArith Qround Qpower Qabs Qreduction.
From Stdlib Require Import Lqa Floats.

Set Default Proof Using "Type".

(* ===================================================================== *)
(** * Python strings *)
(* ===================================================================== *)

Module Py.

(** A Python [str] is a sequence of Unicode code points. *)
Definition str := list N.

(** String literals are written in UTF-8 and decoded once, by evaluation. *)
Fixpoint bytes_of (s : string) : list N :=
  match s with
  | EmptyString => []
  | String a r => Ascii.N_of_ascii a :: bytes_of r
  end.

Fixpoint utf8_decode (bs : list N) : str :=
  match bs with
  | [] => []
  | b :: r =>
      if (b <? 128)%N then b :: utf8_decode r
      else if (b <? 224)%N then
        match r with
        | c1 :: r1 => ((b mod 32) * 64 + c1 mod 64)%N :: utf8_decode r1
        | _ => []
        end
      else if (b <? 240)%N then
        match r with
        | c1 :: c2 :: r2 =>
            (((b mod 16) * 64 + c1 mod 64) * 64 + c2 mod 64)%N :: utf8_decode r2
        | _ => []
        end
      else
        match r with
        | c1 :: c2 :: c3 :: r3 =>
            ((((b mod 8) * 64 + c1 mod 64) * 64 + c2 mod 64) * 64 + c3 mod 64)%N
              :: utf8_decode r3
        | _ => []
        end
  end.

Definition lit (s : string) : str := utf8_decode (bytes_of s).

(** Truth value of a string in a condition: non-empty. *)
Definition truthy (s : str) : bool :=
  match s with [] => false | _ :: _ => true end.

(** [str.isspace] on one code point; also the class [\s] of [re] on [str]
    patterns and the set removed by [str.strip()]. *)
Definition isspace (c : N) : bool :=
  ((9 <=? c) && (c <=? 13) || (28 <=? c) && (c <=? 32)
   || (c =? 133) || (c =? 160) || (c =? 5760)
   || (8192 <=? c) && (c <=? 8202)
   || (c =? 8232) || (c =? 8233) || (c =? 8239) || (c =? 8287)
   || (c =? 12288))%N.

Fixpoint lstrip (s : str) : str :=
  match s with
  | [] => []
  | c :: r => if isspace c then lstrip r else s
  end.

Definition rstrip (s : str) : str := reverse (lstrip (reverse s)).

(** [s.strip()] *)
Definition strip (s : str) : str := rstrip (lstrip s).

(** [s.startswith(p)], returning what follows the prefix. *)
Fixpoint strip_prefix (p s : str) : option str :=
  match p, s with
  | [], _ => Some s
  | _ :: _, [] => None
  | a :: p', b :: s' => if (a =? b)%N then strip_prefix p' s' else None
  end.

Definition startswith (p s : str) : bool :=
  match strip_prefix p s with Some _ => true | None => false end.

(** [sub in s] *)
Fixpoint contains (sub s : str) : bool :=
  startswith sub s
  || match s with [] => false | _ :: r => contains sub r end.

(** [s.replace(old, new)]: non-overlapping occurrences, left to right.
    [skip] counts the characters of a replaced occurrence still to drop. *)
Fixpoint replace_from (old new : str) (skip : nat) (s : str) : str :=
  match s with
  | [] => []
  | c :: r =>
      match skip with
      | S k => replace_from old new k r
      | O =>
          if startswith old s
          then new ++ replace_from old new (length old - 1) r
          else c :: replace_from old new 0 r
      end
  end.

Definition replace (old new s : str) : str :=
  match old with
  | [] => new ++ flat_map (λ c, c :: new) s
  | _ :: _ => replace_from old new 0 s
  end.

(** [s.split(sep)[0]] for a one-character separator: the text before the
    first separator, the whole string when there is none. *)
Fixpoint split_head (sep : N) (s : str) : str :=
  match s with
  | [] => []
  | c :: r => if (c =? sep)%N then [] else c :: split_head sep r
  end.

(** Longest prefix in a character class, and the rest. *)
Fixpoint span (p : N → bool) (s : str) : str * str :=
  match s with
  | [] => ([], [])
  | c :: r => if p c then let '(a, b) := span p r in (c :: a, b) else ([], s)
  end.

(** [re.search]: the matcher [m] recognises the pattern at the start of its
    argument; the leftmost position where it succeeds wins. *)
Fixpoint search {A} (m : str → option A) (s : str) : option A :=
  match m s with
  | Some r => Some r
  | None => match s with [] => None | _ :: r => search m r end
  end.

(** [re.sub(r'\s+', ' ', s)]: every maximal run of whitespace becomes one
    space. [in_run] tells that the previous character was whitespace. *)
Fixpoint collapse_from (in_run : bool) (s : str) : str :=
  match s with
  | [] => []
  | c :: r =>
      if isspace c
      then (if in_run then collapse_from true r else 32%N :: collapse_from true r)
      else c :: collapse_from false r
  end.

Definition collapse_ws (s : str) : str := collapse_from false s.

(** The parts of the Unicode database the scraper reaches through [str]
    methods and [re] character classes. The development is parametric in
    them: no property below depends on the case or category tables. *)
Record Unicode := {
  upper : str → str;          (* str.upper() *)
  lower : str → str;          (* str.lower() *)
  is_digit : N → bool;        (* \d *)
  is_word : N → bool;         (* \w *)
  ic_match : N → N → bool;    (* pattern literal vs. text character under re.IGNORECASE *)
}.

(** A prefix given as a literal, compared under [re.IGNORECASE]. *)
Fixpoint strip_prefix_ic (U : Unicode) (p s : str) : option str :=
  match p, s with
  | [], _ => Some s
  | _ :: _, [] => None
  | a :: p', b :: s' => if ic_match U a b then strip_prefix_ic U p' s' else None
  end.

(** ** The tables restricted to Latin-1

    A concrete instance for closed examples: it agrees with CPython on every
    code point below U+0100, which covers the literals of both modules. *)
Definition upper_char (c : N) : str :=
  if ((97 <=? c) && (c <=? 122))%N then [(c - 32)%N]
  else if (c =? 181)%N then [924%N]
  else if (c =? 223)%N then [83%N; 83%N]
  else if (c =? 255)%N then [376%N]
  else if ((224 <=? c) && (c <=? 254) && negb (c =? 247))%N then [(c - 32)%N]
  else [c].

Definition lower_char (c : N) : N :=
  if ((65 <=? c) && (c <=? 90))%N then (c + 32)%N
  else if ((192 <=? c) && (c <=? 222) && negb (c =? 215))%N then (c + 32)%N
  else c.

Definition ascii_digit (c : N) : bool := ((48 <=? c) && (c <=? 57))%N.

Definition latin1_word (c : N) : bool :=
  ascii_digit c
  || ((65 <=? c) && (c <=? 90) || (97 <=? c) && (c <=? 122) || (c =? 95)
      || (c =? 170) || (c =? 178) || (c =? 179) || (c =? 181)
      || (185 <=? c) && (c <=? 186) || (188 <=? c) && (c <=? 190)
      || (192 <=? c) && (c <=? 255) && negb (c =? 215) && negb (c =? 247))%N.

Definition latin1 : Unicode := {|
  upper := flat_map upper_char;
  lower := map lower_char;
  is_digit := ascii_digit;
  is_word := latin1_word;
  ic_match := λ p c, (lower_char c =? p)%N;
|}.

End Py.

(* ===================================================================== *)
(** * Python floats *)
(* ===================================================================== *)

(** A finite Python float is a binary64 number: a rational [m * 2 ** e]
    with [|m| < 2 ** 53] and [-1074 <= e]. The result of an arithmetic
    operation on floats is the exact result rounded to the nearest such
    number, ties to the one with an even significand. Overflow to [inf],
    which takes a magnitude of [2 ** 1024], is left out: no clock reading
    or difference of clock readings comes near it. *)
Module Float64.

(** [2 ** e] *)
Definition pow2 (e : Z) : Q := Qpower 2 e.

(** [floor(log2(x))] for [0 < x] *)
Definition ilog2 (x : Q) : Z :=
  let c := (Z.log2 (Qnum x) - Z.log2 (Zpos (Qden x)))%Z in
  if Qle_bool (pow2 c) x then c else (c - 1)%Z.

(** The nearest integer, ties to the even one. *)
Definition rne (y : Q) : Z :=
  let f := Qfloor y in
  match Qcompare (y - inject_Z f) (1 # 2) with
  | Lt => f
  | Gt => (f + 1)%Z
  | Eq => if Z.even f then f else (f + 1)%Z
  end.

(** The exponent of the spacing of binary64 around [x]: 52 below that of
    [x], and -1074 for the subnormal numbers. *)
Definition quantum (x : Q) : Z := (Z.max (ilog2 (Qabs x)) (-1022) - 52)%Z.

(** The binary64 number nearest to [x]. *)
Definition round64 (x : Q) : Q :=
  if Qeq_bool x 0 then 0
  else
    let s := quantum x in
    Qred (inject_Z (rne (x / pow2 s)) * pow2 s).

(** [x - y] on floats *)
Definition fsub (x y : Q) : Q := round64 (x - y).

(** The value of a machine float, to compare [round64] with the
    arithmetic of the machine on samples. *)
Definition Q_of_float (f : float) : Q :=
  match Prim2SF f with
  | S754_finite s m e =>
      (if s then - inject_Z (Zpos m) else inject_Z (Zpos m)) * pow2 e
  | _ => 0
  end.

(** Multiples of [2 ** -k]. The binary64 numbers from [2 ** (52 - k)] up
    are such multiples, and every such multiple below [horizon k] in
    magnitude is a binary64 number. Clock readings between 2004 and 2038,
    in seconds since 1970, lie between [2 ** 30] and [2 ** 31]: they are
    the multiples of [2 ** -22] in that range. *)
Definition dyadic (k : nat) (x : Q) : Prop :=
  ∃ m : Z, x == inject_Z m * pow2 (- Z.of_nat k).

Definition horizon (k : nat) : Q := pow2 (53 - Z.of_nat k).

#[global] Arguments pow2 : simpl never.
#[global] Arguments round64 : simpl never.
#[global] Arguments fsub : simpl never.
#[global] Arguments horizon : simpl never.

End Float64.

(* ===================================================================== *)
(** * The BeautifulSoup document tree *)
(* ===================================================================== *)

Module Bs4.
#[local] Set Warnings "-register-all".
Import Py.

(** Strings of the tree. [get_text()] keeps exactly the objects of class
    [NavigableString] and [CData]; comments, declarations, processing
    instructions and the text of [script]/[style] elements are other
    classes, printed between their own delimiters. *)
Inductive string_class :=
  | NavigableString
  | CData
  | Preformatted (prefix suffix : str).

Inductive node :=
  | Str (k : string_class) (s : str)
  | Tag (name : str) (attrs : list (str * str)) (contents : list node).

Definition visible (k : string_class) : bool :=
  match k with NavigableString | CData => true | Preformatted _ _ => false end.

(** [tag.descendants], in document order, each with its
    [previous_sibling]. *)
Fixpoint descendants_prev (n : node) : list (option node * node) :=
  match n with
  | Str _ _ => []
  | Tag _ _ cs =>
      (fix go (prev : option node) (l : list node) :=
         match l with
         | [] => []
         | c :: r => (prev, c) :: descendants_prev c ++ go (Some c) r
         end) None cs
  end.

Definition descendants (n : node) : list node := (descendants_prev n).*2.

Definition named (name : str) (n : node) : bool :=
  match n with
  | Str _ _ => false
  | Tag nm _ _ => bool_decide (nm = name)
  end.

(** [tag.find_all(name)] and [tag.find(name)] *)
Definition find_all (name : str) (n : node) : list node :=
  filter (λ d, named name d = true) (descendants n).

Definition find (name : str) (n : node) : option node :=
  head (find_all name n).

Definition find_all_prev (name : str) (n : node) : list (option node * node) :=
  filter (λ d, named name d.2 = true) (descendants_prev n).

Definition own_text (n : node) : str :=
  match n with
  | Str k s => if visible k then s else []
  | Tag _ _ _ => []
  end.

(** [tag.get_text()] *)
Definition get_text (n : node) : str :=
  match n with
  | Str _ _ => own_text n
  | Tag _ _ _ => flat_map own_text (descendants n)
  end.

(** [tag.get(key)] on the attribute dictionary. *)
Fixpoint assoc (key : str) (attrs : list (str * str)) : option str :=
  match attrs with
  | [] => None
  | (k, v) :: r => if bool_decide (k = key) then Some v else assoc key r
  end.

Definition get (key : str) (n : node) : option str :=
  match n with
  | Str _ _ => None
  | Tag _ attrs _ => assoc key attrs
  end.

(** ** [str(tag)] for closed examples

    The default output formatter on trees whose attribute values hold no
    double quote. *)
Definition escape (s : str) : str :=
  flat_map (λ c, if (c =? 38)%N then lit "&amp;"
                 else if (c =? 60)%N then lit "&lt;"
                 else if (c =? 62)%N then lit "&gt;"
                 else [c]) s.

Definition void_elements : list str :=
  map lit ["area"; "base"; "br"; "col"; "embed"; "hr"; "img"; "input";
           "keygen"; "link"; "menuitem"; "meta"; "param"; "source";
           "track"; "wbr"]%string.

Fixpoint decode (n : node) : str :=
  match n with
  | Str NavigableString s => escape s
  | Str CData s => lit "<![CDATA[" ++ s ++ lit "]]>"
  | Str (Preformatted p q) s => p ++ s ++ q
  | Tag name attrs cs =>
      let open := lit "<" ++ name
        ++ flat_map (λ kv, lit " " ++ kv.1 ++ lit "=" ++ [34%N] ++ escape kv.2 ++ [34%N]) attrs in
      match cs with
      | [] =>
          if bool_decide (name ∈ void_elements) then open ++ lit "/>"
          else open ++ lit "></" ++ name ++ lit ">"
      | _ :: _ =>
          open ++ lit ">"
          ++ (fix go (l : list node) :=
                match l with [] => [] | c :: r => decode c ++ go r end) cs
          ++ lit "</" ++ name ++ lit ">"
      end
  end.

End Bs4.

(* ===================================================================== *)
(** * scraper.py *)
(* ===================================================================== *)

Module Scraper.
Import Py Bs4.

(** Outcome of a block that may raise. *)
Inductive exn := IndexError | ParserRejectedMarkup | Exception (msg : str).

Inductive result (A : Type) :=
  | Ok (a : A)
  | Raise (e : exn).
Arguments Ok {A} a.
Arguments Raise {A} e.

#[global] Instance result_ret : MRet result := @Ok.
#[global] Instance result_bind : MBind result :=
  λ A B f m, match m with Ok a => f a | Raise e => Raise e end.

(** [cells[i]] *)
Definition index {A} (l : list A) (i : nat) : result A :=
  match l !! i with Some x => Ok x | None => Raise IndexError end.

(** [PROVINCIAS_COMUNIDADES] *)
Definition PROVINCIAS_COMUNIDADES : gmap str str :=
  list_to_map (map (λ kv : string * string, (lit kv.1, lit kv.2)) [
    ("ALMERÍA", "ANDALUCÍA");
    ("CÁDIZ", "ANDALUCÍA");
    ("CÓRDOBA", "ANDALUCÍA");
    ("GRANADA", "ANDALUCÍA");
    ("HUELVA", "ANDALUCÍA");
    ("JAÉN", "ANDALUCÍA");
    ("MÁLAGA", "ANDALUCÍA");
    ("SEVILLA", "ANDALUCÍA");
    ("HUESCA", "ARAGÓN");
    ("TERUEL", "ARAGÓN");
    ("ZARAGOZA", "ARAGÓN");
    ("ASTURIAS", "ASTURIAS");
    ("BALEARS, ILLES", "ILLES BALEARS");
    ("BALEARES", "ILLES BALEARS");
    ("LAS PALMAS", "CANARIAS");
    ("SANTA CRUZ DE TENERIFE", "CANARIAS");
    ("PALMAS, LAS", "CANARIAS");
    ("S.C.TENERIFE", "CANARIAS");
    ("CANTABRIA", "CANTABRIA");
    ("ALBACETE", "CASTILLA-LA MANCHA");
    ("CIUDAD REAL", "CASTILLA-LA MANCHA");
    ("CUENCA", "CASTILLA-LA MANCHA");
    ("GUADALAJARA", "CASTILLA-LA MANCHA");
    ("TOLEDO", "CASTILLA-LA MANCHA");
    ("ÁVILA", "CASTILLA Y LEÓN");
    ("BURGOS", "CASTILLA Y LEÓN");
    ("LEÓN", "CASTILLA Y LEÓN");
    ("PALENCIA", "CASTILLA Y LEÓN");
    ("SALAMANCA", "CASTILLA Y LEÓN");
    ("SEGOVIA", "CASTILLA Y LEÓN");
    ("SORIA", "CASTILLA Y LEÓN");
    ("VALLADOLID", "CASTILLA Y LEÓN");
    ("ZAMORA", "CASTILLA Y LEÓN");
    ("BARCELONA", "CATALUÑA");
    ("GIRONA", "CATALUÑA");
    ("LLEIDA", "CATALUÑA");
    ("TARRAGONA", "CATALUÑA");
    ("ALICANTE", "COMUNIDAD VALENCIANA");
    ("ALACANT", "COMUNIDAD VALENCIANA");
    ("CASTELLÓN", "COMUNIDAD VALENCIANA");
    ("CASTELLÓ", "COMUNIDAD VALENCIANA");
    ("VALENCIA", "COMUNIDAD VALENCIANA");
    ("VALÈNCIA", "COMUNIDAD VALENCIANA");
    ("BADAJOZ", "EXTREMADURA");
    ("CÁCERES", "EXTREMADURA");
    ("CORUÑA, A", "GALICIA");
    ("A CORUÑA", "GALICIA");
    ("LA CORUÑA", "GALICIA");
    ("LUGO", "GALICIA");
    ("OURENSE", "GALICIA");
    ("PONTEVEDRA", "GALICIA");
    ("MADRID", "COMUNIDAD DE MADRID");
    ("MURCIA", "REGIÓN DE MURCIA");
    ("NAVARRA", "NAVARRA");
    ("ÁLAVA", "PAÍS VASCO");
    ("ARABA", "PAÍS VASCO");
    ("BIZKAIA", "PAÍS VASCO");
    ("VIZCAYA", "PAÍS VASCO");
    ("GIPUZKOA", "PAÍS VASCO");
    ("GUIPÚZCOA", "PAÍS VASCO");
    ("LA RIOJA", "LA RIOJA");
    ("RIOJA, LA", "LA RIOJA");
    ("CEUTA", "CEUTA");
    ("MELILLA", "MELILLA")  ]%string).

Definition DESCONOCIDA : str := lit "DESCONOCIDA".
Definition OBSTACULO_FIJO : str := lit "OBSTÁCULO FIJO".
Definition ACCIDENTE : str := lit "ACCIDENTE".
Definition OBSTACULO_FIJO_POR_ACCIDENTE : str := lit "OBSTÁCULO FIJO POR ACCIDENTE".

Record Incidencia := {
  id : str;
  tipo : str;
  fecha_inicio : str;
  hora_inicio : str;
  fecha_fin : option str;
  hora_fin : option str;
  nivel : str;
  comunidad : str;
  provincia : str;
  poblacion : str;
  carretera : str;
  pk : str;
  sentido : str;
  descripcion : str;
  activa : bool;
  latitud : option float;
  longitud : option float;
  precision_geo : option str;
}.

(** [x is None] *)
Definition is_None {A} (x : option A) : bool :=
  match x with None => true | Some _ => false end.

Section WithRuntime.

(** The Unicode tables and the printer behind [str(tag)]. *)
Variable U : Unicode.
Variable tag_str : node → str.

Definition get_comunidad (provincia : str) : str :=
  let provincia_upper := strip (upper U provincia) in
  default DESCONOCIDA (PROVINCIAS_COMUNIDADES !! provincia_upper).

(** ** The patterns, each recognised at the start of the text

    A greedy group is read as the longest run of its class. Backtracking
    cannot do better in these patterns: the classes that meet in them are
    disjoint in the Unicode database ([\s] against [\d], [\w], '.' and
    ','; [\w] against '.'). *)

(** [inciCodigo=(\d+)], group 1 *)
Definition m_inciCodigo (s : str) : option str :=
  rest ← strip_prefix (lit "inciCodigo=") s;
  let '(ds, _) := span (is_digit U) rest in
  if truthy ds then Some ds else None.

(** [/(\d+)$], group 1; [$] accepts the end of the text or one final
    newline. *)
Definition m_alt (s : str) : option str :=
  rest ← strip_prefix (lit "/") s;
  let '(ds, tl) := span (is_digit U) rest in
  if truthy ds && (bool_decide (tl = []) || bool_decide (tl = [10%N]))
  then Some ds else None.

(** [\d{2}/\d{2}/\d{4}], group 0 *)
Definition m_fecha (s : str) : option str :=
  match s with
  | d1 :: d2 :: a :: d3 :: d4 :: b :: d5 :: d6 :: d7 :: d8 :: _ =>
      if forallb (is_digit U) [d1; d2; d3; d4; d5; d6; d7; d8]
         && (a =? 47)%N && (b =? 47)%N
      then Some [d1; d2; a; d3; d4; b; d5; d6; d7; d8]
      else None
  | _ => None
  end.

(** [nivel_(\w+)\.gif], group 1 *)
Definition m_nivel (s : str) : option str :=
  rest ← strip_prefix (lit "nivel_") s;
  let '(w, tl) := span (is_word U) rest in
  if truthy w && startswith (lit ".gif") tl then Some w else None.

(** [km\s*([\d.,]+)] with [re.IGNORECASE], group 1 *)
Definition m_km (s : str) : option str :=
  rest ← strip_prefix_ic U (lit "km") s;
  let '(_, tl) := span isspace rest in
  let '(g, _) := span (λ c, is_digit U c || (c =? 46)%N || (c =? 44)%N) tl in
  if truthy g then Some g else None.

(** [sentido\s+(\w+)] with [re.IGNORECASE], group 1 *)
Definition m_sentido (s : str) : option str :=
  rest ← strip_prefix_ic U (lit "sentido") s;
  let '(ws, tl) := span isspace rest in
  let '(g, _) := span (is_word U) tl in
  if truthy ws && truthy g then Some g else None.

(** ** [extract_id] *)
Definition extract_id (row : node) : str :=
  let onclicks := omap (λ link, search m_inciCodigo (default [] (get (lit "onclick") link)))
                       (find_all (lit "a") row) in
  match onclicks with
  | code :: _ => code
  | [] =>
      let alts := omap (λ img, search m_alt (default [] (get (lit "alt") img)))
                       (find_all (lit "img") row) in
      match alts with
      | code :: _ => code
      | [] => []
      end
  end.

(** [str(prev_text)] for a [previous_sibling] *)
Definition str_of (n : node) : str :=
  match n with
  | Str _ s => s
  | Tag _ _ _ => tag_str n
  end.

(** [if prev_text]: a tag is always true, a string when non-empty. *)
Definition node_truthy (n : node) : bool :=
  match n with
  | Str _ s => truthy s
  | Tag _ _ _ => true
  end.

(** The loop over [cell_desc.find_all('b')] of [parse_row]. *)
Fixpoint sentido_bold (bs : list (option node * node)) : str :=
  match bs with
  | [] => []
  | (prev_text, b) :: r =>
      match prev_text with
      | Some p =>
          if node_truthy p && contains (lit "sentido") (lower U (str_of p))
          then strip (get_text b)
          else sentido_bold r
      | None => sentido_bold r
      end
  end.

(** ** [parse_row] *)
Definition parse_row (cells : list node) (row_id : str) : result (option Incidencia) :=
  (* Cell 0: INICIO *)
  cell_inicio ← index cells 0;
  let hora_inicio :=
    match find (lit "span") cell_inicio with
    | Some span => strip (get_text span)
    | None => []
    end in
  let fecha_inicio :=
    match find (lit "a") cell_inicio with
    | Some link => strip (get_text link)
    | None => []
    end in
  (* Cell 1: FIN *)
  cell_fin ← index cells 1;
  let '(hora_fin, fecha_fin) :=
    match find (lit "span") cell_fin with
    | Some span_fin =>
        if truthy (strip (get_text span_fin))
        then (Some (strip (get_text span_fin)), search m_fecha (get_text cell_fin))
        else (None, None)
    | None => (None, None)
    end in
  (* Cell 2: TIPO/NIVEL *)
  cell_nivel ← index cells 2;
  let nivel :=
    match find (lit "img") cell_nivel with
    | Some img =>
        match get (lit "src") img with
        | Some src =>
            if truthy src
            then default (lit "desconocido") (search m_nivel src)
            else lit "desconocido"
        | None => lit "desconocido"
        end
    | None => lit "desconocido"
    end in
  (* Cell 3: PROVINCIA / POBLACION *)
  cell_provincia ← index cells 3;
  let provincia :=
    match find (lit "b") cell_provincia with
    | Some bold => strip (get_text bold)
    | None => []
    end in
  let full_text := strip (get_text cell_provincia) in
  let poblacion :=
    if truthy provincia && contains provincia full_text
    then strip (replace provincia [] full_text)
    else [] in
  (* Cell 4: CARRETERA *)
  cell_carretera ← index cells 4;
  let carretera :=
    match find (lit "b") cell_carretera with
    | Some bold_carr => strip (get_text bold_carr)
    | None => []
    end in
  (* Cell 5: DESCRIPCION *)
  cell_desc ← index cells 5;
  let descripcion_texto := collapse_ws (strip (get_text cell_desc)) in
  let pk := default [] (search m_km descripcion_texto) in
  let upper_desc := upper U descripcion_texto in
  let tipo :=
    if contains OBSTACULO_FIJO upper_desc && contains ACCIDENTE upper_desc
    then OBSTACULO_FIJO_POR_ACCIDENTE
    else OBSTACULO_FIJO in
  let sentido :=
    match search m_sentido descripcion_texto with
    | Some g => g
    | None => sentido_bold (find_all_prev (lit "b") cell_desc)
    end in
  mret (Some {|
    id := row_id;
    tipo := tipo;
    fecha_inicio := fecha_inicio;
    hora_inicio := hora_inicio;
    fecha_fin := fecha_fin;
    hora_fin := hora_fin;
    nivel := nivel;
    comunidad := get_comunidad provincia;
    provincia := provincia;
    poblacion := poblacion;
    carretera := carretera;
    pk := pk;
    sentido := sentido;
    descripcion := descripcion_texto;
    activa := is_None fecha_fin;
    latitud := None;
    longitud := None;
    precision_geo := None;
  |}).

(** ** [parse_incidencias]

    The body of the [for] loop, over the two calls it makes inside [try]. *)
Section Loop.

Variable extract : node → result str.
Variable parse : list node → str → result (option Incidencia).

Definition loop_body (incidencias : list Incidencia) (row : node) : list Incidencia :=
  let row_text := upper U (get_text row) in
  if negb (contains OBSTACULO_FIJO row_text) then incidencias
  else
    let cells := find_all (lit "td") row in
    if (length cells <? 6)%nat then incidencias
    else
      match (row_id ← extract row; parse cells row_id) with
      | Ok (Some incidencia) => incidencias ++ [incidencia]
      | Ok None => incidencias
      | Raise _ => incidencias
      end.

Definition loop (rows : list node) : list Incidencia :=
  foldl loop_body [] rows.

End Loop.

(** [parse_incidencias], from the tree [BeautifulSoup(html, 'html.parser')]
    on. *)
Definition parse_soup (soup : node) : list Incidencia :=
  loop (λ row, Ok (extract_id row)) parse_row (find_all (lit "tr") soup).

(** [BeautifulSoup(html, 'html.parser')]: the tree, or the exception the
    parser raises on markup it rejects. The call stands before the loop,
    outside its [try]. *)
Variable BeautifulSoup : str → result node.

Definition parse_incidencias (html : str) : result (list Incidencia) :=
  soup ← BeautifulSoup html;
  mret (parse_soup soup).

End WithRuntime.

(** [filtrar_activas] *)
Definition filtrar_activas (incidencias : list Incidencia) : list Incidencia :=
  filter (λ inc, activa inc = true) incidencias.

(** ** The query builder *)

Definition DGT_BASE_URL : str := lit "https://infocar.dgt.es/etraffic/Incidencias".

Definition DGT_URL : str :=
  DGT_BASE_URL
  ++ lit "?ca=&provIci=&caracter=acontecimiento&accion_consultar=Consultar&IncidenciasOTROS=IncidenciasOTROS&ordenacion=fechahora_ini-DESC".

(** [COMUNIDADES_IDS] *)
Definition COMUNIDADES_IDS : gmap str str :=
  list_to_map (map (λ kv : string * string, (lit kv.1, lit kv.2)) [
    ("ANDALUCÍA", "1");
    ("ANDALUCIA", "1");
    ("ARAGÓN", "2");
    ("ARAGON", "2");
    ("ASTURIAS", "3");
    ("PRINCIPADO DE ASTURIAS", "3");
    ("ILLES BALEARS", "4");
    ("BALEARES", "4");
    ("ISLAS BALEARES", "4");
    ("CANARIAS", "5");
    ("CANTABRIA", "6");
    ("CASTILLA Y LEÓN", "7");
    ("CASTILLA Y LEON", "7");
    ("CASTILLA-LA MANCHA", "8");
    ("CASTILLA LA MANCHA", "8");
    ("CATALUÑA", "9");
    ("CATALUNA", "9");
    ("CATALUNYA", "9");
    ("COMUNIDAD VALENCIANA", "10");
    ("COMUNITAT VALENCIANA", "10");
    ("VALENCIA", "10");
    ("EXTREMADURA", "11");
    ("GALICIA", "12");
    ("COMUNIDAD DE MADRID", "13");
    ("MADRID", "13");
    ("REGIÓN DE MURCIA", "14");
    ("MURCIA", "14");
    ("NAVARRA", "15");
    ("COMUNIDAD FORAL DE NAVARRA", "15");
    ("PAÍS VASCO", "16");
    ("PAIS VASCO", "16");
    ("EUSKADI", "16");
    ("LA RIOJA", "17");
    ("RIOJA", "17");
    ("CEUTA", "18");
    ("MELILLA", "19")  ]%string).

(** [PROVINCIAS_IDS] *)
Definition PROVINCIAS_IDS : gmap str str :=
  list_to_map (map (λ kv : string * string, (lit kv.1, lit kv.2)) [
    ("ALMERÍA", "4");
    ("ALMERIA", "4");
    ("CÁDIZ", "11");
    ("CADIZ", "11");
    ("CÓRDOBA", "14");
    ("CORDOBA", "14");
    ("GRANADA", "18");
    ("HUELVA", "21");
    ("JAÉN", "23");
    ("JAEN", "23");
    ("MÁLAGA", "29");
    ("MALAGA", "29");
    ("SEVILLA", "41");
    ("HUESCA", "22");
    ("TERUEL", "44");
    ("ZARAGOZA", "50");
    ("ASTURIAS", "33");
    ("BALEARS, ILLES", "7");
    ("BALEARES", "7");
    ("ILLES BALEARS", "7");
    ("LAS PALMAS", "35");
    ("PALMAS, LAS", "35");
    ("SANTA CRUZ DE TENERIFE", "38");
    ("S.C.TENERIFE", "38");
    ("TENERIFE", "38");
    ("CANTABRIA", "39");
    ("ALBACETE", "2");
    ("CIUDAD REAL", "13");
    ("CUENCA", "16");
    ("GUADALAJARA", "19");
    ("TOLEDO", "45");
    ("ÁVILA", "5");
    ("AVILA", "5");
    ("BURGOS", "9");
    ("LEÓN", "24");
    ("LEON", "24");
    ("PALENCIA", "34");
    ("SALAMANCA", "37");
    ("SEGOVIA", "40");
    ("SORIA", "42");
    ("VALLADOLID", "47");
    ("ZAMORA", "49");
    ("BARCELONA", "8");
    ("GIRONA", "17");
    ("GERONA", "17");
    ("LLEIDA", "25");
    ("LÉRIDA", "25");
    ("LERIDA", "25");
    ("TARRAGONA", "43");
    ("ALICANTE", "3");
    ("ALACANT", "3");
    ("CASTELLÓN", "12");
    ("CASTELLÓ", "12");
    ("CASTELLON", "12");
    ("VALENCIA", "46");
    ("VALÈNCIA", "46");
    ("BADAJOZ", "6");
    ("CÁCERES", "10");
    ("CACERES", "10");
    ("A CORUÑA", "15");
    ("CORUÑA, A", "15");
    ("LA CORUÑA", "15");
    ("CORUÑA", "15");
    ("LUGO", "27");
    ("OURENSE", "32");
    ("ORENSE", "32");
    ("PONTEVEDRA", "36");
    ("MADRID", "28");
    ("MURCIA", "30");
    ("NAVARRA", "31");
    ("ÁLAVA", "1");
    ("ALAVA", "1");
    ("ARABA", "1");
    ("BIZKAIA", "48");
    ("VIZCAYA", "48");
    ("GIPUZKOA", "20");
    ("GUIPÚZCOA", "20");
    ("GUIPUZCOA", "20");
    ("LA RIOJA", "26");
    ("RIOJA, LA", "26");
    ("CEUTA", "51");
    ("MELILLA", "52")  ]%string).

Section Fetch.

Variable U : Unicode.
Variable tag_str : node → str.
Variable BeautifulSoup : str → result node.

(** [build_url]; an argument left out is None. *)
Definition build_url (comunidad provincia : option str) : str :=
  let ca_id :=
    match comunidad with
    | Some c => if truthy c then default [] (COMUNIDADES_IDS !! upper U c) else []
    | None => []
    end in
  let prov_id :=
    match provincia with
    | Some p => if truthy p then default [] (PROVINCIAS_IDS !! upper U p) else []
    | None => []
    end in
  DGT_BASE_URL ++ lit "?ca=" ++ ca_id ++ lit "&provIci=" ++ prov_id
  ++ lit "&caracter=acontecimiento&accion_consultar=Consultar&IncidenciasOTROS=IncidenciasOTROS&ordenacion=fechahora_ini-DESC".

(** [requests.get(url, headers=HEADERS, timeout=30)] followed by
    [raise_for_status()]: the text of the page, or the exception raised. *)
Variable http_get : str → result str.

(** [fetch_balizas_activas] *)
Definition fetch_balizas_activas (comunidad provincia : option str)
    : result (list Incidencia) :=
  let url := build_url comunidad provincia in
  text ← http_get url;
  parse_incidencias U tag_str BeautifulSoup text.

End Fetch.

End Scraper.

(* ===================================================================== *)
(** * geocoding.py *)
(* ===================================================================== *)

Module Geocoding.
Import Py Float64.

Record Coordenadas := {
  latitud : float;
  longitud : float;
  precision : str;
  fuente : str;
}.

(** ** The world around the resolver

    What one [requests.get] plus decoding of its payload amounts to for
    [geocodificar_nominatim]: a first match with its two coordinates, an
    empty result list, or an exception anywhere inside the [try] block. *)
Inductive response :=
  | Found (lat lon : float)
  | Empty
  | Failed.

(** The service and the scheduler, indexed by the number of requests sent
    so far: the answer to the next request, the time it takes, and by how
    much a [time.sleep] issued before it overshoots. Time is in seconds
    since 1970 and passes in [time.sleep] and in [requests.get] only. The
    wall clock is an exact rational; what the program sees of it are the
    floats [time.time()] returns, and what it computes from them it
    computes in binary64. *)
Record Network := {
  respond : nat → str → response;
  latency : nat → Q;
  oversleep : nat → Q;
}.

(** The module globals, the wall clock, the requests sent so far (each with
    the clock reading at which it left) and, as a ghost history, the queries
    handed to [geocodificar_nominatim]. *)
Record World := {
  _geocode_cache : gmap str (option (float * float));
  _last_request_time : Q;
  clock : Q;
  sent : list (Q * str);
  asked : list str;
}.

Definition M (A : Type) : Type := World → A * World.

Definition ret {A} (a : A) : M A := λ w, (a, w).

Definition bind {A B} (m : M A) (k : A → M B) : M B :=
  λ w, let '(a, w') := m w in k a w'.

Notation "'let*' x := m 'in' k" := (bind m (λ x, k))
  (at level 10, x name, m at level 100, k at level 200, only parsing).
Notation "m ;;; k" := (bind m (λ _, k))
  (at level 100, k at level 200, right associativity, only parsing).

Definition set_cache (c : gmap str (option (float * float))) : M unit :=
  λ w, (tt, {| _geocode_cache := c; _last_request_time := _last_request_time w;
               clock := clock w; sent := sent w; asked := asked w |}).

Definition set_last_request_time (t : Q) : M unit :=
  λ w, (tt, {| _geocode_cache := _geocode_cache w; _last_request_time := t;
               clock := clock w; sent := sent w; asked := asked w |}).

Definition note (query : str) : M unit :=
  λ w, (tt, {| _geocode_cache := _geocode_cache w;
               _last_request_time := _last_request_time w;
               clock := clock w; sent := sent w; asked := asked w ++ [query] |}).

(** [time.time()]: the clock, as a float. *)
Definition time_time : M Q := λ w, (round64 (clock w), w).

Section WithNetwork.

Variable net : Network.

(** [time.sleep(d)]: returns no earlier than [d] seconds later. *)
Definition time_sleep (d : Q) : M unit :=
  λ w, (tt, {| _geocode_cache := _geocode_cache w;
               _last_request_time := _last_request_time w;
               clock := clock w + d + oversleep net (length (sent w));
               sent := sent w; asked := asked w |}).

(** [requests.get(NOMINATIM_URL, params={'q': query, ...})] up to the decoded
    first result. *)
Definition requests_get (query : str) : M response :=
  λ w, (respond net (length (sent w)) query,
        {| _geocode_cache := _geocode_cache w;
           _last_request_time := _last_request_time w;
           clock := clock w + latency net (length (sent w));
           sent := sent w ++ [(clock w, query)]; asked := asked w |}).

Definition _rate_limit : M unit :=
  let* now := time_time in
  let* last := (λ w, (_last_request_time w, w)) in
  let elapsed := fsub now last in
  (if negb (Qle_bool 1 elapsed) then time_sleep (fsub 1 elapsed) else ret tt) ;;;
  let* t := time_time in
  set_last_request_time t.

Definition geocodificar_nominatim (query : str) : M (option (float * float)) :=
  note query ;;;
  let* cache := (λ w, (_geocode_cache w, w)) in
  match cache !! query with
  | Some cached => ret cached
  | None =>
      _rate_limit ;;;
      let* results := requests_get query in
      match results with
      | Found lat lon =>
          let* cache := (λ w, (_geocode_cache w, w)) in
          set_cache (<[query := Some (lat, lon)]> cache) ;;;
          ret (Some (lat, lon))
      | Empty =>
          let* cache := (λ w, (_geocode_cache w, w)) in
          set_cache (<[query := None]> cache) ;;;
          ret None
      | Failed => ret None
      end
  end.

(** One level of the cascade: [if cond: query = ...; coords = ...;
    if coords: return Coordenadas(...)], then whatever follows. *)
Definition attempt (cond : bool) (query precision origin : str)
    (otherwise : M (option Coordenadas)) : M (option Coordenadas) :=
  if cond then
    let* coords := geocodificar_nominatim query in
    match coords with
    | Some (lat, lon) =>
        ret (Some {| latitud := lat; longitud := lon;
                     precision := precision; fuente := origin ++ query |})
    | None => otherwise
    end
  else otherwise.

Definition geocodificar_baliza (carretera pk provincia poblacion comunidad : str)
    : M (option Coordenadas) :=
  let pk_normalizado := if truthy pk then replace (lit ",") (lit ".") pk else [] in
  let poblacion_limpia :=
    if truthy poblacion then strip (split_head 40 poblacion) else [] in
  (* Estrategia 1 *)
  attempt (truthy carretera && truthy pk_normalizado && truthy poblacion_limpia)
    (carretera ++ lit " km " ++ pk_normalizado ++ lit ", " ++ poblacion_limpia
       ++ lit ", " ++ provincia ++ lit ", España")
    (lit "muy_alta") (lit "Nominatim: ") (
  (* Estrategia 2 *)
  attempt (truthy poblacion_limpia && truthy carretera)
    (poblacion_limpia ++ lit ", " ++ carretera ++ lit ", " ++ provincia
       ++ lit ", España")
    (lit "alta") (lit "Nominatim: ") (
  (* Estrategia 3 *)
  attempt (truthy carretera && truthy pk_normalizado)
    (carretera ++ lit " kilómetro " ++ pk_normalizado ++ lit ", " ++ provincia
       ++ lit ", España")
    (lit "alta") (lit "Nominatim: ") (
  (* Estrategia 4 *)
  attempt (truthy carretera && truthy pk_normalizado)
    (carretera ++ lit " km " ++ pk_normalizado ++ lit ", España")
    (lit "media") (lit "Nominatim: ") (
  (* Estrategia 5 *)
  attempt (truthy poblacion_limpia)
    (poblacion_limpia ++ lit ", " ++ provincia ++ lit ", España")
    (lit "media") (lit "Nominatim (población): ") (
  (* Estrategia 6 *)
  attempt (truthy carretera)
    (lit "carretera " ++ carretera ++ lit ", " ++ provincia ++ lit ", España")
    (lit "baja") (lit "Nominatim: ") (
  (* Estrategia 7 *)
  attempt true
    (provincia ++ lit ", España")
    (lit "estimada") (lit "Nominatim (provincia): ") (
  ret None))))))).

End WithNetwork.

(** [limpiar_cache] *)
Definition limpiar_cache : M unit := set_cache ∅.

(** The state of a freshly imported module, at clock reading [t]. *)
Definition fresh (t : Q) : World :=
  {| _geocode_cache := ∅; _last_request_time := 0; clock := t;
     sent := []; asked := [] |}.

End Geocoding.

(* ===================================================================== *)
(** * Vocabulary of the extraction properties *)
(* ===================================================================== *)

Module ScraperSpec.
Import Py Bs4 Scraper.

(** A row the extractor keeps: it shows the category phrase and has its six
    data cells. *)
Definition kept (U : Unicode) (row : node) : bool :=
  contains OBSTACULO_FIJO (upper U (get_text row))
  && (6 <=? length (find_all (lit "td") row))%nat.

(** The text of the label span nested in the end cell, trimmed; empty when
    the cell has no span. *)
Definition end_label (cell_fin : node) : str :=
  match find (lit "span") cell_fin with
  | Some span_fin => strip (get_text span_fin)
  | None => []
  end.

(** What the [try] block of the loop computes for a row. *)
Definition try_block (extract : node → result str)
    (parse : list node → str → result (option Incidencia)) (row : node)
    : result (option Incidencia) :=
  row_id ← extract row; parse (find_all (lit "td") row) row_id.

(** ** Sample rows *)

Definition text (s : string) : node := Str NavigableString (lit s).
Definition td (contents : list node) : node := Tag (lit "td") [] contents.
Definition elem (name : string) (contents : list node) : node :=
  Tag (lit name) [] contents.

(** An open incident on the A-1: no end label. *)
Definition fila_abierta : node :=
  elem "tr" [
    td [elem "span" [text "10:15"];
        Tag (lit "a") [(lit "onclick", lit "detalle('x?inciCodigo=12345')")]
          [text " 01/01/2024 "]];
    td [];
    td [Tag (lit "img") [(lit "src", lit "/img/nivel_amarillo.gif")] []];
    td [elem "b" [text "MADRID"]; text " ALCOBENDAS "];
    td [elem "b" [text "A-1"]];
    td [text " OBSTÁCULO FIJO en km 23,5 sentido Norte. "]].

(** The category phrase stands in the type column; the description only
    mentions the accident. *)
Definition fila_accidente : node :=
  elem "tr" [
    td [elem "span" [text "08:00"]; elem "a" [text "02/03/2024"]];
    td [];
    td [text "OBSTÁCULO FIJO"];
    td [elem "b" [text "LUGO"]; text " OUTEIRO (O) "];
    td [elem "b" [text "N-640"]];
    td [text "Accidente en km 12 sentido Lugo"]].

(** The end cell carries an hour in its label span and no date. *)
Definition fila_hora_sin_fecha : node :=
  elem "tr" [
    td [elem "span" [text "08:00"]; elem "a" [text "02/03/2024"]];
    td [elem "span" [text "12:30"]];
    td [];
    td [elem "b" [text "TERUEL"]];
    td [elem "b" [text "A-23"]];
    td [text "OBSTÁCULO FIJO en km 101"]].

(** Five cells only. *)
Definition fila_corta : node :=
  elem "tr" [
    td [text "OBSTÁCULO FIJO"]; td []; td []; td []; td []].

Definition tabla (rows : list node) : node := elem "table" rows.

(** The record of [fila_abierta]. *)
Definition registro_abierta : Incidencia := {|
  id := lit "12345";
  tipo := lit "OBSTÁCULO FIJO";
  fecha_inicio := lit "01/01/2024";
  hora_inicio := lit "10:15";
  fecha_fin := None;
  hora_fin := None;
  nivel := lit "amarillo";
  comunidad := lit "COMUNIDAD DE MADRID";
  provincia := lit "MADRID";
  poblacion := lit "ALCOBENDAS";
  carretera := lit "A-1";
  pk := lit "23,5";
  sentido := lit "Norte";
  descripcion := lit "OBSTÁCULO FIJO en km 23,5 sentido Norte.";
  activa := true;
  latitud := None;
  longitud := None;
  precision_geo := None;
|}.

(** The record of [fila_hora_sin_fecha]. *)
Definition registro_hora_sin_fecha : Incidencia := {|
  id := [];
  tipo := lit "OBSTÁCULO FIJO";
  fecha_inicio := lit "02/03/2024";
  hora_inicio := lit "08:00";
  fecha_fin := None;
  hora_fin := Some (lit "12:30");
  nivel := lit "desconocido";
  comunidad := lit "ARAGÓN";
  provincia := lit "TERUEL";
  poblacion := [];
  carretera := lit "A-23";
  pk := lit "101";
  sentido := [];
  descripcion := lit "OBSTÁCULO FIJO en km 101";
  activa := true;
  latitud := None;
  longitud := None;
  precision_geo := None;
|}.

(** The record of [fila_accidente]. *)
Definition registro_accidente : Incidencia := {|
  id := [];
  tipo := lit "OBSTÁCULO FIJO";
  fecha_inicio := lit "02/03/2024";
  hora_inicio := lit "08:00";
  fecha_fin := None;
  hora_fin := None;
  nivel := lit "desconocido";
  comunidad := lit "GALICIA";
  provincia := lit "LUGO";
  poblacion := lit "OUTEIRO (O)";
  carretera := lit "N-640";
  pk := lit "12";
  sentido := lit "Lugo";
  descripcion := lit "Accidente en km 12 sentido Lugo";
  activa := true;
  latitud := None;
  longitud := None;
  precision_geo := None;
|}.

(** A page that is a marked section of an unknown kind, which
    [html.parser] rejects, and the parser as far as this page goes; what
    it returns on other pages plays no role. *)
Definition pagina_rechazada : str := lit "<![x]>".

Definition parser_muestra (html : str) : result node :=
  if bool_decide (html = pagina_rechazada) then Raise ParserRejectedMarkup
  else Ok (Tag (lit "[document]") [] []).

(** A parser for the [try] block that rejects the rows on the A-23. *)
Definition parse_rejecting (cells : list node) (row_id : str)
    : result (option Incidencia) :=
  if contains (lit "A-23") (flat_map get_text cells)
  then Raise (Exception (lit "bad row"))
  else parse_row latin1 decode cells row_id.

End ScraperSpec.

(* ===================================================================== *)
(** * Vocabulary of the resolver properties *)
(* ===================================================================== *)

Module GeocodingSpec.
Import Py Float64 Geocoding.

(** ** The cascade as data *)

Record level := {
  applies : bool;
  query : str;
  label : str;
  origin : str;
}.

Fixpoint cascade (net : Network) (levels : list level) : M (option Coordenadas) :=
  match levels with
  | [] => ret None
  | lv :: rest =>
      attempt net (applies lv) (query lv) (label lv) (origin lv) (cascade net rest)
  end.

(** The seven levels [geocodificar_baliza] goes through, in order. *)
Definition estrategias (carretera pk provincia poblacion : str) : list level :=
  let pk_normalizado := if truthy pk then replace (lit ",") (lit ".") pk else [] in
  let poblacion_limpia :=
    if truthy poblacion then strip (split_head 40 poblacion) else [] in
  [ {| applies := truthy carretera && truthy pk_normalizado && truthy poblacion_limpia;
       query := carretera ++ lit " km " ++ pk_normalizado ++ lit ", "
                  ++ poblacion_limpia ++ lit ", " ++ provincia ++ lit ", España";
       label := lit "muy_alta"; origin := lit "Nominatim: " |};
    {| applies := truthy poblacion_limpia && truthy carretera;
       query := poblacion_limpia ++ lit ", " ++ carretera ++ lit ", " ++ provincia
                  ++ lit ", España";
       label := lit "alta"; origin := lit "Nominatim: " |};
    {| applies := truthy carretera && truthy pk_normalizado;
       query := carretera ++ lit " kilómetro " ++ pk_normalizado ++ lit ", "
                  ++ provincia ++ lit ", España";
       label := lit "alta"; origin := lit "Nominatim: " |};
    {| applies := truthy carretera && truthy pk_normalizado;
       query := carretera ++ lit " km " ++ pk_normalizado ++ lit ", España";
       label := lit "media"; origin := lit "Nominatim: " |};
    {| applies := truthy poblacion_limpia;
       query := poblacion_limpia ++ lit ", " ++ provincia ++ lit ", España";
       label := lit "media"; origin := lit "Nominatim (población): " |};
    {| applies := truthy carretera;
       query := lit "carretera " ++ carretera ++ lit ", " ++ provincia
                  ++ lit ", España";
       label := lit "baja"; origin := lit "Nominatim: " |};
    {| applies := true;
       query := provincia ++ lit ", España";
       label := lit "estimada"; origin := lit "Nominatim (provincia): " |} ].

(** The queries of the levels whose required fields are present. *)
Definition applicable (levels : list level) : list str :=
  query <$> filter (λ lv, applies lv = true) levels.

Definition precision_labels : list str :=
  map lit ["muy_alta"; "alta"; "media"; "baja"; "estimada"]%string.

(** ** Observations on a world *)

Definition times (w : World) : list Q := (sent w).*1.
Definition queries (w : World) : list str := (sent w).*2.

(** The part of the world a caller or the service can observe: everything
    but the ghost history. *)
Definition untouched (w w' : World) : Prop :=
  _geocode_cache w' = _geocode_cache w
  ∧ _last_request_time w' = _last_request_time w
  ∧ clock w' = clock w
  ∧ sent w' = sent w.

(** Consecutive readings at least one second apart. *)
Definition spaced (ts : list Q) : Prop :=
  ∀ i t1 t2, ts !! i = Some t1 → ts !! S i = Some t2 → t1 + 1 <= t2.

(** The throttle's invariant: its timestamp is not in the future, no
    request left after it, and the requests so far are spaced. *)
Definition throttled (w : World) : Prop :=
  _last_request_time w <= clock w
  ∧ Forall (λ t, t <= _last_request_time w) (times w)
  ∧ spaced (times w).

(** From [w] to [w'] the clock did not go back, and what was sent in
    between left within that interval. *)
Definition extends (w w' : World) : Prop :=
  clock w <= clock w'
  ∧ ∃ new, sent w' = sent w ++ new
           ∧ Forall (λ p : Q * str, clock w <= p.1 ∧ p.1 <= clock w') new.

(** Time does not run backwards while waiting. *)
Definition well_behaved (net : Network) : Prop :=
  ∀ i, 0 <= latency net i ∧ 0 <= oversleep net i.

Definition never_fails (net : Network) : Prop :=
  ∀ i q, respond net i q ≠ Failed.

(** None of the requests sent from [w] to [w'] ended in an exception. *)
Definition no_failure (net : Network) (w w' : World) : Prop :=
  ∀ i t q, (length (sent w) ≤ i)%nat → sent w' !! i = Some (t, q) →
           respond net i q ≠ Failed.

(** The requests added from [w] to [w'] are for pairwise different
    queries, none of which was memoised in [w] and all of which are in
    [w'], and no entry of the cache was lost or changed. *)
Definition sends_once (w w' : World) : Prop :=
  _geocode_cache w ⊆ _geocode_cache w'
  ∧ ∃ new, sent w' = sent w ++ new
           ∧ NoDup new.*2
           ∧ ∀ q, q ∈ new.*2 →
                  _geocode_cache w !! q = None ∧ is_Some (_geocode_cache w' !! q).

(** Where a returned pair of coordinates can come from: the memo cache as
    it stood, or a match the service returned for that very query. *)
Definition came_from (net : Network) (w : World) (q : str) (lat lon : float) : Prop :=
  _geocode_cache w !! q = Some (Some (lat, lon))
  ∨ ∃ i, respond net i q = Found lat lon.

(** The time at which [_rate_limit] returns in [w]. *)
Definition release_time (net : Network) (w : World) : Q :=
  let elapsed := fsub (round64 (clock w)) (_last_request_time w) in
  if negb (Qle_bool 1 elapsed)
  then clock w + fsub 1 elapsed + oversleep net (length (sent w))
  else clock w.

(** ** Clocks on which the throttle computes exactly

    The clock shows multiples of [2 ** -k] only, as a clock read through
    floats from [2 ** (52 - k)] on does, and waiting and requests take
    multiples of [2 ** -k]. *)
Definition ticks (k : nat) (net : Network) : Prop :=
  ∀ i, dyadic k (latency net i) ∧ dyadic k (oversleep net i).

Definition on_grid (k : nat) (w : World) : Prop :=
  dyadic k (clock w) ∧ dyadic k (_last_request_time w)
  ∧ 0 <= _last_request_time w ∧ _last_request_time w <= clock w.

(** From [w] to [w'] the clock stays on the grid and below the reading
    [horizon k], from which on binary64 has no room for the grid: every
    reading in between is a float, and so are the differences the throttle
    takes. *)
Definition exact_run (k : nat) (net : Network) (w w' : World) : Prop :=
  (k ≤ 52)%nat ∧ ticks k net ∧ on_grid k w ∧ clock w' < horizon k.

(** What the throttle keeps from [w] to [w'] on such a clock. *)
Definition keeps_throttle (k : nat) (w w' : World) : Prop :=
  clock w <= clock w'
  ∧ (throttled w → on_grid k w → clock w' < horizon k →
     throttled w' ∧ on_grid k w' ∧ extends w w').

(** ** Sequences of resolver calls *)

Record call := {
  carretera : str;
  pk : str;
  provincia : str;
  poblacion : str;
  comunidad : str;
}.

Definition resolve (net : Network) (c : call) : M (option Coordenadas) :=
  geocodificar_baliza net (carretera c) (pk c) (provincia c) (poblacion c) (comunidad c).

Fixpoint resolve_all (net : Network) (calls : list call) (w : World) : World :=
  match calls with
  | [] => w
  | c :: rest => resolve_all net rest (resolve net c w).2
  end.


(** ** Sample services and calls *)

(** Answers every query with an empty result list, a quarter of a second
    later. *)
Definition red_vacia : Network :=
  {| respond := λ _ _, Empty; latency := λ _, 1 # 4; oversleep := λ _, 0 |}.

(** Every request ends in an exception. *)
Definition red_caida : Network :=
  {| respond := λ _ _, Failed; latency := λ _, 1 # 8; oversleep := λ _, 1 # 64 |}.

(** Knows one place, under every name. *)
Definition red_madrid : Network :=
  {| respond := λ _ _, Found 40.5%float (-3.625)%float;
     latency := λ _, 1 # 2; oversleep := λ _, 0 |}.

Definition a1_km23 : call :=
  {| carretera := lit "A-1"; pk := lit "23"; provincia := lit "MADRID";
     poblacion := lit "Alcobendas"; comunidad := [] |}.

(** What [red_madrid] makes of [a1_km23]. *)
Definition alcobendas : Coordenadas :=
  {| latitud := 40.5; longitud := -3.625;
     precision := lit "muy_alta";
     fuente := lit "Nominatim: A-1 km 23, Alcobendas, MADRID, España" |}.

(** Nothing but the province is known. *)
Definition solo_madrid : call :=
  {| carretera := []; pk := []; provincia := lit "MADRID";
     poblacion := []; comunidad := [] |}.


End GeocodingSpec.

(* ===================================================================== *)
(** * app.py *)
(* ===================================================================== *)

Module App.
Import Py Float64 Scraper Geocoding.

(** The module-level [cache] dictionary. *)
Record Cache := {
  data : list Incidencia;
  last_update : option Q;
  ttl : Q;
}.

Definition cache0 : Cache := {| data := []; last_update := None; ttl := 60 |}.

(** Truth value of [cache['last_update']]: None and 0.0 are false. *)
Definition time_truthy (t : option Q) : bool :=
  match t with
  | Some x => negb (Qeq_bool x 0)
  | None => false
  end.

(** Truth value of a list. *)
Definition list_truthy {A} (l : list A) : bool :=
  match l with [] => false | _ :: _ => true end.

(** [get_incidencias_con_cache] when [time.time()] returns [now]; [fetch]
    is what [fetch_balizas_activas()] returns or raises if it is called. *)
Definition get_incidencias_con_cache (fetch : result (list Incidencia)) (now : Q)
    (cache : Cache) : result (list Incidencia) * Cache :=
  if time_truthy (last_update cache)
     && negb (Qle_bool (ttl cache) (fsub now (default 0 (last_update cache))))
  then (Ok (data cache), cache)
  else
    match fetch with
    | Ok incidencias =>
        (Ok incidencias,
         {| data := incidencias; last_update := Some now; ttl := ttl cache |})
    | Raise e =>
        if list_truthy (data cache) then (Ok (data cache), cache)
        else (Raise e, cache)
    end.

(** What an endpoint answers: the payload handed to [jsonify] with status
    200, or an error status. *)
Inductive http (A : Type) :=
  | Http200 (payload : A)
  | Http400
  | Http404
  | Http500 (e : exn).
Arguments Http200 {A} payload.
Arguments Http400 {A}.
Arguments Http404 {A}.
Arguments Http500 {A} e.

(** The ['stats'] entry of [/api/status]. *)
Record Stats := {
  total_incidencias : nat;
  balizas_activas : nat;
  por_accidente : nat;
  obstaculos_fijos : nat;
}.

(** [get_status] *)
Definition get_status (fetch : result (list Incidencia)) (now : Q) (cache : Cache)
    : http Stats * Cache :=
  match get_incidencias_con_cache fetch now cache with
  | (Ok incidencias, cache') =>
      let activas := filtrar_activas incidencias in
      (Http200 {|
         total_incidencias := length incidencias;
         balizas_activas := length activas;
         por_accidente :=
           length (filter (λ i, contains ACCIDENTE (tipo i) = true) activas);
         obstaculos_fijos :=
           length (filter (λ i, contains ACCIDENTE (tipo i) = false) activas);
       |}, cache')
  | (Raise e, cache') => (Http500 e, cache')
  end.

(** [get_balizas]: the ['data'] list. *)
Definition get_balizas (fetch : result (list Incidencia)) (now : Q) (cache : Cache)
    : http (list Incidencia) * Cache :=
  match get_incidencias_con_cache fetch now cache with
  | (Ok incidencias, cache') => (Http200 (filtrar_activas incidencias), cache')
  | (Raise e, cache') => (Http500 e, cache')
  end.

(** [get_baliza_por_id]: [next((inc for inc in incidencias if inc.id == id),
    None)]. *)
Definition get_baliza_por_id (fetch : result (list Incidencia)) (now : Q)
    (cache : Cache) (id : str) : http Incidencia * Cache :=
  match get_incidencias_con_cache fetch now cache with
  | (Ok incidencias, cache') =>
      match list_find (λ inc, Scraper.id inc = id) incidencias with
      | Some (_, baliza) => (Http200 baliza, cache')
      | None => (Http404, cache')
      end
  | (Raise e, cache') => (Http500 e, cache')
  end.

Section WithUnicode.

Variable U : Unicode.

(** [get_por_tipo]: the ['data'] list. *)
Definition get_por_tipo (fetch : result (list Incidencia)) (now : Q) (cache : Cache)
    (tipo : str) : http (list Incidencia) * Cache :=
  match get_incidencias_con_cache fetch now cache with
  | (Ok incidencias, cache') =>
      let activas := filtrar_activas incidencias in
      if bool_decide (lower U tipo = lit "accidente") then
        (Http200 (filter (λ inc, contains ACCIDENTE (Scraper.tipo inc) = true) activas),
         cache')
      else if bool_decide (lower U tipo = lit "fijo") then
        (Http200 (filter (λ inc, contains ACCIDENTE (Scraper.tipo inc) = false) activas),
         cache')
      else (Http400, cache')
  | (Raise e, cache') => (Http500 e, cache')
  end.

End WithUnicode.

Section Regions.

Variable U : Unicode.
Variable tag_str : Bs4.node → str.
Variable BeautifulSoup : str → result Bs4.node.
Variable http_get : str → result str.

(** [get_por_provincia] and [get_por_comunidad]: the ['data'] list. Both
    fetch on their own and leave the cache alone. *)
Definition get_por_provincia (provincia : str) : http (list Incidencia) :=
  match fetch_balizas_activas U tag_str BeautifulSoup http_get None (Some provincia) with
  | Ok incidencias => Http200 (filtrar_activas incidencias)
  | Raise e => Http500 e
  end.

Definition get_por_comunidad (comunidad : str) : http (list Incidencia) :=
  match fetch_balizas_activas U tag_str BeautifulSoup http_get (Some comunidad) None with
  | Ok incidencias => Http200 (filtrar_activas incidencias)
  | Raise e => Http500 e
  end.

End Regions.

(** The three assignments [baliza.latitud = coords.latitud], ... *)
Definition attach (coords : Coordenadas) (baliza : Incidencia) : Incidencia := {|
  id := id baliza;
  tipo := tipo baliza;
  fecha_inicio := fecha_inicio baliza;
  hora_inicio := hora_inicio baliza;
  fecha_fin := fecha_fin baliza;
  hora_fin := hora_fin baliza;
  nivel := nivel baliza;
  comunidad := comunidad baliza;
  provincia := provincia baliza;
  poblacion := poblacion baliza;
  carretera := carretera baliza;
  pk := pk baliza;
  sentido := sentido baliza;
  descripcion := descripcion baliza;
  activa := activa baliza;
  Scraper.latitud := Some (Geocoding.latitud coords);
  Scraper.longitud := Some (Geocoding.longitud coords);
  precision_geo := Some (precision coords);
|}.

Section WithNetwork.

Variable net : Network.

(** [geocodificar_baliza(baliza.carretera, baliza.pk, baliza.provincia,
    baliza.poblacion, baliza.comunidad)] *)
Definition geocodificar (baliza : Incidencia) : M (option Coordenadas) :=
  geocodificar_baliza net (carretera baliza) (pk baliza) (provincia baliza)
    (poblacion baliza) (comunidad baliza).

(** The block of [get_baliza_ubicacion] and [get_balizas_mapa] that starts
    with [if baliza.latitud is None]; the record returned is the object
    after the block. *)
Definition ubicar (baliza : Incidencia) : M Incidencia :=
  if is_None (Scraper.latitud baliza) then
    let* coords := geocodificar baliza in
    match coords with
    | Some c => ret (attach c baliza)
    | None => ret baliza
    end
  else ret baliza.

(** The loop of [get_balizas_mapa] over [activas]: the objects after the
    loop, and [balizas_con_coords]. *)
Fixpoint mapa_loop (activas : list Incidencia)
    : M (list Incidencia * list Incidencia) :=
  match activas with
  | [] => ret ([], [])
  | baliza :: rest =>
      let* b := ubicar baliza in
      let* r := mapa_loop rest in
      ret (b :: r.1,
           if is_None (Scraper.latitud b) then r.2 else b :: r.2)
  end.

(** The payload of [/api/balizas/mapa]. *)
Record Mapa := {
  total : nat;
  geocodificadas : nat;
  sin_geocodificar : nat;
  mapa_data : list Incidencia;
}.

(** The body of [get_balizas_mapa] once the incidents are at hand. *)
Definition balizas_mapa (incidencias : list Incidencia) : M Mapa :=
  let activas := filtrar_activas incidencias in
  let* r := mapa_loop activas in
  let balizas_con_coords := r.2 in
  ret {| total := length balizas_con_coords;
         geocodificadas := length balizas_con_coords;
         sin_geocodificar := length activas - length balizas_con_coords;
         mapa_data := balizas_con_coords |}.

(** The records of [cache['data']] are objects shared with every list an
    endpoint builds from it, so an assignment to a field of one of them
    shows in the cache. The list is the store, and an object is referred
    to by its index there. *)

(** [filtrar_activas(incidencias)], as references into [incidencias]. *)
Fixpoint refs_from (k : nat) (l : list Incidencia) : list nat :=
  match l with
  | [] => []
  | inc :: rest =>
      if activa inc then k :: refs_from (S k) rest else refs_from (S k) rest
  end.

Definition refs_activas (store : list Incidencia) : list nat := refs_from 0 store.

(** The loop of [get_balizas_mapa] over the references: [balizas_con_coords]
    and the store after the loop. *)
Fixpoint mapa_refs (refs : list nat) (store : list Incidencia)
    : M (list Incidencia * list Incidencia) :=
  match refs with
  | [] => ret ([], store)
  | i :: rest =>
      match store !! i with
      | Some baliza =>
          let* b := ubicar baliza in
          let* r := mapa_refs rest (<[i:=b]> store) in
          ret (if is_None (Scraper.latitud b) then r.1 else b :: r.1, r.2)
      | None => mapa_refs rest store
      end
  end.

(** [get_balizas_mapa] *)
Definition get_balizas_mapa (fetch : result (list Incidencia)) (now : Q)
    (cache : Cache) : M (http Mapa * Cache) :=
  match get_incidencias_con_cache fetch now cache with
  | (Ok incidencias, cache') =>
      let activas := refs_activas incidencias in
      let* r := mapa_refs activas incidencias in
      let balizas_con_coords := r.1 in
      ret (Http200 {| total := length balizas_con_coords;
                      geocodificadas := length balizas_con_coords;
                      sin_geocodificar := length activas - length balizas_con_coords;
                      mapa_data := balizas_con_coords |},
           {| data := r.2; last_update := last_update cache'; ttl := ttl cache' |})
  | (Raise e, cache') => ret (Http500 e, cache')
  end.

(** [get_baliza_ubicacion] *)
Definition get_baliza_ubicacion (fetch : result (list Incidencia)) (now : Q)
    (cache : Cache) (id : str) : M (http Incidencia * Cache) :=
  match get_incidencias_con_cache fetch now cache with
  | (Ok incidencias, cache') =>
      match list_find (λ inc, Scraper.id inc = id) incidencias with
      | Some (i, baliza) =>
          let* b := ubicar baliza in
          ret (Http200 b,
               {| data := <[i:=b]> incidencias; last_update := last_update cache';
                  ttl := ttl cache' |})
      | None => ret (Http404, cache')
      end
  | (Raise e, cache') => ret (Http500 e, cache')
  end.

End WithNetwork.

End App.

(* ===================================================================== *)
(** * generar_mapa.py *)
(* ===================================================================== *)

Module Mapa.
Import Py Scraper Geocoding.

(** [activas[:limite]] *)
Definition slice_to {A} (limite : Z) (l : list A) : list A :=
  if (0 <=? limite)%Z then take (Z.to_nat limite) l
  else take (length l - Z.to_nat (- limite)) l.

Section WithNetwork.

Variable net : Network.

(** The [for] loop of [obtener_balizas_geocodificadas]: [balizas_data]. *)
Fixpoint geocodificar_todas (activas : list Incidencia) : M (list Incidencia) :=
  match activas with
  | [] => ret []
  | baliza :: rest =>
      let* coords := App.geocodificar net baliza in
      let* balizas_data := geocodificar_todas rest in
      match coords with
      | Some c => ret (App.attach c baliza :: balizas_data)
      | None => ret balizas_data
      end
  end.

(** [obtener_balizas_geocodificadas]; [fetch] is what
    [fetch_balizas_activas()] returns or raises, [limite] is None when left
    out. *)
Definition obtener_balizas_geocodificadas (fetch : result (list Incidencia))
    (limite : option Z) : M (result (list Incidencia)) :=
  match fetch with
  | Raise e => ret (Raise e)
  | Ok incidencias =>
      let activas := filtrar_activas incidencias in
      let activas :=
        match limite with
        | Some n => if (n =? 0)%Z then activas else slice_to n activas
        | None => activas
        end in
      let* balizas_data := geocodificar_todas activas in
      ret (Ok balizas_data)
  end.

End WithNetwork.

End Mapa.

(* ===================================================================== *)
(** * Vocabulary of the further properties *)
(* ===================================================================== *)

Module MoreSpec.
Import Py Float64 Bs4 Scraper Geocoding GeocodingSpec.

(** ** Query builder *)

(** The local [ca_id] and [prov_id] of [build_url]. *)
Definition ca_id (U : Unicode) (comunidad : option str) : str :=
  match comunidad with
  | Some c => if truthy c then default [] (COMUNIDADES_IDS !! upper U c) else []
  | None => []
  end.

Definition prov_id (U : Unicode) (provincia : option str) : str :=
  match provincia with
  | Some p => if truthy p then default [] (PROVINCIAS_IDS !! upper U p) else []
  | None => []
  end.

(** ** Text *)

(** Text with its whitespace normalised: none at either end, and every
    whitespace character a U+0020 that is not followed by another
    whitespace character. *)
Definition ws_normal (s : str) : Prop :=
  (∀ c, head s = Some c → isspace c = false)
  ∧ (∀ c, last s = Some c → isspace c = false)
  ∧ (∀ i c, s !! i = Some c → isspace c = true →
       c = 32%N ∧ ∀ c', s !! S i = Some c' → isspace c' = false).

(** The characters of a kilometre marker as scraped: [[\d.,]]. *)
Definition pk_char (U : Unicode) (c : N) : bool :=
  is_digit U c || (c =? 46)%N || (c =? 44)%N.

(** ** Resolver inputs *)

(** The locals [pk_normalizado] and [poblacion_limpia] of
    [geocodificar_baliza]. *)
Definition pk_normalizado (pk : str) : str :=
  if truthy pk then replace (lit ",") (lit ".") pk else [].

Definition poblacion_limpia (poblacion : str) : str :=
  if truthy poblacion then strip (split_head 40 poblacion) else [].

(** ** Located records *)

Definition located (inc : Incidencia) : Prop :=
  is_Some (Scraper.latitud inc) ∧ is_Some (Scraper.longitud inc)
  ∧ is_Some (precision_geo inc).

Definition unlocated (inc : Incidencia) : Prop :=
  Scraper.latitud inc = None ∧ Scraper.longitud inc = None
  ∧ precision_geo inc = None.

(** What the code keeps true of a record: the three coordinate fields are
    set together, by the extractor to None and by the API to values. *)
Definition coords_all_or_none (inc : Incidencia) : Prop :=
  located inc ∨ unlocated inc.

(** The two records agree on every scraped field. *)
Definition same_incident (a b : Incidencia) : Prop :=
  id a = id b ∧ tipo a = tipo b
  ∧ fecha_inicio a = fecha_inicio b ∧ hora_inicio a = hora_inicio b
  ∧ fecha_fin a = fecha_fin b ∧ hora_fin a = hora_fin b
  ∧ nivel a = nivel b ∧ Scraper.comunidad a = Scraper.comunidad b
  ∧ Scraper.provincia a = Scraper.provincia b
  ∧ Scraper.poblacion a = Scraper.poblacion b
  ∧ Scraper.carretera a = Scraper.carretera b
  ∧ Scraper.pk a = Scraper.pk b
  ∧ sentido a = sentido b ∧ descripcion a = descripcion b
  ∧ activa a = activa b.

(** One pass over the store that locates its active records, in order. *)
Fixpoint ubicar_activas (net : Network) (store : list Incidencia)
    : M (list Incidencia) :=
  match store with
  | [] => ret []
  | inc :: rest =>
      let* b := if activa inc then App.ubicar net inc else ret inc in
      let* r := ubicar_activas net rest in
      ret (b :: r)
  end.

(** The records a pass would look up. *)
Definition pendientes (store : list Incidencia) : list Incidencia :=
  filter (λ b, Scraper.latitud b = None) (filtrar_activas store).

(** ** The response cache of the API *)

(** The test [get_incidencias_con_cache] makes before it serves the cached
    list: updated at a reading other than 0, less than [ttl] seconds ago
    by the float difference of the readings. *)
Definition cache_fresh (now : Q) (cache : App.Cache) : bool :=
  App.time_truthy (App.last_update cache)
  && negb (Qle_bool (App.ttl cache) (fsub now (default 0 (App.last_update cache)))).

(** ** Sample inputs *)

(** A row whose identifier stands in the image's alternate text only. *)
Definition fila_alt : node :=
  Tag (lit "tr") [] [
    Tag (lit "td") [] [
      Tag (lit "a") [(lit "onclick", lit "detalle()")] [];
      Tag (lit "img") [(lit "alt", lit "Nivel amarillo/98765")] []]].

(** A record of the cache that was located before. *)
Definition registro_localizado : Incidencia :=
  App.attach alcobendas ScraperSpec.registro_abierta.

End MoreSpec.

(* ===================================================================== *)
(** * Properties of float arithmetic *)
(* ===================================================================== *)

Module Float64Props.
Import Float64.
#[local] Set Warnings "-inexact-float".
#[local] Open Scope Q_scope.

Lemma pow2_pos e : 0 < pow2 e.
Proof. apply Qpower_0_lt. reflexivity. Qed.

Lemma pow2_add a b : pow2 (a + b) == pow2 a * pow2 b.
Proof. apply Qpower_plus. discriminate. Qed.

Lemma pow2_le a b : (a <= b)%Z → pow2 a <= pow2 b.
Proof. intros H. apply Qpower_le_compat_l; [done|discriminate]. Qed.

Lemma pow2_lt a b : (a < b)%Z → pow2 a < pow2 b.
Proof. intros H. apply Qpower_lt_compat_l; [done|reflexivity]. Qed.

Lemma pow2_lt_inv a b : pow2 a < pow2 b → (a < b)%Z.
Proof. intros H. eapply Qpower_lt_compat_l_inv; [exact H|reflexivity]. Qed.

Lemma pow2_Z e : (0 <= e)%Z → pow2 e == inject_Z (2 ^ e).
Proof. intros H. unfold pow2. by rewrite Zpower_Qpower. Qed.

Lemma pow2_0 : pow2 0 == 1.
Proof. reflexivity. Qed.

Lemma pow2_sub a b : pow2 (a - b) * pow2 b == pow2 a.
Proof. rewrite <- pow2_add. by replace (a - b + b)%Z with a by lia. Qed.


Lemma Q_num_den x : x * inject_Z (Zpos (Qden x)) == inject_Z (Qnum x).
Proof.
  destruct x as [n d]. unfold Qeq, Qmult, inject_Z. simpl. lia.
Qed.

Lemma Qnum_pos x : 0 < x → (0 < Qnum x)%Z.
Proof. destruct x as [n d]. unfold Qlt. simpl. lia. Qed.

Lemma ilog2_spec x :
  0 < x → pow2 (ilog2 x) <= x ∧ x < pow2 (ilog2 x + 1).
Proof.
  intros Hx. pose proof (Qnum_pos x Hx) as Hn.
  pose proof (Q_num_den x) as Hxd.
  set (n := Qnum x) in *. set (d := Zpos (Qden x)) in *.
  assert (Hd : (0 < d)%Z) by (subst d; lia).
  pose proof (Z.log2_spec n Hn) as [Hn1 Hn2].
  pose proof (Z.log2_spec d Hd) as [Hd1 Hd2].
  pose proof (Z.log2_nonneg n) as Ha. pose proof (Z.log2_nonneg d) as Hb.
  unfold ilog2. fold n d.
  set (a := Z.log2 n) in *. set (b := Z.log2 d) in *.
  assert (HD : 0 < inject_Z d) by (rewrite <- (Zlt_Qlt 0); lia).
  assert (Hup : x < pow2 (a - b + 1)).
  { apply (Qmult_lt_r _ _ (inject_Z d) HD). rewrite Hxd.
    apply Qlt_le_trans with (pow2 (a - b + 1) * pow2 b).
    - rewrite <- pow2_add. replace (a - b + 1 + b)%Z with (Z.succ a) by lia.
      rewrite pow2_Z by lia. rewrite <- Zlt_Qlt. exact Hn2.
    - apply Qmult_le_l; [apply pow2_pos|].
      rewrite pow2_Z by lia. rewrite <- Zle_Qle. exact Hd1. }
  assert (Hlo : pow2 (a - b - 1) < x).
  { apply (Qmult_lt_r _ _ (inject_Z d) HD). rewrite Hxd.
    apply Qlt_le_trans with (pow2 (a - b - 1) * pow2 (Z.succ b)).
    - apply Qmult_lt_l; [apply pow2_pos|].
      rewrite pow2_Z by lia. rewrite <- Zlt_Qlt. exact Hd2.
    - rewrite <- pow2_add. replace (a - b - 1 + Z.succ b)%Z with a by lia.
      rewrite pow2_Z by lia. rewrite <- Zle_Qle. exact Hn1. }
  destruct (Qle_bool (pow2 (a - b)) x) eqn:E.
  - apply Qle_bool_iff in E. split; [exact E|exact Hup].
  - assert (Hlt : x < pow2 (a - b)).
    { apply Qnot_le_lt. intros H. apply Qle_bool_iff in H. congruence. }
    split; [by apply Qlt_le_weak|].
    by replace (a - b - 1 + 1)%Z with (a - b)%Z by lia.
Qed.

Lemma ilog2_unique x e :
  pow2 e <= x → x < pow2 (e + 1) → ilog2 x = e.
Proof.
  intros H1 H2.
  assert (Hx : 0 < x) by (eapply Qlt_le_trans; [apply pow2_pos|exact H1]).
  destruct (ilog2_spec x Hx) as [H3 H4].
  assert (ilog2 x < e + 1)%Z.
  { apply pow2_lt_inv. eapply Qle_lt_trans; [exact H3|exact H2]. }
  assert (e < ilog2 x + 1)%Z.
  { apply pow2_lt_inv. eapply Qle_lt_trans; [exact H1|exact H4]. }
  lia.
Qed.

Lemma ilog2_mono x y : 0 < x → x <= y → (ilog2 x <= ilog2 y)%Z.
Proof.
  intros Hx Hxy.
  assert (Hy : 0 < y) by (eapply Qlt_le_trans; [exact Hx|exact Hxy]).
  destruct (ilog2_spec x Hx) as [H1 _]. destruct (ilog2_spec y Hy) as [_ H2].
  assert (ilog2 x < ilog2 y + 1)%Z; [|lia].
  apply pow2_lt_inv. eapply Qle_lt_trans; [exact H1|].
  eapply Qle_lt_trans; [exact Hxy|exact H2].
Qed.

Lemma ilog2_comp x y : 0 < x → x == y → ilog2 x = ilog2 y.
Proof.
  intros Hx Hxy. destruct (ilog2_spec x Hx) as [H1 H2].
  symmetry. apply ilog2_unique; by rewrite <- Hxy.
Qed.

(** ** Rounding to an integer *)

Lemma rne_comp x y : x == y → rne x = rne y.
Proof.
  intros H. unfold rne. rewrite (Qfloor_comp _ _ H).
  assert (E : x - inject_Z (Qfloor y) == y - inject_Z (Qfloor y)) by (by rewrite H).
  by rewrite (Qcompare_comp _ _ E (1#2) (1#2) (Qeq_refl _)).
Qed.

Lemma rne_Z n : rne (inject_Z n) = n.
Proof.
  unfold rne. rewrite Qfloor_Z.
  assert (E : inject_Z n - inject_Z n == 0) by ring.
  by rewrite (Qcompare_comp _ _ E (1#2) (1#2) (Qeq_refl _)).
Qed.

Lemma rne_bounds y :
  (Qfloor y <= rne y <= Qfloor y + 1)%Z.
Proof.
  unfold rne. destruct (_ ?= _); [destruct (Z.even _)|..]; lia.
Qed.

Lemma rne_mono x y : x <= y → (rne x <= rne y)%Z.
Proof.
  intros Hxy. pose proof (Qfloor_resp_le _ _ Hxy) as Hf.
  pose proof (rne_bounds x) as Bx. pose proof (rne_bounds y) as By.
  destruct (decide (Qfloor x = Qfloor y)) as [E|NE]; [|lia].
  unfold rne. rewrite E.
  destruct (x - inject_Z (Qfloor y) ?= 1 # 2) eqn:Cx;
    destruct (y - inject_Z (Qfloor y) ?= 1 # 2) eqn:Cy;
    try (destruct (Z.even (Qfloor y))); try lia.
  all: try rewrite <- Qeq_alt in Cx; try rewrite <- Qlt_alt in Cx;
    try rewrite <- Qgt_alt in Cx.
  all: try rewrite <- Qeq_alt in Cy; try rewrite <- Qlt_alt in Cy;
    try rewrite <- Qgt_alt in Cy.
  all: lra.
Qed.

Lemma rne_ge y n : inject_Z n <= y → (n <= rne y)%Z.
Proof. intros H. rewrite <- (rne_Z n). by apply rne_mono. Qed.

Lemma rne_le y n : y <= inject_Z n → (rne y <= n)%Z.
Proof. intros H. rewrite <- (rne_Z n). by apply rne_mono. Qed.


Lemma Qfloor_unique y n :
  inject_Z n <= y → y < inject_Z (n + 1) → Qfloor y = n.
Proof.
  intros H1 H2. pose proof (Qfloor_le y) as H3. pose proof (Qlt_floor y) as H4.
  assert (Qfloor y < n + 1)%Z by (rewrite Zlt_Qlt; lra).
  assert (n < Qfloor y + 1)%Z by (rewrite Zlt_Qlt; lra).
  lia.
Qed.

Lemma rne_opp y : rne (- y) = (- rne y)%Z.
Proof.
  pose proof (Qfloor_le y) as H1. pose proof (Qlt_floor y) as H2.
  set (f := Qfloor y) in *. rewrite inject_Z_plus in H2.
  change (inject_Z 1) with 1 in H2.
  destruct (Qeq_dec y (inject_Z f)) as [E|NE].
  - rewrite (rne_comp y _ E), rne_Z.
    assert (E' : - y == inject_Z (- f)) by (rewrite E, inject_Z_opp; reflexivity).
    by rewrite (rne_comp _ _ E'), rne_Z.
  - assert (Hlt : inject_Z f < y).
    { apply Qle_lteq in H1 as [H1|H1]; [done|]. by destruct NE. }
    assert (Hf : Qfloor (- y) = (- f - 1)%Z).
    { apply Qfloor_unique.
      - unfold Z.sub. rewrite inject_Z_plus, !inject_Z_opp.
        change (inject_Z 1) with 1. lra.
      - replace (- f - 1 + 1)%Z with (- f)%Z by lia. rewrite inject_Z_opp. lra. }
    unfold rne. rewrite Hf. fold f.
    assert (Hr : - y - inject_Z (- f - 1) == 1 - (y - inject_Z f)).
    { unfold Z.sub. rewrite inject_Z_plus, !inject_Z_opp.
      change (inject_Z 1) with 1. ring. }
    rewrite (Qcompare_comp _ _ Hr (1#2) (1#2) (Qeq_refl _)).
    destruct (y - inject_Z f ?= 1 # 2) eqn:C.
    + rewrite <- Qeq_alt in C.
      assert (C' : 1 - (y - inject_Z f) == 1 # 2) by (rewrite C; reflexivity).
      rewrite Qeq_alt in C'. rewrite C'.
      replace (- f - 1)%Z with (- (f + 1))%Z by lia.
      rewrite Z.even_opp, Z.even_add. change (Z.even 1) with false.
      destruct (Z.even f); simpl; lia.
    + rewrite <- Qlt_alt in C.
      assert (C' : 1 - (y - inject_Z f) > 1 # 2) by lra.
      rewrite Qgt_alt in C'. rewrite C'. lia.
    + rewrite <- Qgt_alt in C.
      assert (C' : 1 - (y - inject_Z f) < 1 # 2) by lra.
      rewrite Qlt_alt in C'. rewrite C'. lia.
Qed.

(** ** Rounding to binary64 *)

Lemma div_pow2 x s : x / pow2 s == x * pow2 (- s).
Proof. unfold Qdiv, pow2. by rewrite Qpower_opp. Qed.

Lemma round64_zero x : x == 0 → round64 x = 0.
Proof. intros H. unfold round64. apply Qeq_bool_iff in H. by rewrite H. Qed.

Lemma round64_nonzero x :
  ¬ x == 0 →
  round64 x == inject_Z (rne (x * pow2 (- quantum x))) * pow2 (quantum x).
Proof.
  intros H. unfold round64.
  destruct (Qeq_bool x 0) eqn:E; [by apply Qeq_bool_iff in E|].
  cbv zeta. rewrite Qred_correct.
  by rewrite (rne_comp _ _ (div_pow2 x (quantum x))).
Qed.

Lemma Qabs_pos_lt x : ¬ x == 0 → 0 < Qabs x.
Proof.
  intros H. pose proof (Qabs_nonneg x) as Hn.
  apply Qle_lteq in Hn as [Hn|Hn]; [done|].
  destruct H. revert Hn.
  apply (Qabs_case x (λ a, 0 == a → x == 0)); intros; lra.
Qed.

Lemma quantum_comp x y : ¬ x == 0 → x == y → quantum x = quantum y.
Proof.
  intros Hx Hxy. unfold quantum.
  rewrite (ilog2_comp (Qabs x) (Qabs y)); [done|by apply Qabs_pos_lt|].
  by rewrite Hxy.
Qed.

Lemma round64_comp x y : x == y → round64 x = round64 y.
Proof.
  intros Hxy. destruct (Qeq_dec x 0) as [Hx|Hx].
  - rewrite (round64_zero x Hx). symmetry. apply round64_zero. by rewrite <- Hxy.
  - unfold round64.
    destruct (Qeq_bool x 0) eqn:E; [by apply Qeq_bool_iff in E|].
    destruct (Qeq_bool y 0) eqn:E'.
    { apply Qeq_bool_iff in E'. destruct Hx. by rewrite Hxy. }
    cbv zeta. rewrite (quantum_comp x y Hx Hxy). apply Qred_complete.
    assert (Hd : x / pow2 (quantum y) == y / pow2 (quantum y)) by (by rewrite Hxy).
    by rewrite (rne_comp _ _ Hd).
Qed.

Lemma round64_opp x : round64 (- x) == - round64 x.
Proof.
  destruct (Qeq_dec x 0) as [Hx|Hx].
  - rewrite (round64_zero x Hx). rewrite round64_zero; [reflexivity|]. by rewrite Hx.
  - assert (Hx' : ¬ - x == 0) by (intros H; apply Hx; lra).
    rewrite (round64_nonzero _ Hx'), (round64_nonzero _ Hx).
    assert (Hq : quantum (- x) = quantum x).
    { unfold quantum. rewrite (ilog2_comp (Qabs (- x)) (Qabs x)); [done| |].
      - by apply Qabs_pos_lt.
      - apply Qabs_opp. }
    rewrite Hq.
    assert (Hm : - x * pow2 (- quantum x) == - (x * pow2 (- quantum x))) by ring.
    rewrite (rne_comp _ _ Hm), rne_opp, inject_Z_opp. ring.
Qed.

(** A number with a significand of at most 53 bits and an exponent in
    range is a binary64 number: rounding leaves it alone. *)
Lemma round64_exact x m g :
  x == inject_Z m * pow2 g → (Z.abs m < 2 ^ 53)%Z → (-1074 <= g)%Z →
  round64 x == x.
Proof.
  intros Hx Hm Hg. destruct (Qeq_dec x 0) as [H0|H0].
  { rewrite (round64_zero x H0). by rewrite H0. }
  rewrite (round64_nonzero x H0).
  pose proof (Qabs_pos_lt x H0) as Ha.
  destruct (ilog2_spec _ Ha) as [He _].
  set (e := ilog2 (Qabs x)) in *.
  assert (Habs : Qabs x < pow2 (53 + g)).
  { rewrite Hx, Qabs_Qmult. rewrite (Qabs_pos (pow2 g)) by apply Qlt_le_weak, pow2_pos.
    rewrite pow2_add. apply Qmult_lt_r; [apply pow2_pos|].
    rewrite pow2_Z by lia.
    assert (Hz : Qabs (inject_Z m) == inject_Z (Z.abs m)) by reflexivity.
    rewrite Hz. by rewrite <- Zlt_Qlt. }
  assert (Hlt : (e < 53 + g)%Z).
  { apply pow2_lt_inv. eapply Qle_lt_trans; [exact He|exact Habs]. }
  assert (Hs : (quantum x <= g)%Z) by (unfold quantum; fold e; lia).
  set (s := quantum x) in *.
  assert (Hint : x * pow2 (- s) == inject_Z (m * 2 ^ (g - s))).
  { rewrite Hx, inject_Z_mult, <- pow2_Z by lia. rewrite <- Qmult_assoc, <- pow2_add.
    by replace (g + - s)%Z with (g - s)%Z by lia. }
  rewrite (rne_comp _ _ Hint), rne_Z.
  rewrite inject_Z_mult, <- pow2_Z by lia.
  rewrite <- Qmult_assoc, pow2_sub. by rewrite Hx.
Qed.

Lemma round64_pos_bounds x :
  0 < x →
  0 <= round64 x
  ∧ ((-1022 <= ilog2 x)%Z → pow2 (ilog2 x) <= round64 x)
  ∧ round64 x <= pow2 (Z.max (ilog2 x + 1) (-1074)).
Proof.
  intros Hx.
  assert (H0 : ¬ x == 0) by (intros H; rewrite H in Hx; discriminate).
  rewrite (round64_nonzero x H0).
  assert (Hq : quantum x = (Z.max (ilog2 x) (-1022) - 52)%Z).
  { unfold quantum. rewrite (ilog2_comp (Qabs x) x); [done|by apply Qabs_pos_lt|].
    apply Qabs_pos. by apply Qlt_le_weak. }
  destruct (ilog2_spec x Hx) as [He1 He2].
  set (e := ilog2 x) in *. set (s := quantum x) in *.
  pose proof (pow2_pos s) as Hps. pose proof (pow2_pos (- s)) as Hpns.
  split; [|split].
  - apply Qmult_le_0_compat; [|by apply Qlt_le_weak].
    change 0 with (inject_Z 0). rewrite <- Zle_Qle. apply rne_ge.
    change (inject_Z 0) with 0. apply Qmult_le_0_compat; by apply Qlt_le_weak.
  - intros Hn. assert (Hs : s = (e - 52)%Z) by lia.
    assert (Hge : (2 ^ 52 <= rne (x * pow2 (- s)))%Z).
    { apply rne_ge. rewrite <- pow2_Z by lia.
      replace 52%Z with (e + - s)%Z by lia. rewrite pow2_add.
      apply Qmult_le_r; [done|exact He1]. }
    apply Qle_trans with (inject_Z (2 ^ 52) * pow2 s).
    + rewrite <- pow2_Z, <- pow2_add by lia.
      apply pow2_le. lia.
    + apply Qmult_le_r; [done|]. by rewrite <- Zle_Qle.
  - set (t := (Z.max (e + 1) (-1074) - s)%Z).
    assert (Ht : (0 <= t)%Z) by lia.
    assert (Hle : (rne (x * pow2 (- s)) <= 2 ^ t)%Z).
    { apply rne_le. rewrite <- pow2_Z by lia.
      replace t with (Z.max (e + 1) (-1074) + - s)%Z by lia. rewrite pow2_add.
      apply Qmult_le_r; [done|].
      apply Qle_trans with (pow2 (e + 1)); [by apply Qlt_le_weak|].
      apply pow2_le. lia. }
    apply Qle_trans with (inject_Z (2 ^ t) * pow2 s).
    + apply Qmult_le_r; [done|]. by rewrite <- Zle_Qle.
    + rewrite <- pow2_Z, <- pow2_add by lia. apply pow2_le. lia.
Qed.

Lemma round64_nonneg x : 0 <= x → 0 <= round64 x.
Proof.
  intros Hx. apply Qle_lteq in Hx as [Hx|Hx].
  - by apply round64_pos_bounds.
  - rewrite round64_zero; [lra|]. by rewrite <- Hx.
Qed.

Lemma round64_nonpos x : x <= 0 → round64 x <= 0.
Proof.
  intros Hx. assert (H : 0 <= round64 (- x)) by (apply round64_nonneg; lra).
  rewrite round64_opp in H. lra.
Qed.

Lemma round64_mono_pos x y : 0 < x → x <= y → round64 x <= round64 y.
Proof.
  intros Hx Hxy.
  assert (Hy : 0 < y) by (eapply Qlt_le_trans; [exact Hx|exact Hxy]).
  pose proof (ilog2_mono x y Hx Hxy) as He.
  destruct (round64_pos_bounds x Hx) as (_ & _ & Hhi).
  destruct (round64_pos_bounds y Hy) as (_ & Hlo & _).
  assert (Hqx : quantum x = (Z.max (ilog2 x) (-1022) - 52)%Z).
  { unfold quantum. rewrite (ilog2_comp (Qabs x) x); [done| |].
    - apply Qabs_pos_lt. intros H; rewrite H in Hx; discriminate.
    - apply Qabs_pos. by apply Qlt_le_weak. }
  assert (Hqy : quantum y = (Z.max (ilog2 y) (-1022) - 52)%Z).
  { unfold quantum. rewrite (ilog2_comp (Qabs y) y); [done| |].
    - apply Qabs_pos_lt. intros H; rewrite H in Hy; discriminate.
    - apply Qabs_pos. by apply Qlt_le_weak. }
  destruct (decide (quantum x = quantum y)) as [E|NE].
  - rewrite (round64_nonzero x), (round64_nonzero y);
      [|intros H; rewrite H in Hy; discriminate
       |intros H; rewrite H in Hx; discriminate].
    rewrite E. apply Qmult_le_r; [apply pow2_pos|].
    rewrite <- Zle_Qle. apply rne_mono.
    apply Qmult_le_r; [apply pow2_pos|exact Hxy].
  - assert (Hn : (-1022 <= ilog2 y)%Z) by lia.
    apply Qle_trans with (pow2 (ilog2 y)); [|by apply Hlo].
    eapply Qle_trans; [exact Hhi|]. apply pow2_le. lia.
Qed.

(** Rounding is monotone. *)
Lemma round64_mono x y : x <= y → round64 x <= round64 y.
Proof.
  intros Hxy.
  destruct (Qlt_le_dec 0 x) as [Hx|Hx]; [by apply round64_mono_pos|].
  destruct (Qlt_le_dec y 0) as [Hy|Hy].
  - assert (H : round64 (- y) <= round64 (- x))
      by (apply round64_mono_pos; lra).
    rewrite !round64_opp in H. lra.
  - apply Qle_trans with 0; [by apply round64_nonpos|by apply round64_nonneg].
Qed.

Lemma round64_1 : round64 1 == 1.
Proof. vm_compute. reflexivity. Qed.

(** Agreement with the machine's binary64 arithmetic on sample values. *)
Example round64_agrees :
  Q_of_float (0.35 - 0.05)%float == fsub (Q_of_float 0.35) (Q_of_float 0.05)
  ∧ Q_of_float (60.3 - 0.3)%float == fsub (Q_of_float 60.3) (Q_of_float 0.3)
  ∧ Q_of_float 60%float == fsub (Q_of_float 60.3) (Q_of_float 0.3)
  ∧ Q_of_float 0.1%float == round64 (1 # 10)
  ∧ Q_of_float (1 - 0.29999999999999993)%float
    == fsub 1 (Q_of_float 0.29999999999999993)
  ∧ Q_of_float (1700000000.25 - 1699999999.5)%float
    == fsub (Q_of_float 1700000000.25) (Q_of_float 1699999999.5)
  ∧ Q_of_float (5e-324 - 1e-323)%float
    == fsub (Q_of_float 5e-324) (Q_of_float 1e-323)
  ∧ Q_of_float (1e300 - 1e-300)%float
    == fsub (Q_of_float 1e300) (Q_of_float 1e-300)
  ∧ Q_of_float (9007199254740994 - 1)%float
    == fsub (Q_of_float 9007199254740994) (Q_of_float 1)
  ∧ Q_of_float (9007199254740996 - 1)%float
    == fsub (Q_of_float 9007199254740996) (Q_of_float 1).
Proof.
  split; [|split; [|split; [|split; [|split; [|split; [|split; [|split; [|split]]]]]]]];
    vm_compute; reflexivity.
Qed.


(** ** Numbers on a grid *)

Lemma dyadic_comp k x y : x == y → dyadic k x → dyadic k y.
Proof. intros H [m Hm]. exists m. by rewrite <- H. Qed.

Lemma dyadic_Z k n : dyadic k (inject_Z n).
Proof.
  exists (n * 2 ^ Z.of_nat k)%Z.
  rewrite inject_Z_mult, <- pow2_Z by lia.
  rewrite <- Qmult_assoc, <- pow2_add.
  replace (Z.of_nat k + - Z.of_nat k)%Z with 0%Z by lia.
  rewrite pow2_0. ring.
Qed.

Lemma dyadic_0 k : dyadic k 0.
Proof. apply (dyadic_Z k 0). Qed.

Lemma dyadic_1 k : dyadic k 1.
Proof. apply (dyadic_Z k 1). Qed.

Lemma dyadic_plus k x y : dyadic k x → dyadic k y → dyadic k (x + y).
Proof.
  intros [m Hm] [n Hn]. exists (m + n)%Z.
  rewrite Hm, Hn, inject_Z_plus. ring.
Qed.

Lemma dyadic_opp k x : dyadic k x → dyadic k (- x).
Proof.
  intros [m Hm]. exists (- m)%Z. rewrite Hm, inject_Z_opp. ring.
Qed.

Lemma dyadic_minus k x y : dyadic k x → dyadic k y → dyadic k (x - y).
Proof. intros Hx Hy. apply dyadic_plus; [done|by apply dyadic_opp]. Qed.

Lemma horizon_ge_2 k : (k ≤ 52)%nat → 2 <= horizon k.
Proof.
  intros Hk. unfold horizon. change 2 with (pow2 1). apply pow2_le. lia.
Qed.

(** On the grid and below the horizon, a number is a float. *)
Lemma grid_exact k x :
  (k ≤ 52)%nat → dyadic k x → - horizon k < x → x < horizon k →
  round64 x == x.
Proof.
  intros Hk [m Hm] Hlo Hhi.
  apply (round64_exact x m (- Z.of_nat k)); [exact Hm| |lia].
  assert (Ha : Qabs x < horizon k) by (apply Qabs_Qlt_condition; by split).
  rewrite Hm, Qabs_Qmult in Ha.
  rewrite (Qabs_pos (pow2 _)) in Ha by apply Qlt_le_weak, pow2_pos.
  unfold horizon in Ha.
  replace (53 - Z.of_nat k)%Z with (53 + - Z.of_nat k)%Z in Ha by lia.
  rewrite pow2_add in Ha. apply Qmult_lt_r in Ha; [|apply pow2_pos].
  rewrite pow2_Z in Ha by lia.
  assert (Hz : Qabs (inject_Z m) == inject_Z (Z.abs m)) by reflexivity.
  rewrite Hz in Ha. by rewrite <- Zlt_Qlt in Ha.
Qed.

Lemma grid_fsub k x y :
  (k ≤ 52)%nat → dyadic k x → dyadic k y →
  - horizon k < x - y → x - y < horizon k →
  fsub x y == x - y.
Proof.
  intros Hk Hx Hy Hlo Hhi. unfold fsub.
  apply (grid_exact k); [done|by apply dyadic_minus|done..].
Qed.

End Float64Props.

(* ===================================================================== *)
(** * Properties of the extractor *)
(* ===================================================================== *)

Module ScraperProps.
Import Py Bs4 Scraper ScraperSpec.

Lemma table_values_nonempty :
  map_Forall (λ _ v, truthy v = true) PROVINCIAS_COMUNIDADES.
Proof. refine (bool_decide_unpack _ _). vm_compute. exact I. Qed.

Lemma tipos_distinct : OBSTACULO_FIJO_POR_ACCIDENTE ≠ OBSTACULO_FIJO.
Proof. vm_compute. discriminate. Qed.

Lemma search_Some {A} (m : str → option A) s r :
  search m s = Some r → ∃ t, m t = Some r.
Proof.
  induction s as [|c s IH]; simpl.
  - destruct (m []) eqn:E; [|discriminate]. intros [= <-]. eauto.
  - destruct (m (c :: s)) eqn:E; [intros [= <-]; eauto | exact IH].
Qed.

Lemma m_fecha_length U s d : m_fecha U s = Some d → length d = 10%nat.
Proof.
  unfold m_fecha.
  repeat (destruct s as [|? s]; [discriminate|]).
  destruct (_ && _); [|discriminate]. by intros [= <-].
Qed.

Section Rows.

Variable U : Unicode.
Variable tag_str : node → str.

(** The fields of a parsed row that the properties below are about. *)
Lemma parse_row_inv cells row_id inc :
  parse_row U tag_str cells row_id = Ok (Some inc) →
  ∃ c0 c1 c2 c3 c4 c5 rest,
    cells = c0 :: c1 :: c2 :: c3 :: c4 :: c5 :: rest
    ∧ descripcion inc = collapse_ws (strip (get_text c5))
    ∧ tipo inc = (if contains OBSTACULO_FIJO (upper U (descripcion inc))
                     && contains ACCIDENTE (upper U (descripcion inc))
                  then OBSTACULO_FIJO_POR_ACCIDENTE else OBSTACULO_FIJO)
    ∧ hora_fin inc = (if truthy (end_label c1) then Some (end_label c1) else None)
    ∧ fecha_fin inc = (if truthy (end_label c1)
                       then search (m_fecha U) (get_text c1) else None)
    ∧ activa inc = is_None (fecha_fin inc).
Proof.
  unfold parse_row.
  destruct cells as [|c0 [|c1 [|c2 [|c3 [|c4 [|c5 rest]]]]]];
    cbv beta iota zeta delta
      [index lookup list_lookup mbind result_bind mret result_ret].
  1-6: intros H;
       try destruct (match find _ _ with Some _ => _ | None => _ end) in H;
       discriminate H.
  destruct (find (lit "span") c1) as [span_fin|] eqn:Ef;
    [destruct (truthy (strip (get_text span_fin))) eqn:Et|];
    intros H; injection H as <-;
    exists c0, c1, c2, c3, c4, c5, rest;
    unfold end_label; rewrite Ef, ?Et; repeat split.
Qed.

(** With its six cells at hand, [parse_row] returns a record. *)
Lemma parse_row_total cells row_id :
  (6 ≤ length cells)%nat → ∃ inc, parse_row U tag_str cells row_id = Ok (Some inc).
Proof.
  intros Hlen. unfold parse_row.
  destruct cells as [|c0 [|c1 [|c2 [|c3 [|c4 [|c5 rest]]]]]];
    simpl in Hlen; try lia.
  cbv beta iota zeta delta
    [index lookup list_lookup mbind result_bind mret result_ret].
  destruct (match find _ c1 with Some _ => _ | None => _ end). eauto.
Qed.

Section Loop.

Variable extract : node → result str.
Variable parse : list node → str → result (option Incidencia).

(** What a row adds to the output depends on that row alone. *)
Lemma loop_body_app acc row :
  loop_body U extract parse acc row = acc ++ loop_body U extract parse [] row.
Proof.
  unfold loop_body.
  destruct (negb _); [by rewrite app_nil_r|].
  destruct (_ <? _)%nat; [by rewrite app_nil_r|].
  destruct (_ ≫= _) as [[inc|]|e]; by rewrite ?app_nil_r.
Qed.

Lemma foldl_loop_body acc rows :
  foldl (loop_body U extract parse) acc rows
  = acc ++ flat_map (loop_body U extract parse []) rows.
Proof.
  revert acc. induction rows as [|row rows IH]; intros acc; simpl.
  - by rewrite app_nil_r.
  - rewrite IH, (loop_body_app acc row). by rewrite <- app_assoc.
Qed.

Lemma loop_flat_map rows :
  loop U extract parse rows = flat_map (loop_body U extract parse []) rows.
Proof. unfold loop. by rewrite foldl_loop_body. Qed.

Lemma loop_body_unmarked acc row :
  contains OBSTACULO_FIJO (upper U (get_text row)) = false →
  loop_body U extract parse acc row = acc.
Proof. unfold loop_body. by intros ->. Qed.

Lemma loop_body_short acc row :
  (length (find_all (lit "td") row) < 6)%nat →
  loop_body U extract parse acc row = acc.
Proof.
  intros Hlen. unfold loop_body.
  destruct (negb _); [done|].
  by apply Nat.ltb_lt in Hlen as ->.
Qed.

Lemma loop_body_raise acc row e :
  try_block extract parse row = Raise e →
  loop_body U extract parse acc row = acc.
Proof.
  unfold loop_body, try_block. intros ->.
  destruct (negb _); [done|]. by destruct (_ <? _)%nat.
Qed.

Lemma loop_body_kept acc row inc :
  kept U row = true →
  try_block extract parse row = Ok (Some inc) →
  loop_body U extract parse acc row = acc ++ [inc].
Proof.
  unfold kept, loop_body, try_block.
  intros [Hm Hlen]%andb_prop ->. rewrite Hm. simpl.
  apply Nat.leb_le in Hlen.
  by destruct (Nat.ltb_spec (length (find_all (lit "td") row)) 6); [lia|].
Qed.

Lemma loop_body_not_kept acc row :
  kept U row = false → loop_body U extract parse acc row = acc.
Proof.
  unfold kept. intros [H|H]%andb_false_iff.
  - by apply loop_body_unmarked.
  - apply loop_body_short. by apply Nat.leb_gt in H.
Qed.

End Loop.
End Rows.

(** ** The model at work *)

(** The end-to-end example of the design document: start date
    '01/01/2024', no end label, province 'MADRID', locality 'ALCOBENDAS',
    road 'A-1', description '... km 23,5 sentido Norte ...'. *)
Example end_to_end :
  parse_soup latin1 decode (tabla [fila_abierta]) = [registro_abierta]
  ∧ filtrar_activas [registro_abierta] = [registro_abierta].
Proof. split; vm_compute; reflexivity. Qed.

(** ** Region lookup *)

(** C9. A province that, uppercased and trimmed, is not a key of
    PROVINCIAS_COMUNIDADES gets the region 'DESCONOCIDA'; and whatever the
    province, [get_comunidad] returns a non-empty string. The function is
    total: it has no failing path. *)
Theorem get_comunidad_unknown U (provincia : str) :
  (PROVINCIAS_COMUNIDADES !! strip (upper U provincia) = None →
   get_comunidad U provincia = DESCONOCIDA)
  ∧ get_comunidad U provincia ≠ [].
Proof.
  unfold get_comunidad. split.
  - by intros ->.
  - destruct (PROVINCIAS_COMUNIDADES !! _) as [v|] eqn:E; simpl.
    + apply table_values_nonempty in E. by destruct v.
    + discriminate.
Qed.

Lemma get_comunidad_unknown_witness :
  PROVINCIAS_COMUNIDADES !! strip (upper latin1 (lit " Atlantis ")) = None
  ∧ get_comunidad latin1 (lit " Atlantis ") = DESCONOCIDA.
Proof.
  assert (H : PROVINCIAS_COMUNIDADES !! strip (upper latin1 (lit " Atlantis ")) = None)
    by (vm_compute; reflexivity).
  split; [exact H|].
  exact (proj1 (get_comunidad_unknown latin1 (lit " Atlantis ")) H).
Defined.

(** ** Category *)

(** C1 as stated fails. The sample row shows the category phrase in its
    type column only; its normalized, uppercased description contains
    'ACCIDENTE', and the record is still a plain 'OBSTÁCULO FIJO'. *)
Lemma accident_marker_alone_is_plain :
  parse_soup latin1 decode (tabla [fila_accidente]) = [registro_accidente]
  ∧ contains ACCIDENTE (upper latin1 (descripcion registro_accidente)) = true
  ∧ tipo registro_accidente = OBSTACULO_FIJO
  ∧ tipo registro_accidente ≠ OBSTACULO_FIJO_POR_ACCIDENTE.
Proof.
  repeat split; try (vm_compute; reflexivity).
  vm_compute. discriminate.
Qed.

(** C1, amended. The description of a record is the text of the sixth
    cell, trimmed and with whitespace runs collapsed. The record is an
    'OBSTÁCULO FIJO POR ACCIDENTE' if and only if that description,
    uppercased, contains both 'OBSTÁCULO FIJO' and 'ACCIDENTE'; otherwise it
    is an 'OBSTÁCULO FIJO'. *)
Theorem tipo_from_description U tag_str cells row_id inc :
  parse_row U tag_str cells row_id = Ok (Some inc) →
  ∃ cell_desc,
    cells !! 5%nat = Some cell_desc
    ∧ descripcion inc = collapse_ws (strip (get_text cell_desc))
    ∧ (tipo inc = OBSTACULO_FIJO_POR_ACCIDENTE ↔
         contains OBSTACULO_FIJO (upper U (descripcion inc)) = true
         ∧ contains ACCIDENTE (upper U (descripcion inc)) = true)
    ∧ (tipo inc ≠ OBSTACULO_FIJO_POR_ACCIDENTE → tipo inc = OBSTACULO_FIJO).
Proof.
  intros (c0 & c1 & c2 & c3 & c4 & c5 & rest & -> & Hd & Ht & _)%parse_row_inv.
  exists c5. split; [done|]. split; [done|].
  rewrite Ht. clear Ht.
  destruct (contains OBSTACULO_FIJO _), (contains ACCIDENTE _); cbn [andb].
  1: { split; [split; [auto|reflexivity]|]. intros H. by destruct H. }
  all: split; [split|reflexivity].
  all: try (intros H; symmetry in H; destruct (tipos_distinct H)).
  all: intros [H1 H2]; discriminate.
Qed.

Lemma tipo_from_description_witness :
  parse_row latin1 decode (find_all (lit "td") fila_abierta) (lit "12345")
    = Ok (Some registro_abierta)
  ∧ ∃ cell_desc,
      find_all (lit "td") fila_abierta !! 5%nat = Some cell_desc
      ∧ descripcion registro_abierta = collapse_ws (strip (get_text cell_desc))
      ∧ (tipo registro_abierta = OBSTACULO_FIJO_POR_ACCIDENTE ↔
           contains OBSTACULO_FIJO (upper latin1 (descripcion registro_abierta)) = true
           ∧ contains ACCIDENTE (upper latin1 (descripcion registro_abierta)) = true)
      ∧ (tipo registro_abierta ≠ OBSTACULO_FIJO_POR_ACCIDENTE →
         tipo registro_abierta = OBSTACULO_FIJO).
Proof.
  assert (H : parse_row latin1 decode (find_all (lit "td") fila_abierta) (lit "12345")
              = Ok (Some registro_abierta)) by (vm_compute; reflexivity).
  split; [exact H|].
  exact (tipo_from_description latin1 decode _ _ _ H).
Defined.

(** ** End timestamp *)

(** C5 as stated fails when the match that is missing is the date: the end
    cell of the sample row has the label '12:30' and no date-shaped text;
    the date stays unset and the record is active, but the hour is set. *)
Lemma hour_without_date :
  parse_soup latin1 decode (tabla [fila_hora_sin_fecha]) = [registro_hora_sin_fecha]
  ∧ (∃ cell_fin,
       find_all (lit "td") fila_hora_sin_fecha !! 1%nat = Some cell_fin
       ∧ search (m_fecha latin1) (get_text cell_fin) = None)
  ∧ fecha_fin registro_hora_sin_fecha = None
  ∧ activa registro_hora_sin_fecha = true
  ∧ hora_fin registro_hora_sin_fecha = Some (lit "12:30")
  ∧ hora_fin registro_hora_sin_fecha ≠ None.
Proof.
  split; [vm_compute; reflexivity|].
  split; [eexists; split; vm_compute; reflexivity|].
  repeat split; try (vm_compute; reflexivity). discriminate.
Qed.

(** C5, amended. With [label] the trimmed text of the span nested in the
    end cell (empty when there is none): either end field is set only if
    [label] is non-empty; with an empty [label] both are None and the
    record is active; with a non-empty [label] the hour is [label] and the
    date is the first date-shaped match in the text of the cell, None when
    there is none, in which case the record is active although its hour is
    set. Neither field is ever the empty string. *)
Theorem end_timestamp U tag_str cells row_id inc :
  parse_row U tag_str cells row_id = Ok (Some inc) →
  ∃ cell_fin,
    cells !! 1%nat = Some cell_fin
    ∧ (is_Some (hora_fin inc) ∨ is_Some (fecha_fin inc) → end_label cell_fin ≠ [])
    ∧ (end_label cell_fin = [] →
       hora_fin inc = None ∧ fecha_fin inc = None ∧ activa inc = true)
    ∧ (end_label cell_fin ≠ [] →
       hora_fin inc = Some (end_label cell_fin)
       ∧ fecha_fin inc = search (m_fecha U) (get_text cell_fin))
    ∧ (fecha_fin inc = None → activa inc = true)
    ∧ hora_fin inc ≠ Some [] ∧ fecha_fin inc ≠ Some [].
Proof.
  intros (c0 & c1 & c2 & c3 & c4 & c5 & rest & -> & _ & _ & Hh & Hf & Ha)%parse_row_inv.
  exists c1. split; [done|].
  rewrite Ha, Hh, Hf. clear Ha Hh Hf.
  destruct (end_label c1) as [|ch l] eqn:El; simpl.
  - repeat split; try done. by intros [[? [=]]|[? [=]]].
  - repeat split; try done.
    + by intros ->.
    + intros (t & Ht%m_fecha_length)%search_Some. discriminate Ht.
Qed.

Lemma end_timestamp_witness :
  parse_row latin1 decode (find_all (lit "td") fila_hora_sin_fecha) []
    = Ok (Some registro_hora_sin_fecha)
  ∧ ∃ cell_fin,
      find_all (lit "td") fila_hora_sin_fecha !! 1%nat = Some cell_fin
      ∧ (is_Some (hora_fin registro_hora_sin_fecha)
         ∨ is_Some (fecha_fin registro_hora_sin_fecha) → end_label cell_fin ≠ [])
      ∧ (end_label cell_fin = [] →
         hora_fin registro_hora_sin_fecha = None
         ∧ fecha_fin registro_hora_sin_fecha = None
         ∧ activa registro_hora_sin_fecha = true)
      ∧ (end_label cell_fin ≠ [] →
         hora_fin registro_hora_sin_fecha = Some (end_label cell_fin)
         ∧ fecha_fin registro_hora_sin_fecha
           = search (m_fecha latin1) (get_text cell_fin))
      ∧ (fecha_fin registro_hora_sin_fecha = None →
         activa registro_hora_sin_fecha = true)
      ∧ hora_fin registro_hora_sin_fecha ≠ Some []
      ∧ fecha_fin registro_hora_sin_fecha ≠ Some [].
Proof.
  assert (H : parse_row latin1 decode (find_all (lit "td") fila_hora_sin_fecha) []
              = Ok (Some registro_hora_sin_fecha)) by (vm_compute; reflexivity).
  split; [exact H|].
  exact (end_timestamp latin1 decode _ _ _ H).
Defined.

(** ** One record per kept row *)

(** C3. A row that shows the category phrase and has at least six cells
    adds exactly one record to the output, and the records of the output
    are, in order, those of the kept rows of the document; in each of them
    [activa] is [fecha_fin is None]. *)
Theorem kept_row_one_record U tag_str :
  (∀ acc row,
     kept U row = true →
     ∃ inc,
       loop_body U (λ row, Ok (extract_id U row)) (parse_row U tag_str) acc row
         = acc ++ [inc]
       ∧ activa inc = is_None (fecha_fin inc))
  ∧ (∀ soup,
       Forall2
         (λ row inc,
            parse_row U tag_str (find_all (lit "td") row) (extract_id U row)
              = Ok (Some inc)
            ∧ activa inc = is_None (fecha_fin inc))
         (filter (λ row, kept U row = true) (find_all (lit "tr") soup))
         (parse_soup U tag_str soup)).
Proof.
  assert (Hrow : ∀ row, kept U row = true →
            ∃ inc, parse_row U tag_str (find_all (lit "td") row) (extract_id U row)
                     = Ok (Some inc)
                   ∧ activa inc = is_None (fecha_fin inc)).
  { intros row [_ Hlen%Nat.leb_le]%andb_prop.
    destruct (parse_row_total U tag_str _ (extract_id U row) Hlen) as [inc Hinc].
    exists inc. split; [done|].
    by apply parse_row_inv in Hinc as (?&?&?&?&?&?&?&?&?&?&?&?&?). }
  split.
  - intros acc row Hk. destruct (Hrow row Hk) as (inc & Hinc & Ha).
    exists inc. split; [|done].
    exact (loop_body_kept U (λ row, Ok (extract_id U row)) (parse_row U tag_str)
             acc row inc Hk Hinc).
  - intros soup. unfold parse_soup. rewrite loop_flat_map.
    induction (find_all (lit "tr") soup) as [|row rows IH]; simpl.
    + constructor.
    + rewrite filter_cons. destruct (decide (kept U row = true)) as [Hk|Hk].
      * destruct (Hrow row Hk) as (inc & Hinc & Ha).
        rewrite (loop_body_kept U (λ row, Ok (extract_id U row))
                   (parse_row U tag_str) [] row inc Hk Hinc). simpl.
        by constructor.
      * apply not_true_is_false in Hk.
        by rewrite (loop_body_not_kept U _ _ [] row Hk).
Qed.

Lemma kept_row_one_record_witness :
  kept latin1 fila_abierta = true
  ∧ ∃ inc,
      loop_body latin1 (λ row, Ok (extract_id latin1 row)) (parse_row latin1 decode)
        [registro_accidente] fila_abierta = [registro_accidente] ++ [inc]
      ∧ activa inc = is_None (fecha_fin inc).
Proof.
  assert (H : kept latin1 fila_abierta = true) by (vm_compute; reflexivity).
  split; [exact H|].
  exact (proj1 (kept_row_one_record latin1 decode) [registro_accidente] fila_abierta H).
Defined.

(** ** Failure policy *)

(** C7 as stated fails: the page goes through the HTML parser before the
    loop, outside its [try], and on a page the parser rejects
    [parse_incidencias] raises the parser's exception. *)
Lemma parser_exception_escapes :
  parser_muestra pagina_rechazada = Raise ParserRejectedMarkup
  ∧ parse_incidencias latin1 decode parser_muestra pagina_rechazada
    = Raise ParserRejectedMarkup
  ∧ ¬ ∃ incidencias,
        parse_incidencias latin1 decode parser_muestra pagina_rechazada
        = Ok incidencias.
Proof.
  assert (H : parse_incidencias latin1 decode parser_muestra pagina_rechazada
              = Raise ParserRejectedMarkup) by (vm_compute; reflexivity).
  split; [vm_compute; reflexivity|]. split; [exact H|].
  intros [incidencias Hi]. rewrite H in Hi. discriminate Hi.
Qed.

(** C7, amended. An exception of the HTML parser passes through
    [parse_incidencias]. On every document the parser accepts, extraction
    returns a list of records. Each row adds to the output on its own,
    whatever the other rows do: nothing when it has fewer than six cells,
    nothing when the [try] block raises on it, nothing when it does not
    show the category phrase; so a document without a matching row gives
    the empty list. *)
Theorem extraction_skips_bad_rows U tag_str BeautifulSoup :
  (∀ html e,
     BeautifulSoup html = Raise e →
     parse_incidencias U tag_str BeautifulSoup html = Raise e)
  ∧ (∀ html soup,
       BeautifulSoup html = Ok soup →
       parse_incidencias U tag_str BeautifulSoup html
       = Ok (flat_map (loop_body U (λ row, Ok (extract_id U row))
                         (parse_row U tag_str) [])
               (find_all (lit "tr") soup)))
  ∧ (∀ extract parse rows,
       loop U extract parse rows = flat_map (loop_body U extract parse []) rows)
  ∧ (∀ extract parse acc row,
       (length (find_all (lit "td") row) < 6)%nat →
       loop_body U extract parse acc row = acc)
  ∧ (∀ extract parse acc row e,
       try_block extract parse row = Raise e →
       loop_body U extract parse acc row = acc)
  ∧ (∀ html soup,
       BeautifulSoup html = Ok soup →
       Forall (λ row, contains OBSTACULO_FIJO (upper U (get_text row)) = false)
              (find_all (lit "tr") soup) →
       parse_incidencias U tag_str BeautifulSoup html = Ok []).
Proof.
  split; [by intros html e H; unfold parse_incidencias; rewrite H|].
  split.
  { intros html soup H. unfold parse_incidencias, parse_soup. rewrite H.
    cbn [mbind result_bind mret result_ret]. by rewrite loop_flat_map. }
  split; [apply loop_flat_map|].
  split; [intros; by apply loop_body_short|].
  split; [intros; by eapply loop_body_raise|].
  intros html soup H Hall. unfold parse_incidencias, parse_soup. rewrite H.
  cbn [mbind result_bind mret result_ret]. f_equal.
  rewrite loop_flat_map.
  induction Hall as [|row rows Hrow _ IH]; simpl; [done|].
  by rewrite (loop_body_unmarked U _ _ [] row Hrow).
Qed.

Lemma extraction_skips_bad_rows_witness :
  let extract := λ row, Ok (extract_id latin1 row) in
  let documento := tabla [elem "tr" [td [text "RETENCIÓN"]]] in
  let pagina := λ _ : str, Ok documento in
  ((length (find_all (lit "td") fila_corta) < 6)%nat
   ∧ loop_body latin1 extract parse_rejecting [registro_abierta] fila_corta
     = [registro_abierta])
  ∧ (try_block extract parse_rejecting fila_hora_sin_fecha
       = Raise (Exception (lit "bad row"))
     ∧ loop_body latin1 extract parse_rejecting [registro_abierta] fila_hora_sin_fecha
       = [registro_abierta])
  ∧ (Forall (λ row, contains OBSTACULO_FIJO (upper latin1 (get_text row)) = false)
            (find_all (lit "tr") documento)
     ∧ parse_incidencias latin1 decode pagina [] = Ok [])
  ∧ loop latin1 extract parse_rejecting
      [fila_abierta; fila_hora_sin_fecha; fila_corta; fila_accidente]
    = [registro_abierta; registro_accidente].
Proof.
  intros extract documento pagina.
  destruct (extraction_skips_bad_rows latin1 decode pagina)
    as (_ & _ & Hflat & Hshort & Hraise & Hnone).
  assert (H1 : (length (find_all (lit "td") fila_corta) < 6)%nat)
    by (vm_compute; lia).
  assert (H2 : try_block extract parse_rejecting fila_hora_sin_fecha
               = Raise (Exception (lit "bad row"))) by (vm_compute; reflexivity).
  assert (H3 : Forall (λ row, contains OBSTACULO_FIJO (upper latin1 (get_text row)) = false)
                 (find_all (lit "tr") documento))
    by (repeat constructor).
  split; [split; [exact H1 | exact (Hshort extract parse_rejecting _ _ H1)]|].
  split; [split; [exact H2 | exact (Hraise extract parse_rejecting _ _ _ H2)]|].
  split; [split; [exact H3 | exact (Hnone [] documento eq_refl H3)]|].
  rewrite Hflat. vm_compute. reflexivity.
Defined.

End ScraperProps.

(* ===================================================================== *)
(** * Properties of the resolver *)
(* ===================================================================== *)

Module GeocodingProps.
Import Py Float64 Float64Props Geocoding GeocodingSpec MoreSpec.

#[local] Open Scope Q_scope.

(** ** Spaced readings *)

Lemma spaced_snoc ts t :
  spaced ts → Forall (λ t0, t0 + 1 <= t) ts → spaced (ts ++ [t]).
Proof.
  intros Hsp Hall i t1 t2 H1 H2.
  destruct (decide (S i < length ts)%nat) as [Hlt|Hge].
  - rewrite lookup_app_l in H1 by lia. rewrite lookup_app_l in H2 by lia.
    by eapply Hsp.
  - assert (Hi : (S i = length ts)%nat).
    { apply lookup_lt_Some in H2. rewrite length_app in H2. simpl in H2. lia. }
    rewrite lookup_app_l in H1 by lia.
    rewrite lookup_app_r in H2 by lia.
    replace (S i - length ts)%nat with 0%nat in H2 by lia.
    injection H2 as <-.
    rewrite Forall_forall in Hall. apply Hall.
    by eapply list_elem_of_lookup_2.
Qed.


Lemma extends_same w w' :
  clock w' = clock w → sent w' = sent w → extends w w'.
Proof.
  intros Hc Hs. split; [rewrite Hc; lra|].
  exists []. by rewrite Hs, app_nil_r.
Qed.

Lemma extends_refl w : extends w w.
Proof. by apply extends_same. Qed.

Lemma extends_trans w1 w2 w3 : extends w1 w2 → extends w2 w3 → extends w1 w3.
Proof.
  intros [H12 (n1 & E1 & F1)] [H23 (n2 & E2 & F2)].
  split; [lra|]. exists (n1 ++ n2). split.
  - by rewrite E2, E1, app_assoc.
  - apply Forall_app. split.
    + eapply Forall_impl; [exact F1|]. simpl. intros p [? ?]. split; lra.
    + eapply Forall_impl; [exact F2|]. simpl. intros p [? ?]. split; lra.
Qed.


Section Resolver.

Variable net : Network.

(** ** One lookup *)

Lemma nominatim_hit q w r :
  _geocode_cache w !! q = Some r →
  geocodificar_nominatim net q w = (r, (note q w).2).
Proof.
  intros H. unfold geocodificar_nominatim, bind, note. simpl. by rewrite H.
Qed.

Lemma nominatim_miss q w :
  _geocode_cache w !! q = None →
  geocodificar_nominatim net q w
  = (match respond net (length (sent w)) q with
     | Found lat lon => Some (lat, lon)
     | _ => None
     end,
     {| _geocode_cache :=
          match respond net (length (sent w)) q with
          | Found lat lon => <[q := Some (lat, lon)]> (_geocode_cache w)
          | Empty => <[q := None]> (_geocode_cache w)
          | Failed => _geocode_cache w
          end;
        _last_request_time := round64 (release_time net w);
        clock := release_time net w + latency net (length (sent w));
        sent := sent w ++ [(release_time net w, q)];
        asked := asked w ++ [q] |}).
Proof.
  intros H.
  unfold geocodificar_nominatim, bind, note, _rate_limit, bind, time_time,
    release_time, requests_get, set_last_request_time, set_cache, time_sleep, ret.
  simpl. rewrite H. simpl.
  destruct (Qle_bool 1 (fsub (round64 (clock w)) (_last_request_time w))); simpl;
    by destruct (respond net (length (sent w)) q).
Qed.

(** Waiting does not take the clock back. *)
Lemma release_after_clock w :
  well_behaved net → clock w <= release_time net w.
Proof.
  intros Hnet. destruct (Hnet (length (sent w))) as [_ Hos].
  unfold release_time. cbv zeta.
  set (elapsed := fsub (round64 (clock w)) (_last_request_time w)).
  destruct (Qle_bool 1 elapsed) eqn:E; simpl; [lra|].
  assert (Hlt : elapsed < 1).
  { apply Qnot_le_lt. intros Hc. apply Qle_bool_iff in Hc. congruence. }
  assert (0 <= fsub 1 elapsed) by (apply round64_nonneg; lra).
  lra.
Qed.

(** On a clock on which the throttle computes exactly, it releases no
    earlier than a second after its timestamp, at a reading on the grid. *)
Lemma release_time_exact k w :
  well_behaved net → (k ≤ 52)%nat → ticks k net → on_grid k w →
  release_time net w < horizon k →
  clock w <= release_time net w
  ∧ _last_request_time w + 1 <= release_time net w
  ∧ dyadic k (release_time net w)
  ∧ round64 (release_time net w) == release_time net w.
Proof.
  intros Hnet Hk Htk (Hdc & Hdl & Hl0 & Hlc) Hh.
  pose proof (release_after_clock w Hnet) as Hclk.
  destruct (Hnet (length (sent w))) as [_ Hos].
  destruct (Htk (length (sent w))) as [_ Hdo].
  pose proof (horizon_ge_2 k Hk) as Hh2.
  assert (Hc : round64 (clock w) == clock w)
    by (apply (grid_exact k); [done|done|lra|lra]).
  assert (He : fsub (round64 (clock w)) (_last_request_time w)
               == clock w - _last_request_time w).
  { unfold fsub.
    rewrite (round64_comp _ (clock w - _last_request_time w)) by (by rewrite Hc).
    apply (grid_exact k); [done|by apply dyadic_minus|lra|lra]. }
  assert (Hrel : release_time net w
                 == if Qle_bool 1 (clock w - _last_request_time w)
                    then clock w
                    else _last_request_time w + 1 + oversleep net (length (sent w))).
  { unfold release_time. cbv zeta.
    set (elapsed := fsub (round64 (clock w)) (_last_request_time w)) in *.
    assert (Hb : Qle_bool 1 elapsed = Qle_bool 1 (clock w - _last_request_time w)).
    { destruct (Qle_bool 1 elapsed) eqn:E1;
        destruct (Qle_bool 1 (clock w - _last_request_time w)) eqn:E2; try done.
      - apply Qle_bool_iff in E1. rewrite He in E1. apply Qle_bool_iff in E1.
        congruence.
      - apply Qle_bool_iff in E2. rewrite <- He in E2. apply Qle_bool_iff in E2.
        congruence. }
    rewrite Hb.
    destruct (Qle_bool 1 (clock w - _last_request_time w)) eqn:E; simpl;
      [reflexivity|].
    assert (Hlt : clock w - _last_request_time w < 1).
    { apply Qnot_le_lt. intros H. apply Qle_bool_iff in H. congruence. }
    assert (Hd : fsub 1 elapsed == 1 - (clock w - _last_request_time w)).
    { unfold fsub.
      rewrite (round64_comp _ (1 - (clock w - _last_request_time w)))
        by (by rewrite He).
      apply (grid_exact k); [done| |lra|lra].
      apply dyadic_minus; [apply dyadic_1|by apply dyadic_minus]. }
    rewrite Hd. ring. }
  assert (Hb : _last_request_time w + 1 <= release_time net w).
  { rewrite Hrel.
    destruct (Qle_bool 1 (clock w - _last_request_time w)) eqn:E.
    - apply Qle_bool_iff in E. lra.
    - lra. }
  assert (Hdr : dyadic k (release_time net w)).
  { apply (dyadic_comp k _ _ (Qeq_sym _ _ Hrel)).
    destruct (Qle_bool 1 (clock w - _last_request_time w)); [done|].
    repeat apply dyadic_plus; try done. apply dyadic_1. }
  split; [done|]. split; [done|]. split; [done|].
  apply (grid_exact k); [done|done|lra|done].
Qed.

(** ** The cascade, level by level *)

Lemma geocodificar_baliza_cascade carretera pk provincia poblacion comunidad :
  geocodificar_baliza net carretera pk provincia poblacion comunidad
  = cascade net (estrategias carretera pk provincia poblacion).
Proof.
  unfold geocodificar_baliza, estrategias.
  cbv beta iota zeta delta [cascade applies query label origin].
  reflexivity.
Qed.

Lemma cascade_cons lv rest w :
  cascade net (lv :: rest) w
  = if applies lv then
      match geocodificar_nominatim net (query lv) w with
      | (Some (lat, lon), w1) =>
          (Some {| latitud := lat; longitud := lon;
                   precision := label lv; fuente := origin lv ++ query lv |}, w1)
      | (None, w1) => cascade net rest w1
      end
    else cascade net rest w.
Proof.
  simpl. unfold attempt, bind, ret. destruct (applies lv); [|done].
  by destruct (geocodificar_nominatim net (query lv) w) as [[[lat lon]|] w1].
Qed.

(** A relation between worlds that every lookup establishes, and that is
    reflexive and transitive, holds across a cascade and across a sequence
    of resolver calls. *)
Lemma cascade_steps (P : World → World → Prop) :
  (∀ w, P w w) →
  (∀ w1 w2 w3, P w1 w2 → P w2 w3 → P w1 w3) →
  (∀ q w, P w (geocodificar_nominatim net q w).2) →
  ∀ levels w, P w (cascade net levels w).2.
Proof.
  intros Hrefl Htrans Hstep levels.
  induction levels as [|lv rest IH]; intros w; [apply Hrefl|].
  rewrite cascade_cons. destruct (applies lv); [|apply IH].
  pose proof (Hstep (query lv) w) as H1.
  destruct (geocodificar_nominatim net (query lv) w) as [[[lat lon]|] w1];
    simpl in *; [done|].
  eapply Htrans; [exact H1|apply IH].
Qed.

Lemma resolve_all_steps (P : World → World → Prop) :
  (∀ w, P w w) →
  (∀ w1 w2 w3, P w1 w2 → P w2 w3 → P w1 w3) →
  (∀ q w, P w (geocodificar_nominatim net q w).2) →
  ∀ calls w, P w (resolve_all net calls w).
Proof.
  intros Hrefl Htrans Hstep calls.
  induction calls as [|c rest IH]; intros w; simpl; [apply Hrefl|].
  eapply Htrans; [|apply IH].
  unfold resolve. rewrite geocodificar_baliza_cascade.
  by apply cascade_steps.
Qed.

(** ** The throttle *)

Lemma nominatim_clock q w :
  well_behaved net → clock w <= clock (geocodificar_nominatim net q w).2.
Proof.
  intros Hnet. destruct (_geocode_cache w !! q) as [r|] eqn:Hc.
  - rewrite (nominatim_hit _ _ _ Hc). simpl. lra.
  - rewrite (nominatim_miss _ _ Hc). cbn [snd clock].
    pose proof (release_after_clock w Hnet).
    destruct (Hnet (length (sent w))) as [Hlat _]. lra.
Qed.

Lemma keeps_throttle_refl k w : keeps_throttle k w w.
Proof. split; [lra|]. intros H G _. split; [done|]. split; [done|apply extends_refl]. Qed.

Lemma keeps_throttle_trans k w1 w2 w3 :
  keeps_throttle k w1 w2 → keeps_throttle k w2 w3 → keeps_throttle k w1 w3.
Proof.
  intros [C12 K12] [C23 K23]. split; [lra|]. intros H1 G1 Hh.
  destruct (K12 H1 G1) as (H2 & G2 & E12); [lra|].
  destruct (K23 H2 G2 Hh) as (H3 & G3 & E23).
  split; [done|]. split; [done|]. by eapply extends_trans.
Qed.

Lemma nominatim_throttled k q w :
  well_behaved net → (k ≤ 52)%nat → ticks k net →
  keeps_throttle k w (geocodificar_nominatim net q w).2.
Proof.
  intros Hnet Hk Htk. split; [by apply nominatim_clock|].
  intros (Hlast & Hbefore & Hsp) Hg.
  destruct (_geocode_cache w !! q) as [r|] eqn:Hc.
  - rewrite (nominatim_hit _ _ _ Hc). simpl. intros _.
    split; [done|]. split; [done|]. by apply extends_same.
  - rewrite (nominatim_miss _ _ Hc). cbn [snd clock]. intros Hh.
    destruct (Hnet (length (sent w))) as [Hlat _].
    destruct (Htk (length (sent w))) as [Hdl _].
    destruct (release_time_exact k w Hnet Hk Htk Hg) as (Hclk & Hrel & Hdr & Hr);
      [lra|].
    destruct Hg as (_ & _ & Hl0 & _).
    split; [split; [|split]|split; [split; [|split; [|split]]|split]]; simpl.
    + lra.
    + unfold times. simpl. rewrite fmap_app. apply Forall_app. split.
      * eapply Forall_impl; [exact Hbefore|]. simpl. intros t Ht. lra.
      * apply Forall_singleton. cbn [fst]. lra.
    + unfold times. simpl. rewrite fmap_app. cbn [fmap list_fmap fst].
      apply spaced_snoc; [done|].
      eapply Forall_impl; [exact Hbefore|]. simpl. intros t Ht. lra.
    + by apply dyadic_plus.
    + by apply (dyadic_comp k _ _ (Qeq_sym _ _ Hr)).
    + lra.
    + lra.
    + lra.
    + eexists. split; [done|]. apply Forall_singleton. simpl. split; lra.
Qed.

Lemma cascade_throttled k levels w :
  well_behaved net → (k ≤ 52)%nat → ticks k net →
  keeps_throttle k w (cascade net levels w).2.
Proof.
  intros Hnet Hk Htk. apply (cascade_steps (keeps_throttle k)).
  - apply keeps_throttle_refl.
  - apply keeps_throttle_trans.
  - intros q w0. by apply nominatim_throttled.
Qed.



(** ** The ghost history *)

Lemma nominatim_asked q w :
  asked (geocodificar_nominatim net q w).2 = asked w ++ [q].
Proof.
  destruct (_geocode_cache w !! q) as [r|] eqn:Hc.
  - by rewrite (nominatim_hit _ _ _ Hc).
  - by rewrite (nominatim_miss _ _ Hc).
Qed.

(** The queries a cascade hands over are, in order, those of its
    applicable levels, up to the first that succeeds. *)
Lemma cascade_asked levels w :
  ∃ attempted,
    asked (cascade net levels w).2 = asked w ++ attempted
    ∧ attempted `prefix_of` applicable levels
    ∧ (applicable levels ≠ [] → attempted ≠ []).
Proof.
  revert w. induction levels as [|lv rest IH]; intros w.
  - exists []. by rewrite app_nil_r.
  - rewrite cascade_cons. unfold applicable. rewrite filter_cons.
    destruct (applies lv) eqn:Ha.
    + rewrite decide_True by done. rewrite fmap_cons.
      pose proof (nominatim_asked (query lv) w) as Hq.
      destruct (geocodificar_nominatim net (query lv) w) as [[[lat lon]|] w1];
        simpl in Hq |- *.
      * exists [query lv]. split; [done|]. split; [|done].
        by apply prefix_cons, prefix_nil.
      * destruct (IH w1) as (att & E & Hpre & _).
        exists (query lv :: att). rewrite E, Hq, <- app_assoc.
        split; [done|]. split; [|done]. by apply prefix_cons.
    + rewrite decide_False by done. apply IH.
Qed.

(** A cascade that returns nothing went through all its applicable
    levels. *)
Lemma cascade_none_asked levels w :
  (cascade net levels w).1 = None →
  asked (cascade net levels w).2 = asked w ++ applicable levels.
Proof.
  revert w. induction levels as [|lv rest IH]; intros w.
  - intros _. by rewrite app_nil_r.
  - rewrite cascade_cons. unfold applicable. rewrite filter_cons.
    destruct (applies lv) eqn:Ha.
    + rewrite decide_True by done. rewrite fmap_cons.
      pose proof (nominatim_asked (query lv) w) as Hq.
      destruct (geocodificar_nominatim net (query lv) w) as [[[lat lon]|] w1];
        simpl in Hq |- *; [discriminate|].
      intros Hn. rewrite (IH w1 Hn), Hq, <- app_assoc. done.
    + rewrite decide_False by done. apply IH.
Qed.

(** A cascade sends at most one request per level. *)
Lemma nominatim_sent_bound q w :
  (length (sent (geocodificar_nominatim net q w).2) ≤ length (sent w) + 1)%nat.
Proof.
  destruct (_geocode_cache w !! q) as [r|] eqn:Hc.
  - rewrite (nominatim_hit _ _ _ Hc). simpl. lia.
  - rewrite (nominatim_miss _ _ Hc). simpl. rewrite length_app. simpl. lia.
Qed.

Lemma cascade_sent_bound levels w :
  (length (sent (cascade net levels w).2) ≤ length (sent w) + length levels)%nat.
Proof.
  revert w. induction levels as [|lv rest IH]; intros w; [simpl; lia|].
  rewrite cascade_cons. destruct (applies lv).
  - pose proof (nominatim_sent_bound (query lv) w) as Hb.
    destruct (geocodificar_nominatim net (query lv) w) as [[[lat lon]|] w1];
      simpl in *; [lia|].
    specialize (IH w1). lia.
  - specialize (IH w). simpl. lia.
Qed.

End Resolver.

(** The throttle's arithmetic is float arithmetic: at readings where a
    difference of readings is no float, the second of two requests can
    leave less than a second after the first. *)
Example throttle_rounds :
  let w := {| _geocode_cache := ∅; _last_request_time := round64 (5 # 100);
              clock := round64 (35 # 100);
              sent := [(round64 (5 # 100), lit "MADRID, España")]; asked := [] |} in
  throttled w
  ∧ ∃ t, times (geocodificar_nominatim red_madrid (lit "Madrid") w).2
         = [round64 (5 # 100); t]
         ∧ t < round64 (5 # 100) + 1.
Proof.
  intros w. split.
  - split; [vm_compute; discriminate|]. split.
    + apply Forall_singleton. vm_compute. discriminate.
    + intros [|i] t1 t2; [|done]. by intros _ [=].
  - eexists. split; [vm_compute; reflexivity|]. vm_compute. reflexivity.
Qed.



Lemma red_caida_well_behaved : well_behaved red_caida.
Proof. intros i. split; simpl; lra. Defined.



Lemma red_caida_ticks : ticks 22 red_caida.
Proof.
  intros i. split; [exists (2 ^ 19)%Z|exists (2 ^ 16)%Z]; vm_compute; reflexivity.
Defined.

Lemma fresh_on_grid : on_grid 22 (fresh 1000).
Proof.
  split; [exists (1000 * 2 ^ 22)%Z; vm_compute; reflexivity|].
  split; [exists 0%Z; vm_compute; reflexivity|].
  split; vm_compute; discriminate.
Defined.

(** The freshly imported module satisfies the throttle's invariant, and is
    on the grid of the reading at which it was imported. *)
Lemma fresh_module k t :
  0 <= t → dyadic k t → throttled (fresh t) ∧ on_grid k (fresh t).
Proof.
  intros Ht Hd. split.
  - split; [exact Ht|]. split; [constructor|]. by intros i t1 t2 [=].
  - split; [exact Hd|]. split; [apply dyadic_0|]. split; [simpl; lra|exact Ht].
Qed.


(** ** Failed requests *)

(** C10. On a cache miss, what the lookup leaves in the memo cache is
    decided by the outcome of the request: the coordinates of a match, the
    'no match' marker for an empty result, nothing for a request that ended
    in an exception. After such a failure the query is still absent, so the
    next lookup of the same query sends a second request, and on a clock on
    which the throttle computes exactly no earlier than one second after
    the first; after an empty result the next lookup sends nothing and
    leaves clock and throttle alone. *)
Theorem failed_lookup_not_memoized net q w :
  _geocode_cache w !! q = None →
  let first := geocodificar_nominatim net q w in
  let again := geocodificar_nominatim net q first.2 in
  _geocode_cache first.2
    = match respond net (length (sent w)) q with
      | Found lat lon => <[q := Some (lat, lon)]> (_geocode_cache w)
      | Empty => <[q := None]> (_geocode_cache w)
      | Failed => _geocode_cache w
      end
  ∧ (respond net (length (sent w)) q = Failed →
     first.1 = None
     ∧ _geocode_cache first.2 !! q = None
     ∧ ∃ t1 t2,
         sent first.2 = sent w ++ [(t1, q)]
         ∧ sent again.2 = sent w ++ [(t1, q); (t2, q)]
         ∧ (well_behaved net → ∀ k, exact_run k net w again.2 → t1 + 1 <= t2))
  ∧ (respond net (length (sent w)) q = Empty →
     first.1 = None ∧ again.1 = None ∧ untouched first.2 again.2).
Proof.
  intros Hc first again. subst first again.
  rewrite (nominatim_miss net q w Hc). cbn [fst snd _geocode_cache sent].
  split; [done|]. split.
  - intros Hf. rewrite Hf. split; [done|]. split; [done|].
    set (w1 := {| _geocode_cache := _geocode_cache w |}).
    assert (Hc1 : _geocode_cache w1 !! q = None) by done.
    rewrite (nominatim_miss net q w1 Hc1). cbn [snd sent].
    exists (release_time net w), (release_time net w1).
    split; [done|]. split; [subst w1; cbn [sent]; by rewrite <- app_assoc|].
    intros Hnet k (Hk & Htk & Hg & Hh). cbn [clock] in Hh.
    destruct (Hnet (length (sent w))) as [Hlat _].
    destruct (Hnet (length (sent w1))) as [Hlat1 _].
    destruct (Htk (length (sent w))) as [Hdl _].
    pose proof (release_after_clock net w1 Hnet) as Hclk1.
    assert (Hcw1 : clock w1 = release_time net w + latency net (length (sent w)))
      by done.
    rewrite Hcw1 in Hclk1.
    destruct (release_time_exact net k w Hnet Hk Htk Hg)
      as (_ & Hrel & Hdr & Hr); [lra|].
    destruct Hg as (_ & _ & Hl0 & _).
    assert (Hg1 : on_grid k w1).
    { subst w1. split; [|split; [|split]]; cbn [clock _last_request_time].
      - by apply dyadic_plus.
      - by apply (dyadic_comp k _ _ (Qeq_sym _ _ Hr)).
      - lra.
      - lra. }
    destruct (release_time_exact net k w1 Hnet Hk Htk Hg1)
      as (_ & Hrel1 & _); [lra|].
    assert (Hlw1 : _last_request_time w1 = round64 (release_time net w)) by done.
    rewrite Hlw1 in Hrel1. lra.
  - intros He. rewrite He. split; [done|].
    set (w1 := {| _geocode_cache := <[q:=None]> (_geocode_cache w) |}).
    assert (Hc1 : _geocode_cache w1 !! q = Some None).
    { subst w1. simpl. apply lookup_insert_eq. }
    rewrite (nominatim_hit net q w1 None Hc1). by repeat split.
Qed.

Lemma failed_lookup_not_memoized_witness :
  let q := lit "MADRID, España" in
  let first := geocodificar_nominatim red_caida q (fresh 1000) in
  let again := geocodificar_nominatim red_caida q first.2 in
  _geocode_cache (fresh 1000) !! q = None
  ∧ respond red_caida (length (sent (fresh 1000))) q = Failed
  ∧ exact_run 22 red_caida (fresh 1000) again.2
  ∧ first.1 = None
  ∧ _geocode_cache first.2 !! q = None
  ∧ ∃ t1 t2,
      sent first.2 = sent (fresh 1000) ++ [(t1, q)]
      ∧ sent again.2 = sent (fresh 1000) ++ [(t1, q); (t2, q)]
      ∧ t1 + 1 <= t2.
Proof.
  intros q first again.
  assert (Hc : _geocode_cache (fresh 1000) !! q = None) by done.
  assert (Hf : respond red_caida (length (sent (fresh 1000))) q = Failed) by done.
  assert (Hex : exact_run 22 red_caida (fresh 1000) again.2).
  { split; [lia|]. split; [exact red_caida_ticks|]. split; [exact fresh_on_grid|].
    vm_compute. reflexivity. }
  destruct (failed_lookup_not_memoized red_caida q (fresh 1000) Hc)
    as (_ & Hfail & _).
  destruct (Hfail Hf) as (H1 & H2 & t1 & t2 & H3 & H4 & H5).
  split; [exact Hc|]. split; [exact Hf|]. split; [exact Hex|].
  split; [exact H1|]. split; [exact H2|].
  exists t1, t2. split; [exact H3|]. split; [exact H4|].
  exact (H5 red_caida_well_behaved 22%nat Hex).
Defined.

(** ** Order of the cascade *)

(** C4. For road 'A-1', marker '23', province 'MADRID' and locality
    'Alcobendas', the first query handed to the lookup is the four-field
    one, whatever the state of the cache and the answers of the service;
    the queries that follow it, if any, are the lower-precision fallbacks
    in their order. *)
Theorem first_query_is_four_field net w :
  ∃ fallbacks,
    asked (geocodificar_baliza net (lit "A-1") (lit "23") (lit "MADRID")
             (lit "Alcobendas") [] w).2
    = asked w ++ lit "A-1 km 23, Alcobendas, MADRID, España" :: fallbacks
    ∧ fallbacks `prefix_of`
        map lit [ "Alcobendas, A-1, MADRID, España";
                  "A-1 kilómetro 23, MADRID, España";
                  "A-1 km 23, España";
                  "Alcobendas, MADRID, España";
                  "carretera A-1, MADRID, España";
                  "MADRID, España" ]%string.
Proof.
  rewrite geocodificar_baliza_cascade.
  destruct (cascade_asked net
              (estrategias (lit "A-1") (lit "23") (lit "MADRID") (lit "Alcobendas")) w)
    as (att & E & Hpre & Hne).
  assert (Happ : applicable
                   (estrategias (lit "A-1") (lit "23") (lit "MADRID") (lit "Alcobendas"))
                 = lit "A-1 km 23, Alcobendas, MADRID, España"
                   :: map lit [ "Alcobendas, A-1, MADRID, España";
                                "A-1 kilómetro 23, MADRID, España";
                                "A-1 km 23, España";
                                "Alcobendas, MADRID, España";
                                "carretera A-1, MADRID, España";
                                "MADRID, España" ]%string)
    by (vm_compute; reflexivity).
  rewrite Happ in Hpre, Hne.
  destruct att as [|a att]; [by destruct Hne|].
  destruct Hpre as [k Hk]. injection Hk as <- Hk.
  exists att. split; [exact E|]. by exists k.
Qed.

(** ** The memo cache *)

Section Memo.

Variable net : Network.

(** The cache only grows, and a lookup never overwrites an entry. *)
Lemma nominatim_cache_grows q w :
  _geocode_cache w ⊆ _geocode_cache (geocodificar_nominatim net q w).2.
Proof.
  destruct (_geocode_cache w !! q) as [r|] eqn:Hc.
  - by rewrite (nominatim_hit _ _ _ _ Hc).
  - rewrite (nominatim_miss _ _ _ Hc). cbn [snd _geocode_cache].
    destruct (respond net (length (sent w)) q); by try apply insert_subseteq.
Qed.

Lemma cascade_cache_grows levels w :
  _geocode_cache w ⊆ _geocode_cache (cascade net levels w).2.
Proof.
  apply (cascade_steps net (λ w w', _geocode_cache w ⊆ _geocode_cache w')).
  - done.
  - intros w1 w2 w3 H12 H23. by etrans.
  - apply nominatim_cache_grows.
Qed.

(** The outcome of a lookup, traced to its source. *)
Lemma nominatim_found q w lat lon :
  (geocodificar_nominatim net q w).1 = Some (lat, lon) →
  _geocode_cache (geocodificar_nominatim net q w).2 !! q = Some (Some (lat, lon))
  ∧ came_from net w q lat lon.
Proof.
  destruct (_geocode_cache w !! q) as [r|] eqn:Hc.
  - rewrite (nominatim_hit _ _ _ _ Hc). simpl. intros ->. split; [done|by left].
  - rewrite (nominatim_miss _ _ _ Hc). cbn [fst snd _geocode_cache].
    destruct (respond net (length (sent w)) q) as [lat' lon'| |] eqn:Hr;
      [|done|done].
    intros [= -> ->]. split; [apply lookup_insert_eq|]. right. eauto.
Qed.

Lemma nominatim_came_from q0 w q lat lon :
  came_from net (geocodificar_nominatim net q0 w).2 q lat lon →
  came_from net w q lat lon.
Proof.
  intros [H|H]; [|by right].
  destruct (_geocode_cache w !! q0) as [r|] eqn:Hc.
  - rewrite (nominatim_hit _ _ _ _ Hc) in H. by left.
  - rewrite (nominatim_miss _ _ _ Hc) in H. cbn [snd _geocode_cache] in H.
    destruct (respond net (length (sent w)) q0) as [lat' lon'| |] eqn:Hr.
    + destruct (decide (q0 = q)) as [->|Hne].
      * rewrite lookup_insert_eq in H. injection H as -> ->. right. eauto.
      * rewrite lookup_insert_ne in H by done. by left.
    + destruct (decide (q0 = q)) as [->|Hne].
      * by rewrite lookup_insert_eq in H.
      * rewrite lookup_insert_ne in H by done. by left.
    + by left.
Qed.

(** When the service raises no exception, a lookup leaves its query
    memoised with the very result it returned. *)
Lemma nominatim_memoised q w :
  never_fails net →
  _geocode_cache (geocodificar_nominatim net q w).2 !! q
  = Some (geocodificar_nominatim net q w).1.
Proof.
  intros Hnf. destruct (_geocode_cache w !! q) as [r|] eqn:Hc.
  - by rewrite (nominatim_hit _ _ _ _ Hc).
  - rewrite (nominatim_miss _ _ _ Hc). cbn [fst snd _geocode_cache].
    pose proof (Hnf (length (sent w)) q) as Hr.
    destruct (respond net (length (sent w)) q); [| |done];
      apply lookup_insert_eq.
Qed.

Lemma untouched_note q w w' : untouched (note q w).2 w' → untouched w w'.
Proof. done. Qed.

(** Replaying a cascade in any world whose cache holds what the first run
    left behind returns the same result and touches nothing. *)
Lemma cascade_replay levels w w2 :
  never_fails net →
  _geocode_cache (cascade net levels w).2 ⊆ _geocode_cache w2 →
  (cascade net levels w2).1 = (cascade net levels w).1
  ∧ untouched w2 (cascade net levels w2).2.
Proof.
  intros Hnf. revert w w2.
  induction levels as [|lv rest IH]; intros w w2 Hsub; [done|].
  rewrite !cascade_cons in *.
  destruct (applies lv); [|by apply IH].
  pose proof (nominatim_memoised (query lv) w Hnf) as Hm.
  destruct (geocodificar_nominatim net (query lv) w) as [r w1].
  cbn [fst snd] in Hm.
  assert (Hhit : _geocode_cache w2 !! query lv = Some r).
  { destruct r as [[lat lon]|]; cbn [snd] in Hsub.
    - by eapply lookup_weaken.
    - eapply lookup_weaken; [exact Hm|].
      etrans; [apply cascade_cache_grows|exact Hsub]. }
  rewrite (nominatim_hit _ _ _ _ Hhit).
  destruct r as [[lat lon]|]; [done|].
  destruct (IH w1 (note (query lv) w2).2 Hsub) as [Hr Hu].
  split; [exact Hr|]. by apply untouched_note in Hu.
Qed.

Lemma sends_once_refl w : sends_once w w.
Proof.
  split; [done|]. exists []. rewrite app_nil_r. split; [done|].
  split; [constructor|]. by intros q ?%elem_of_nil.
Qed.

Lemma sends_once_trans w1 w2 w3 :
  sends_once w1 w2 → sends_once w2 w3 → sends_once w1 w3.
Proof.
  intros [S12 (n1 & E1 & D1 & F1)] [S23 (n2 & E2 & D2 & F2)].
  split; [by etrans|]. exists (n1 ++ n2).
  split; [by rewrite E2, E1, app_assoc|].
  rewrite fmap_app. split.
  - apply NoDup_app. split; [done|]. split; [|done].
    intros q Hq1 Hq2.
    destruct (F1 q Hq1) as [_ [x Hx]]. destruct (F2 q Hq2) as [Hn _]. congruence.
  - intros q [Hq|Hq]%elem_of_app.
    + destruct (F1 q Hq) as [Hn [x Hx]]. split; [done|].
      exists x. by eapply lookup_weaken.
    + destruct (F2 q Hq) as [Hn Hs]. split; [|done].
      by eapply lookup_weaken_None.
Qed.

Lemma nominatim_sends_once q w :
  never_fails net → sends_once w (geocodificar_nominatim net q w).2.
Proof.
  intros Hnf. split; [apply nominatim_cache_grows|].
  pose proof (nominatim_memoised q w Hnf) as Hm.
  destruct (_geocode_cache w !! q) as [r|] eqn:Hc.
  - rewrite (nominatim_hit _ _ _ _ Hc). exists []. simpl. rewrite app_nil_r.
    split; [done|]. split; [constructor|]. by intros q' ?%elem_of_nil.
  - rewrite (nominatim_miss _ _ _ Hc) in *. cbn [fst snd sent] in *.
    eexists. split; [done|]. simpl. split.
    + apply NoDup_singleton.
    + intros q' ->%list_elem_of_singleton. split; [done|]. by eexists.
Qed.

Lemma cascade_sends_once levels w :
  never_fails net → sends_once w (cascade net levels w).2.
Proof.
  intros Hnf. apply (cascade_steps net sends_once).
  - apply sends_once_refl.
  - apply sends_once_trans.
  - intros q w0. by apply nominatim_sends_once.
Qed.

(** A successful cascade, traced to the level that succeeded. *)
Lemma cascade_success levels w c :
  (cascade net levels w).1 = Some c →
  ∃ lv,
    lv ∈ levels ∧ applies lv = true
    ∧ precision c = label lv
    ∧ fuente c = origin lv ++ query lv
    ∧ last (asked (cascade net levels w).2) = Some (query lv)
    ∧ _geocode_cache (cascade net levels w).2 !! query lv
      = Some (Some (latitud c, longitud c))
    ∧ came_from net w (query lv) (latitud c) (longitud c).
Proof.
  revert w. induction levels as [|lv rest IH]; intros w; [done|].
  rewrite cascade_cons. destruct (applies lv) eqn:Ha.
  - pose proof (nominatim_found (query lv) w) as Hf.
    pose proof (nominatim_asked net (query lv) w) as Hq.
    pose proof (nominatim_came_from (query lv) w) as Hcf.
    destruct (geocodificar_nominatim net (query lv) w) as [[[lat lon]|] w1];
      cbn [fst snd] in *.
    + intros [= <-]. destruct (Hf lat lon eq_refl) as [Hc Hfrom].
      exists lv. cbn [precision fuente latitud longitud].
      split; [by left|]. split; [done|]. split; [done|]. split; [done|].
      split; [by rewrite Hq, last_snoc|]. done.
    + intros Hc. destruct (IH w1 Hc) as (lv' & Hin & H).
      exists lv'. split; [by right|]. destruct H as (?&?&?&?&?&?).
      repeat (split; [done|]). by apply Hcf.
  - intros Hc. destruct (IH w Hc) as (lv' & Hin & H).
    exists lv'. split; [by right|done].
Qed.

(** ** Runs without a failed request *)

Lemma nominatim_sent_prefix q w :
  sent w `prefix_of` sent (geocodificar_nominatim net q w).2.
Proof.
  destruct (_geocode_cache w !! q) as [r|] eqn:Hc.
  - by rewrite (nominatim_hit _ _ _ _ Hc).
  - rewrite (nominatim_miss _ _ _ Hc). cbn [snd sent]. by apply prefix_app_r.
Qed.

Lemma cascade_sent_prefix levels w :
  sent w `prefix_of` sent (cascade net levels w).2.
Proof.
  apply (cascade_steps net (λ w w', sent w `prefix_of` sent w')).
  - done.
  - intros w1 w2 w3 H12 H23. by etrans.
  - apply nominatim_sent_prefix.
Qed.

Lemma no_failure_later w w1 w' :
  sent w `prefix_of` sent w1 → no_failure net w w' → no_failure net w1 w'.
Proof.
  intros Hp Hnf i t q Hi. apply Hnf. apply prefix_length in Hp. lia.
Qed.

(** A lookup whose request, if it sent one, did not fail leaves its query
    memoised with the very result it returned. *)
Lemma nominatim_memoised_run q w w' :
  sent (geocodificar_nominatim net q w).2 `prefix_of` sent w' →
  no_failure net w w' →
  _geocode_cache (geocodificar_nominatim net q w).2 !! q
  = Some (geocodificar_nominatim net q w).1.
Proof.
  intros Hp Hnf. destruct (_geocode_cache w !! q) as [r|] eqn:Hc.
  - by rewrite (nominatim_hit _ _ _ _ Hc).
  - rewrite (nominatim_miss _ _ _ Hc) in *. cbn [fst snd _geocode_cache sent] in *.
    assert (Hr : respond net (length (sent w)) q ≠ Failed).
    { apply (Hnf (length (sent w)) (release_time net w) q); [done|].
      eapply prefix_lookup_Some; [|exact Hp].
      by rewrite lookup_app_r, Nat.sub_diag by lia. }
    destruct (respond net (length (sent w)) q); [| |done];
      apply lookup_insert_eq.
Qed.

Lemma nominatim_sends_once_run q w w' :
  sent (geocodificar_nominatim net q w).2 `prefix_of` sent w' →
  no_failure net w w' →
  sends_once w (geocodificar_nominatim net q w).2.
Proof.
  intros Hp Hnf. split; [apply nominatim_cache_grows|].
  pose proof (nominatim_memoised_run q w w' Hp Hnf) as Hm.
  destruct (_geocode_cache w !! q) as [r|] eqn:Hc.
  - rewrite (nominatim_hit _ _ _ _ Hc). exists []. simpl. rewrite app_nil_r.
    split; [done|]. split; [constructor|]. by intros q' ?%elem_of_nil.
  - rewrite (nominatim_miss _ _ _ Hc) in *. cbn [fst snd sent] in *.
    eexists. split; [done|]. simpl. split.
    + apply NoDup_singleton.
    + intros q' ->%list_elem_of_singleton. split; [done|]. by eexists.
Qed.

Lemma cascade_sends_once_run levels w w' :
  sent (cascade net levels w).2 `prefix_of` sent w' →
  no_failure net w w' →
  sends_once w (cascade net levels w).2.
Proof.
  revert w. induction levels as [|lv rest IH]; intros w Hp Hnf;
    [apply sends_once_refl|].
  rewrite cascade_cons in *. destruct (applies lv); [|by apply IH].
  pose proof (nominatim_sent_prefix (query lv) w) as Hp1.
  pose proof (nominatim_sends_once_run (query lv) w w') as H1.
  destruct (geocodificar_nominatim net (query lv) w) as [[[lat lon]|] w1];
    cbn [snd] in *; [by apply H1|].
  eapply sends_once_trans.
  - apply H1; [|done]. etrans; [apply cascade_sent_prefix|exact Hp].
  - apply IH; [done|]. by eapply no_failure_later.
Qed.

(** Replaying a cascade, against any service, in any world whose cache
    holds what a first run without a failed request left behind returns
    the same result and touches nothing. *)
Lemma cascade_replay_run net' levels w w' w2 :
  sent (cascade net levels w).2 `prefix_of` sent w' →
  no_failure net w w' →
  _geocode_cache (cascade net levels w).2 ⊆ _geocode_cache w2 →
  (cascade net' levels w2).1 = (cascade net levels w).1
  ∧ untouched w2 (cascade net' levels w2).2.
Proof.
  revert w w2.
  induction levels as [|lv rest IH]; intros w w2 Hp Hnf Hsub; [done|].
  rewrite !cascade_cons in *.
  destruct (applies lv); [|by apply IH].
  pose proof (nominatim_sent_prefix (query lv) w) as Hp1.
  pose proof (nominatim_memoised_run (query lv) w w') as Hm.
  destruct (geocodificar_nominatim net (query lv) w) as [r w1].
  cbn [fst snd] in Hm, Hp1.
  assert (Hm1 : _geocode_cache w1 !! query lv = Some r).
  { apply Hm; [|done]. destruct r as [[lat lon]|]; cbn [snd] in Hp; [done|].
    etrans; [apply cascade_sent_prefix|exact Hp]. }
  assert (Hhit : _geocode_cache w2 !! query lv = Some r).
  { destruct r as [[lat lon]|]; cbn [snd] in Hsub.
    - by eapply lookup_weaken.
    - eapply lookup_weaken; [exact Hm1|].
      etrans; [apply cascade_cache_grows|exact Hsub]. }
  rewrite (nominatim_hit _ _ _ _ Hhit).
  destruct r as [[lat lon]|]; [done|]. cbn [snd] in Hp.
  destruct (IH w1 (note (query lv) w2).2 Hp (no_failure_later _ _ _ Hp1 Hnf) Hsub)
    as [Hr Hu].
  split; [exact Hr|]. by apply untouched_note in Hu.
Qed.

End Memo.

(** The cascade reads the marker and the locality through their
    normalisations only. *)
Lemma estrategias_same_normal carretera pk pk' provincia poblacion poblacion' :
  pk_normalizado pk' = pk_normalizado pk →
  poblacion_limpia poblacion' = poblacion_limpia poblacion →
  estrategias carretera pk' provincia poblacion'
  = estrategias carretera pk provincia poblacion.
Proof.
  unfold estrategias, pk_normalizado, poblacion_limpia. cbv zeta.
  by intros -> ->.
Qed.

Lemma estrategias_labels carretera pk provincia poblacion lv :
  lv ∈ estrategias carretera pk provincia poblacion →
  label lv ∈ precision_labels.
Proof.
  unfold estrategias. intros Hin.
  repeat (apply elem_of_cons in Hin as [->|Hin]);
    [..|by apply elem_of_nil in Hin];
    cbn [label]; apply list_elem_of_In; vm_compute; tauto.
Qed.

(** ** Results *)

(** C6. When [geocodificar_baliza] returns a [Coordenadas], one applicable
    level of the cascade succeeded: its query was the last one looked up,
    the latitude and longitude are the pair memoised for that query, which
    the memo cache already held or the service returned as a match for that
    query; the precision is the label of that level, one of 'muy_alta',
    'alta', 'media', 'baja', 'estimada', and [fuente] names the query. When
    it returns None, every applicable level was tried, down to the
    province alone. *)
Theorem coordinates_only_from_success
    net carretera pk provincia poblacion comunidad w :
  let run := geocodificar_baliza net carretera pk provincia poblacion comunidad w in
  (∀ c,
     run.1 = Some c →
     ∃ lv,
       lv ∈ estrategias carretera pk provincia poblacion
       ∧ applies lv = true
       ∧ precision c = label lv
       ∧ precision c ∈ precision_labels
       ∧ fuente c = origin lv ++ query lv
       ∧ last (asked run.2) = Some (query lv)
       ∧ _geocode_cache run.2 !! query lv = Some (Some (latitud c, longitud c))
       ∧ came_from net w (query lv) (latitud c) (longitud c))
  ∧ (run.1 = None →
     asked run.2
     = asked w ++ applicable (estrategias carretera pk provincia poblacion)).
Proof.
  intros run. subst run. rewrite geocodificar_baliza_cascade. split.
  - intros c Hc.
    destruct (cascade_success net _ _ _ Hc)
      as (lv & Hin & Ha & Hp & Hf & Hl & Hm & Hfrom).
    exists lv. repeat (split; [done|]).
    split; [|done]. rewrite Hp. by eapply estrategias_labels.
  - apply cascade_none_asked.
Qed.

Lemma coordinates_only_from_success_witness :
  let run := geocodificar_baliza red_madrid (lit "A-1") (lit "23") (lit "MADRID")
               (lit "Alcobendas") [] (fresh 1000) in
  run.1 = Some alcobendas
  ∧ ∃ lv,
      lv ∈ estrategias (lit "A-1") (lit "23") (lit "MADRID") (lit "Alcobendas")
      ∧ applies lv = true
      ∧ precision alcobendas = label lv
      ∧ precision alcobendas ∈ precision_labels
      ∧ fuente alcobendas = origin lv ++ query lv
      ∧ last (asked run.2) = Some (query lv)
      ∧ _geocode_cache run.2 !! query lv
        = Some (Some (latitud alcobendas, longitud alcobendas))
      ∧ came_from red_madrid (fresh 1000) (query lv)
          (latitud alcobendas) (longitud alcobendas).
Proof.
  intros run.
  assert (H : run.1 = Some alcobendas) by (vm_compute; reflexivity).
  split; [exact H|].
  exact (proj1 (coordinates_only_from_success red_madrid (lit "A-1") (lit "23")
                  (lit "MADRID") (lit "Alcobendas") [] (fresh 1000)) alcobendas H).
Defined.

(** ** Memoisation *)

(** C2 as stated fails: against a service that finds nothing, the first of
    two identical calls alone sends the seven queries of the cascade. *)
Lemma cascade_sends_seven_requests :
  let first := resolve red_vacia a1_km23 (fresh 1000) in
  let second := resolve red_vacia a1_km23 first.2 in
  queries second.2
  = map lit [ "A-1 km 23, Alcobendas, MADRID, España";
              "Alcobendas, A-1, MADRID, España";
              "A-1 kilómetro 23, MADRID, España";
              "A-1 km 23, España";
              "Alcobendas, MADRID, España";
              "carretera A-1, MADRID, España";
              "MADRID, España" ]%string
  ∧ length (sent second.2) = 7%nat
  ∧ ¬ (length (sent second.2) ≤ 1)%nat.
Proof.
  intros first second.
  assert (H : length (sent second.2) = 7%nat) by (vm_compute; reflexivity).
  split; [vm_compute; reflexivity|]. split; [exact H|]. rewrite H. lia.
Qed.

(** The proviso of the amended C2 is needed: when every request ends in an
    exception nothing is memoised, and the second of two identical calls
    sends the query of the first again. *)
Example failed_requests_are_repeated :
  let first := resolve red_caida solo_madrid (fresh 1000) in
  let second := resolve red_caida solo_madrid first.2 in
  queries first.2 = [lit "MADRID, España"]
  ∧ queries second.2 = [lit "MADRID, España"; lit "MADRID, España"]
  ∧ _geocode_cache second.2 = ∅.
Proof. intros first second. split; [|split]; vm_compute; reflexivity. Qed.

(** C2, amended. Every query is looked up in the memo cache first: when it
    is there, with coordinates or with the 'no match' marker, the lookup
    returns the memoised value, sends nothing and leaves clock and throttle
    alone. When no request of the first of two resolver calls ends in an
    exception and the second call has the same inputs once marker and
    locality are normalised, the second call returns what the first
    returned and sends nothing, whatever the service would answer by then,
    and over both calls no query string is sent twice; together the two
    calls send at most seven requests, one per level of the cascade. *)
Theorem memo_replay
    net net' carretera pk pk' provincia poblacion poblacion' comunidad comunidad' w :
  (∀ q r w0,
     _geocode_cache w0 !! q = Some r →
     (geocodificar_nominatim net q w0).1 = r
     ∧ untouched w0 (geocodificar_nominatim net q w0).2)
  ∧ (pk_normalizado pk' = pk_normalizado pk →
     poblacion_limpia poblacion' = poblacion_limpia poblacion →
     let first := geocodificar_baliza net carretera pk provincia poblacion comunidad w in
     no_failure net w first.2 →
     let second :=
       geocodificar_baliza net' carretera pk' provincia poblacion' comunidad'
         first.2 in
     second.1 = first.1
     ∧ untouched first.2 second.2
     ∧ ∃ new, sent second.2 = sent w ++ new
              ∧ NoDup new.*2 ∧ (length new ≤ 7)%nat).
Proof.
  split.
  - intros q r w0 Hc. by rewrite (nominatim_hit net q w0 r Hc).
  - intros Hpk Hpob first Hnf second. subst first second.
    rewrite !geocodificar_baliza_cascade in *.
    rewrite (estrategias_same_normal _ _ _ _ _ _ Hpk Hpob).
    set (levels := estrategias carretera pk provincia poblacion) in *.
    destruct (cascade_replay_run net net' levels w (cascade net levels w).2
                (cascade net levels w).2) as [Hr Hu]; [done..|].
    split; [exact Hr|]. split; [exact Hu|].
    destruct (cascade_sends_once_run net levels w (cascade net levels w).2)
      as [_ (new & E & Hnd & _)]; [done..|].
    exists new. destruct Hu as (_ & _ & _ & Hs). rewrite Hs.
    split; [done|]. split; [done|].
    pose proof (cascade_sent_bound net levels w) as Hb.
    rewrite E, length_app in Hb. simpl in Hb. lia.
Qed.

Lemma red_vacia_never_fails : never_fails red_vacia.
Proof. intros i q. discriminate. Defined.

Lemma memo_replay_witness :
  let first := geocodificar_baliza red_vacia (lit "A-1") (lit "23,5") (lit "MADRID")
                 (lit "Alcobendas (Madrid)") [] (fresh 1000) in
  let second := geocodificar_baliza red_madrid (lit "A-1") (lit "23.5") (lit "MADRID")
                  (lit "Alcobendas") (lit "MADRID") first.2 in
  let q := lit "MADRID, España" in
  pk_normalizado (lit "23.5") = pk_normalizado (lit "23,5")
  ∧ poblacion_limpia (lit "Alcobendas") = poblacion_limpia (lit "Alcobendas (Madrid)")
  ∧ no_failure red_vacia (fresh 1000) first.2
  ∧ _geocode_cache first.2 !! q = Some None
  ∧ (geocodificar_nominatim red_vacia q first.2).1 = None
  ∧ untouched first.2 (geocodificar_nominatim red_vacia q first.2).2
  ∧ second.1 = first.1
  ∧ untouched first.2 second.2
  ∧ ∃ new, sent second.2 = sent (fresh 1000) ++ new
           ∧ NoDup new.*2 ∧ (length new ≤ 7)%nat.
Proof.
  intros first second q.
  assert (Hpk : pk_normalizado (lit "23.5") = pk_normalizado (lit "23,5"))
    by (vm_compute; reflexivity).
  assert (Hpob : poblacion_limpia (lit "Alcobendas")
                 = poblacion_limpia (lit "Alcobendas (Madrid)"))
    by (vm_compute; reflexivity).
  assert (Hnf : no_failure red_vacia (fresh 1000) first.2)
    by (intros i t q0 _ _; discriminate).
  assert (Hc : _geocode_cache first.2 !! q = Some None) by (vm_compute; reflexivity).
  destruct (memo_replay red_vacia red_madrid (lit "A-1") (lit "23,5") (lit "23.5")
              (lit "MADRID") (lit "Alcobendas (Madrid)") (lit "Alcobendas")
              [] (lit "MADRID") (fresh 1000)) as [Hhit Hrep].
  destruct (Hhit q None first.2 Hc) as [H1 H2].
  destruct (Hrep Hpk Hpob Hnf) as (H3 & H4 & H5).
  split; [exact Hpk|]. split; [exact Hpob|]. split; [exact Hnf|].
  split; [exact Hc|].
  split; [exact H1|]. split; [exact H2|]. split; [exact H3|].
  split; [exact H4|exact H5].
Defined.

End GeocodingProps.

(* ===================================================================== *)
(** * Further properties of the extractor *)
(* ===================================================================== *)

Module ScraperMore.
Import Py Bs4 Scraper ScraperSpec MoreSpec.

(** ** Strings *)

Lemma span_spec p s :
  Forall (λ c, p c = true) (span p s).1 ∧ s = (span p s).1 ++ (span p s).2.
Proof.
  induction s as [|c s [IH1 IH2]]; simpl; [by split|].
  destruct (p c) eqn:Hp; [|by split].
  destruct (span p s) as [a b]. simpl in *. split; [by constructor|by f_equal].
Qed.

Lemma lstrip_head s c r : lstrip s = c :: r → isspace c = false.
Proof.
  induction s as [|a s IH]; simpl; [done|].
  destruct (isspace a) eqn:Ha; [exact IH|]. by intros [= <- _].
Qed.

Lemma lstrip_snoc s c : isspace c = false → lstrip (s ++ [c]) = lstrip s ++ [c].
Proof.
  intros Hc. induction s as [|a s IH]; simpl; [by rewrite Hc|].
  by destruct (isspace a).
Qed.

Lemma lstrip_suffix s : lstrip s `suffix_of` s.
Proof.
  induction s as [|a s IH]; simpl; [done|].
  destruct (isspace a); [by apply suffix_cons_r|done].
Qed.

Lemma lstrip_fixed s : (∀ c, head s = Some c → isspace c = false) → lstrip s = s.
Proof. destruct s as [|a s]; simpl; [done|]. intros H. by rewrite (H a). Qed.

Lemma rstrip_last s c : last (rstrip s) = Some c → isspace c = false.
Proof.
  unfold rstrip. rewrite last_reverse.
  destruct (lstrip (reverse s)) as [|a r] eqn:E; [done|].
  intros [= <-]. by eapply lstrip_head.
Qed.

Lemma rstrip_cons c s : isspace c = false → ∃ r, rstrip (c :: s) = c :: r.
Proof.
  intros Hc. unfold rstrip. rewrite reverse_cons, lstrip_snoc by done.
  rewrite reverse_app. simpl. eauto.
Qed.

Lemma rstrip_prefix s : rstrip s `prefix_of` s.
Proof.
  unfold rstrip. destruct (lstrip_suffix (reverse s)) as [k Hk].
  exists (reverse k). apply (inj reverse).
  by rewrite reverse_app, !reverse_involutive.
Qed.

Lemma rstrip_fixed s : (∀ c, last s = Some c → isspace c = false) → rstrip s = s.
Proof.
  intros H. unfold rstrip. rewrite lstrip_fixed; [apply reverse_involutive|].
  intros c Hc. apply H. by rewrite <- head_reverse.
Qed.

(** [strip] leaves no whitespace at either end, keeps a piece of its
    argument, and has nothing to do on its own results. *)
Lemma strip_head s c : head (strip s) = Some c → isspace c = false.
Proof.
  unfold strip. destruct (lstrip s) as [|a r] eqn:E; [done|].
  pose proof (lstrip_head _ _ _ E) as Ha.
  destruct (rstrip_cons a r Ha) as [r' ->]. by intros [= <-].
Qed.

Lemma strip_last s c : last (strip s) = Some c → isspace c = false.
Proof. apply rstrip_last. Qed.

Lemma strip_sublist s : strip s `sublist_of` s.
Proof.
  unfold strip.
  destruct (rstrip_prefix (lstrip s)) as [k1 H1].
  destruct (lstrip_suffix s) as [k2 H2].
  rewrite H2 at 2. rewrite H1 at 2.
  by apply sublist_inserts_l, sublist_inserts_r.
Qed.

Lemma strip_fixed s :
  (∀ c, head s = Some c → isspace c = false) →
  (∀ c, last s = Some c → isspace c = false) →
  strip s = s.
Proof. intros Hh Hl. unfold strip. by rewrite lstrip_fixed, rstrip_fixed. Qed.

Lemma strip_idemp s : strip (strip s) = strip s.
Proof. apply strip_fixed; [apply strip_head|apply strip_last]. Qed.

(** [collapse_from] *)
Lemma collapse_from_snoc b s c :
  isspace c = false → collapse_from b (s ++ [c]) = collapse_from b s ++ [c].
Proof.
  intros Hc. revert b. induction s as [|a s IH]; intros b; simpl.
  - by rewrite Hc.
  - destruct (isspace a); [destruct b|]; by rewrite IH.
Qed.

Lemma collapse_from_true_head s c :
  head (collapse_from true s) = Some c → isspace c = false.
Proof.
  induction s as [|a s IH]; simpl; [done|].
  destruct (isspace a) eqn:Ha; [exact IH|]. by intros [= <-].
Qed.

Lemma collapse_from_spaces b s i c :
  collapse_from b s !! i = Some c → isspace c = true →
  c = 32%N ∧ ∀ c', collapse_from b s !! S i = Some c' → isspace c' = false.
Proof.
  revert b i. induction s as [|a s IH]; intros b i; simpl; [done|].
  destruct (isspace a) eqn:Ha.
  - destruct b; [by apply IH|].
    destruct i as [|i]; simpl; [|by apply IH].
    intros [= <-] _. split; [done|]. intros c'.
    rewrite <- head_lookup. apply collapse_from_true_head.
  - destruct i as [|i]; simpl; [|by apply IH].
    intros [= <-] Hc. congruence.
Qed.

Lemma collapse_ws_normal s :
  (∀ c, head s = Some c → isspace c = false) →
  (∀ c, last s = Some c → isspace c = false) →
  ws_normal (collapse_ws s).
Proof.
  intros Hh Hl. unfold collapse_ws. split; [|split].
  - destruct s as [|a s]; simpl; [done|].
    rewrite (Hh a eq_refl). intros c [= <-]. by apply Hh.
  - destruct s as [|a s _] using rev_ind; [done|].
    assert (Ha : isspace a = false) by (apply Hl; by rewrite last_snoc).
    rewrite collapse_from_snoc, last_snoc by done. by intros c [= <-].
  - apply collapse_from_spaces.
Qed.

(** [s.replace(a, b)] for one-character [a] and [b] *)
Lemma replace_char a b s :
  replace [a] [b] s = map (λ c, if (c =? a)%N then b else c) s.
Proof.
  unfold replace. induction s as [|c s IH]; simpl; [done|].
  unfold startswith. simpl. rewrite N.eqb_sym.
  destruct (c =? a)%N; simpl; by rewrite IH.
Qed.

(** ** Query builder *)

Lemma comunidades_ids_digits :
  map_Forall (λ _ v, truthy v = true ∧ Forall (λ c, ascii_digit c = true) v)
             COMUNIDADES_IDS.
Proof. refine (bool_decide_unpack _ _). vm_compute. exact I. Qed.

Lemma provincias_ids_digits :
  map_Forall (λ _ v, truthy v = true ∧ Forall (λ c, ascii_digit c = true) v)
             PROVINCIAS_IDS.
Proof. refine (bool_decide_unpack _ _). vm_compute. exact I. Qed.

Lemma regions_have_ids :
  map_Forall (λ _ v, is_Some (COMUNIDADES_IDS !! v)) PROVINCIAS_COMUNIDADES.
Proof. refine (bool_decide_unpack _ _). vm_compute. exact I. Qed.

Lemma provinces_have_ids :
  map_Forall (λ k _, is_Some (PROVINCIAS_IDS !! k)) PROVINCIAS_COMUNIDADES.
Proof. refine (bool_decide_unpack _ _). vm_compute. exact I. Qed.

Lemma desconocida_has_no_id : COMUNIDADES_IDS !! DESCONOCIDA = None.
Proof. vm_compute. reflexivity. Qed.

Lemma ca_id_digits U comunidad :
  Forall (λ c, ascii_digit c = true) (ca_id U comunidad).
Proof.
  unfold ca_id. destruct comunidad as [c|]; [|constructor].
  destruct (truthy c); [|constructor].
  destruct (COMUNIDADES_IDS !! upper U c) as [v|] eqn:E; [|constructor].
  by apply comunidades_ids_digits in E as [_ ?].
Qed.

Lemma prov_id_digits U provincia :
  Forall (λ c, ascii_digit c = true) (prov_id U provincia).
Proof.
  unfold prov_id. destruct provincia as [p|]; [|constructor].
  destruct (truthy p); [|constructor].
  destruct (PROVINCIAS_IDS !! upper U p) as [v|] eqn:E; [|constructor].
  by apply provincias_ids_digits in E as [_ ?].
Qed.

Lemma build_url_parts U comunidad provincia :
  build_url U comunidad provincia
  = DGT_BASE_URL ++ lit "?ca=" ++ ca_id U comunidad ++ lit "&provIci="
    ++ prov_id U provincia
    ++ lit "&caracter=acontecimiento&accion_consultar=Consultar&IncidenciasOTROS=IncidenciasOTROS&ordenacion=fechahora_ini-DESC".
Proof. reflexivity. Qed.

(** Two texts cut at a separator that occurs in neither head are cut at the
    same place. *)
Lemma app_sep_inj {A} (x : A) l1 l2 r1 r2 :
  x ∉ l1 → x ∉ l2 → l1 ++ x :: r1 = l2 ++ x :: r2 → l1 = l2 ∧ r1 = r2.
Proof.
  revert l2. induction l1 as [|a l1 IH]; intros [|b l2] H1 H2; simpl.
  - by intros [= ->].
  - intros [= <- _]. destruct H2. by left.
  - intros [= -> _]. destruct H1. by left.
  - intros [= -> H]. destruct (IH l2) as [-> ->]; [..|done|done].
    + intros ?. apply H1. by right.
    + intros ?. apply H2. by right.
Qed.

Lemma digits_no_amp l : Forall (λ c, ascii_digit c = true) l → 38%N ∉ l.
Proof.
  intros H Hin. rewrite Forall_forall in H. by apply H in Hin.
Qed.

(** X1. Called without arguments, with empty names, or with names that are
    no key of the id tables once uppercased, [build_url] returns the
    unfiltered address [DGT_URL]. *)
Theorem build_url_unfiltered U comunidad provincia :
  (comunidad = None ∨ comunidad = Some []
   ∨ ∃ c, comunidad = Some c ∧ COMUNIDADES_IDS !! upper U c = None) →
  (provincia = None ∨ provincia = Some []
   ∨ ∃ p, provincia = Some p ∧ PROVINCIAS_IDS !! upper U p = None) →
  build_url U comunidad provincia = DGT_URL.
Proof.
  intros Hc Hp. rewrite build_url_parts.
  assert (ca_id U comunidad = []) as ->.
  { unfold ca_id. destruct Hc as [->|[->|(c & -> & Hn)]]; [done|done|].
    cbv beta iota. unfold str in *. rewrite Hn. by destruct (truthy c). }
  assert (prov_id U provincia = []) as ->.
  { unfold prov_id. destruct Hp as [->|[->|(p & -> & Hn)]]; [done|done|].
    cbv beta iota. unfold str in *. rewrite Hn. by destruct (truthy p). }
  vm_compute. reflexivity.
Qed.

Lemma build_url_unfiltered_witness :
  COMUNIDADES_IDS !! upper latin1 (lit "Atlantis") = None
  ∧ build_url latin1 (Some (lit "Atlantis")) None = DGT_URL.
Proof.
  assert (H : COMUNIDADES_IDS !! upper latin1 (lit "Atlantis") = None)
    by (vm_compute; reflexivity).
  split; [exact H|].
  exact (build_url_unfiltered latin1 (Some (lit "Atlantis")) None
           (or_intror (or_intror (ex_intro _ _ (conj eq_refl H))))
           (or_introl eq_refl)).
Defined.

(** X2. The address tells the two filters apart: two calls of [build_url]
    give the same address exactly when they resolve to the same region id
    and the same province id, both of which are strings of decimal digits,
    empty for no filter. *)
Theorem build_url_injective U comunidad provincia comunidad' provincia' :
  (build_url U comunidad provincia = build_url U comunidad' provincia'
   ↔ ca_id U comunidad = ca_id U comunidad'
     ∧ prov_id U provincia = prov_id U provincia')
  ∧ Forall (λ c, ascii_digit c = true) (ca_id U comunidad)
  ∧ Forall (λ c, ascii_digit c = true) (prov_id U provincia).
Proof.
  split; [|split; [apply ca_id_digits|apply prov_id_digits]].
  rewrite !build_url_parts. split; [|by intros [-> ->]].
  intros H. apply app_inv_head in H. apply app_inv_head in H.
  change (lit "&provIci=") with (38%N :: lit "provIci=") in H.
  apply app_sep_inj in H as [Hca H];
    [|apply digits_no_amp, ca_id_digits..].
  split; [done|]. apply app_inv_head in H.
  match type of H with
  | _ ++ lit ?s = _ => set (tail := lit s) in H
  end.
  assert (Ht : ∃ t, tail = 38%N :: t) by (eexists; vm_compute; reflexivity).
  destruct Ht as [t Ht]. rewrite Ht in H.
  by apply app_sep_inj in H as [? _];
    [|apply digits_no_amp, prov_id_digits..].
Qed.

(** X3. The region derived for a record is accepted by [build_url] as a
    region filter exactly when the record's province, uppercased and
    trimmed, is in the province table; the sentinel 'DESCONOCIDA' is not.
    Every province of that table is accepted as a province filter. *)
Theorem region_is_a_filter U provincia :
  (is_Some (COMUNIDADES_IDS !! get_comunidad U provincia)
   ↔ is_Some (PROVINCIAS_COMUNIDADES !! strip (upper U provincia)))
  ∧ (is_Some (PROVINCIAS_COMUNIDADES !! strip (upper U provincia)) →
     is_Some (PROVINCIAS_IDS !! strip (upper U provincia))).
Proof.
  unfold get_comunidad.
  destruct (PROVINCIAS_COMUNIDADES !! strip (upper U provincia)) as [v|] eqn:E;
    cbn [from_option].
  - split.
    + split; [by eauto|]. intros _. by apply regions_have_ids in E.
    + intros _. by apply provinces_have_ids in E.
  - rewrite desconocida_has_no_id. split; [done|]. by intros [? [=]].
Qed.

Lemma region_is_a_filter_witness :
  is_Some (PROVINCIAS_COMUNIDADES !! strip (upper latin1 (lit " Lugo ")))
  ∧ is_Some (PROVINCIAS_IDS !! strip (upper latin1 (lit " Lugo ")))
  ∧ is_Some (COMUNIDADES_IDS !! get_comunidad latin1 (lit " Lugo ")).
Proof.
  assert (H : is_Some (PROVINCIAS_COMUNIDADES !! strip (upper latin1 (lit " Lugo "))))
    by (vm_compute; eauto).
  destruct (region_is_a_filter latin1 (lit " Lugo ")) as [H1 H2].
  split; [exact H|]. split; [exact (H2 H)|exact (proj2 H1 H)].
Defined.

(** ** Identifier *)

Lemma m_inciCodigo_digits U s g :
  m_inciCodigo U s = Some g → g ≠ [] ∧ Forall (λ c, is_digit U c = true) g.
Proof.
  unfold m_inciCodigo. destruct (strip_prefix _ s) as [rest|]; [|done].
  cbn [mbind option_bind].
  pose proof (span_spec (is_digit U) rest) as [Hd _].
  destruct (span (is_digit U) rest) as [ds tl]. cbn [fst] in Hd.
  destruct ds as [|d ds]; [done|]. by intros [= <-].
Qed.

Lemma m_alt_digits U s g :
  m_alt U s = Some g → g ≠ [] ∧ Forall (λ c, is_digit U c = true) g.
Proof.
  unfold m_alt. destruct (strip_prefix _ s) as [rest|]; [|done].
  cbn [mbind option_bind].
  pose proof (span_spec (is_digit U) rest) as [Hd _].
  destruct (span (is_digit U) rest) as [ds tl]. cbn [fst] in Hd.
  destruct ds as [|d ds]; [done|]. cbn [truthy andb].
  destruct (_ || _); [|done]. by intros [= <-].
Qed.

Lemma omap_nil_iff {A B} (f : A → option B) l :
  omap f l = [] ↔ ∀ x, x ∈ l → f x = None.
Proof.
  induction l as [|a l IH]; simpl.
  - split; [by intros _ x ?%elem_of_nil|done].
  - destruct (f a) eqn:Ha.
    + split; [done|]. intros H. specialize (H a (list_elem_of_here _ _)).
      congruence.
    + rewrite IH. split.
      * intros H x [->|?]%elem_of_cons; auto.
      * intros H x ?. apply H. by right.
Qed.

(** X4. The identifier [extract_id] finds is a string of decimal digits
    (as [\d] has them), and it is empty exactly when neither the [onclick]
    of a link of the row carries [inciCodigo=<digits>] nor the [alt] of one
    of its images ends in [/<digits>]. *)
Theorem extract_id_numeric U row :
  Forall (λ c, is_digit U c = true) (extract_id U row)
  ∧ (extract_id U row = [] ↔
     (∀ link, link ∈ find_all (lit "a") row →
        search (m_inciCodigo U) (default [] (get (lit "onclick") link)) = None)
     ∧ (∀ img, img ∈ find_all (lit "img") row →
          search (m_alt U) (default [] (get (lit "alt") img)) = None)).
Proof.
  unfold extract_id. rewrite <- !omap_nil_iff.
  destruct (omap _ (find_all (lit "a") row)) as [|code l] eqn:Ea.
  - destruct (omap _ (find_all (lit "img") row)) as [|code l] eqn:Ei.
    + by split.
    + assert (Hin : code ∈ code :: l) by left.
      rewrite <- Ei in Hin. apply list_elem_of_omap in Hin as (img & _ & Hs).
      apply ScraperProps.search_Some in Hs as [t Ht].
      apply m_alt_digits in Ht as [Hne Hd].
      split; [done|]. split; [done|]. by intros [_ [=]].
  - assert (Hin : code ∈ code :: l) by left.
    rewrite <- Ea in Hin. apply list_elem_of_omap in Hin as (link & _ & Hs).
    apply ScraperProps.search_Some in Hs as [t Ht].
    apply m_inciCodigo_digits in Ht as [Hne Hd].
    split; [done|]. split; [done|]. by intros [[=] _].
Qed.

(** ** Fields of a parsed row *)

Lemma parse_row_fields U tag_str cells row_id inc :
  parse_row U tag_str cells row_id = Ok (Some inc) →
  ∃ cell_desc,
    cells !! 5%nat = Some cell_desc
    ∧ id inc = row_id
    ∧ descripcion inc = collapse_ws (strip (get_text cell_desc))
    ∧ pk inc = default [] (search (m_km U) (descripcion inc))
    ∧ comunidad inc = get_comunidad U (provincia inc)
    ∧ activa inc = is_None (fecha_fin inc)
    ∧ unlocated inc.
Proof.
  unfold parse_row.
  destruct cells as [|c0 [|c1 [|c2 [|c3 [|c4 [|c5 rest]]]]]];
    cbv beta iota zeta delta
      [index lookup list_lookup mbind result_bind mret result_ret].
  1-6: intros H;
       try destruct (match find _ _ with Some _ => _ | None => _ end) in H;
       discriminate H.
  destruct (match find _ c1 with Some _ => _ | None => _ end) as [hf ff].
  intros H; injection H as <-. exists c5. by repeat split.
Qed.

Lemma m_km_chars U s g :
  m_km U s = Some g → g ≠ [] ∧ Forall (λ c, pk_char U c = true) g.
Proof.
  unfold m_km. destruct (strip_prefix_ic U _ s) as [rest|]; [|done].
  cbn [mbind option_bind].
  destruct (span isspace rest) as [ws tl].
  pose proof (span_spec (λ c, is_digit U c || (c =? 46)%N || (c =? 44)%N) tl)
    as [Hd _].
  destruct (span _ tl) as [g' tl']. cbn [fst] in Hd.
  destruct g' as [|d g']; [done|]. by intros [= <-].
Qed.

(** X5. The kilometre marker of a parsed row is made of decimal digits,
    dots and commas only, and is empty exactly when the description has no
    'km <number>'; once the resolver has normalised it, it is made of
    digits and dots only. *)
Theorem pk_shape U tag_str cells row_id inc :
  parse_row U tag_str cells row_id = Ok (Some inc) →
  Forall (λ c, pk_char U c = true) (pk inc)
  ∧ (pk inc = [] ↔ search (m_km U) (descripcion inc) = None)
  ∧ Forall (λ c, is_digit U c = true ∨ c = 46%N) (pk_normalizado (pk inc)).
Proof.
  intros (cell & _ & _ & _ & Hpk & _)%parse_row_fields.
  assert (Hchars : Forall (λ c, pk_char U c = true) (pk inc)
                   ∧ (pk inc = [] ↔ search (m_km U) (descripcion inc) = None)).
  { rewrite Hpk. destruct (search (m_km U) (descripcion inc)) as [g|] eqn:Es;
      cbn [from_option]; [|by split].
    apply ScraperProps.search_Some in Es as [t Ht].
    apply m_km_chars in Ht as [Hne Hd]. split; [done|]. by split. }
  destruct Hchars as [Hc Hiff]. split; [done|]. split; [done|].
  unfold pk_normalizado. destruct (truthy (pk inc)); [|constructor].
  change (lit ",") with [44%N]. change (lit ".") with [46%N].
  rewrite replace_char. apply Forall_fmap.
  eapply Forall_impl; [exact Hc|]. intros c. unfold pk_char, compose.
  destruct (c =? 44)%N eqn:E44; [by right|].
  rewrite orb_false_r. intros [Hd|He%N.eqb_eq]%orb_prop; [by left|by right].
Qed.

Lemma pk_shape_witness :
  parse_row latin1 decode (find_all (lit "td") fila_abierta) (lit "12345")
    = Ok (Some registro_abierta)
  ∧ Forall (λ c, pk_char latin1 c = true) (pk registro_abierta)
  ∧ (pk registro_abierta = []
     ↔ search (m_km latin1) (descripcion registro_abierta) = None)
  ∧ Forall (λ c, is_digit latin1 c = true ∨ c = 46%N)
           (pk_normalizado (pk registro_abierta)).
Proof.
  assert (H : parse_row latin1 decode (find_all (lit "td") fila_abierta) (lit "12345")
              = Ok (Some registro_abierta)) by (vm_compute; reflexivity).
  split; [exact H|].
  exact (pk_shape latin1 decode _ _ _ H).
Defined.

(** X6. The description of a parsed row has its whitespace normalised: it
    neither starts nor ends with whitespace, and every whitespace character
    in it is a single U+0020. *)
Theorem descripcion_ws_normal U tag_str cells row_id inc :
  parse_row U tag_str cells row_id = Ok (Some inc) →
  ws_normal (descripcion inc).
Proof.
  intros (cell & _ & _ & -> & _)%parse_row_fields.
  apply collapse_ws_normal; [apply strip_head|apply strip_last].
Qed.

Lemma descripcion_ws_normal_witness :
  parse_row latin1 decode (find_all (lit "td") fila_abierta) (lit "12345")
    = Ok (Some registro_abierta)
  ∧ ws_normal (descripcion registro_abierta).
Proof.
  assert (H : parse_row latin1 decode (find_all (lit "td") fila_abierta) (lit "12345")
              = Ok (Some registro_abierta)) by (vm_compute; reflexivity).
  split; [exact H|].
  exact (descripcion_ws_normal latin1 decode _ _ _ H).
Defined.

(** ** Extraction as a whole *)

(** The records of the output are the records of the kept rows. *)
Lemma parse_soup_elem U tag_str soup inc :
  inc ∈ parse_soup U tag_str soup ↔
  ∃ row, row ∈ find_all (lit "tr") soup ∧ kept U row = true
         ∧ parse_row U tag_str (find_all (lit "td") row) (extract_id U row)
           = Ok (Some inc).
Proof.
  unfold parse_soup. rewrite ScraperProps.loop_flat_map.
  rewrite list_elem_of_In, in_flat_map. split.
  - intros (row & Hrow%list_elem_of_In & Hinc%list_elem_of_In).
    exists row. split; [done|].
    destruct (kept U row) eqn:Hk.
    + split; [done|].
      destruct (ScraperProps.parse_row_total U tag_str
                  (find_all (lit "td") row) (extract_id U row)) as [inc' Hp].
      { unfold kept in Hk. apply andb_prop in Hk as [_ Hk]. by apply Nat.leb_le. }
      rewrite (ScraperProps.loop_body_kept U (λ row, Ok (extract_id U row))
                 (parse_row U tag_str) [] row inc' Hk Hp) in Hinc.
      apply list_elem_of_singleton in Hinc as ->. done.
    + rewrite (ScraperProps.loop_body_not_kept U _ _ [] row Hk) in Hinc.
      by apply elem_of_nil in Hinc.
  - intros (row & Hrow & Hk & Hp). exists row.
    split; [by apply list_elem_of_In|]. apply list_elem_of_In.
    rewrite (ScraperProps.loop_body_kept U (λ row, Ok (extract_id U row))
               (parse_row U tag_str) [] row inc Hk Hp).
    by left.
Qed.

(** X7. The active records of an extraction are exactly its records
    without an end date, in the order of the page; every record comes out
    of extraction without coordinates, and with the region computed from its
    province. *)
Theorem activas_of_extraction U tag_str soup :
  (∀ inc,
     inc ∈ filtrar_activas (parse_soup U tag_str soup)
     ↔ inc ∈ parse_soup U tag_str soup ∧ fecha_fin inc = None)
  ∧ filtrar_activas (parse_soup U tag_str soup)
      `sublist_of` parse_soup U tag_str soup
  ∧ Forall (λ inc, unlocated inc ∧ comunidad inc = get_comunidad U (provincia inc))
           (parse_soup U tag_str soup).
Proof.
  assert (Hall : ∀ inc, inc ∈ parse_soup U tag_str soup →
            activa inc = is_None (fecha_fin inc) ∧ unlocated inc
            ∧ comunidad inc = get_comunidad U (provincia inc)).
  { intros inc (row & _ & _ & Hp)%parse_soup_elem.
    apply parse_row_fields in Hp as (c & _ & _ & _ & _ & Hc & Ha & Hu).
    exact (conj Ha (conj Hu Hc)). }
  split; [|split].
  - intros inc. unfold filtrar_activas. rewrite list_elem_of_filter. split.
    + intros [Ha Hin]. split; [done|].
      destruct (Hall inc Hin) as [Hact _]. rewrite Hact in Ha.
      by destruct (fecha_fin inc).
    + intros [Hin Hf]. split; [|done].
      destruct (Hall inc Hin) as [-> _]. by rewrite Hf.
  - apply sublist_filter.
  - apply Forall_forall. intros inc Hin.
    destruct (Hall inc Hin) as (_ & Hu & Hc). exact (conj Hu Hc).
Qed.

End ScraperMore.

(* ===================================================================== *)
(** * Further properties of the resolver *)
(* ===================================================================== *)

Module GeocodingMore.
Import Py Geocoding GeocodingSpec MoreSpec.

(** ** Normalised inputs *)

Lemma pk_normalizado_map pk :
  pk_normalizado pk = map (λ c, if (c =? 44)%N then 46%N else c) pk.
Proof.
  unfold pk_normalizado. destruct pk as [|c pk]; [done|].
  cbn [truthy]. change (lit ",") with [44%N]. change (lit ".") with [46%N].
  apply ScraperMore.replace_char.
Qed.

Lemma pk_normalizado_no_comma pk : 44%N ∉ pk_normalizado pk.
Proof.
  rewrite pk_normalizado_map. intros (c & Hc & _)%list_elem_of_fmap.
  by destruct (c =? 44)%N eqn:E; [|apply N.eqb_neq in E].
Qed.

Lemma pk_normalizado_fixed pk : 44%N ∉ pk → pk_normalizado pk = pk.
Proof.
  rewrite pk_normalizado_map. intros Hn.
  induction pk as [|c pk IH]; [done|]. cbn [map].
  rewrite IH by (intros ?; apply Hn; by right).
  destruct (c =? 44)%N eqn:E; [|done].
  apply N.eqb_eq in E as ->. destruct Hn. by left.
Qed.

Lemma pk_normalizado_idemp pk : pk_normalizado (pk_normalizado pk) = pk_normalizado pk.
Proof. apply pk_normalizado_fixed, pk_normalizado_no_comma. Qed.

Lemma split_head_no_sep sep s : sep ∉ split_head sep s.
Proof.
  induction s as [|c s IH]; simpl; [by intros ?%elem_of_nil|].
  destruct (c =? sep)%N eqn:E; [by intros ?%elem_of_nil|].
  apply N.eqb_neq in E. by intros [?|?]%elem_of_cons.
Qed.

Lemma split_head_fixed sep s : sep ∉ s → split_head sep s = s.
Proof.
  induction s as [|c s IH]; simpl; [done|]. intros Hn.
  destruct (c =? sep)%N eqn:E.
  - apply N.eqb_eq in E as ->. destruct Hn. by left.
  - rewrite IH; [done|]. intros ?. apply Hn. by right.
Qed.

Lemma poblacion_limpia_no_paren poblacion : 40%N ∉ poblacion_limpia poblacion.
Proof.
  unfold poblacion_limpia. destruct (truthy poblacion); [|by intros ?%elem_of_nil].
  intros Hin. apply (split_head_no_sep 40 poblacion).
  eapply sublist_subseteq; [apply ScraperMore.strip_sublist|exact Hin].
Qed.

Lemma poblacion_limpia_idemp poblacion :
  poblacion_limpia (poblacion_limpia poblacion) = poblacion_limpia poblacion.
Proof.
  pose proof (poblacion_limpia_no_paren poblacion) as Hn.
  unfold poblacion_limpia at 1.
  destruct (truthy (poblacion_limpia poblacion)) eqn:Ht.
  - rewrite split_head_fixed by done.
    unfold poblacion_limpia in *. destruct (truthy poblacion); [|done].
    apply ScraperMore.strip_idemp.
  - by destruct (poblacion_limpia poblacion).
Qed.

Lemma estrategias_normalised carretera pk provincia poblacion :
  estrategias carretera pk provincia poblacion
  = estrategias carretera (pk_normalizado pk) provincia (poblacion_limpia poblacion).
Proof.
  unfold estrategias.
  change (if truthy (pk_normalizado pk)
          then replace (lit ",") (lit ".") (pk_normalizado pk) else [])
    with (pk_normalizado (pk_normalizado pk)).
  change (if truthy (poblacion_limpia poblacion)
          then strip (split_head 40 (poblacion_limpia poblacion)) else [])
    with (poblacion_limpia (poblacion_limpia poblacion)).
  by rewrite pk_normalizado_idemp, poblacion_limpia_idemp.
Qed.

(** X8. The resolver normalises its inputs itself, and normalising is
    idempotent: a call with the raw marker and the raw locality is the same
    computation as a call with the marker's commas already turned into dots
    and the locality already cut at its first parenthesis and trimmed. The
    normalised marker has no comma and the length of the raw one, and a
    marker without a comma is left as it is; the cleaned locality has no
    opening parenthesis and no whitespace at its ends. *)
Theorem resolver_inputs_normalised net carretera pk provincia poblacion comunidad :
  geocodificar_baliza net carretera pk provincia poblacion comunidad
  = geocodificar_baliza net carretera (pk_normalizado pk) provincia
      (poblacion_limpia poblacion) comunidad
  ∧ (44%N ∉ pk_normalizado pk)
  ∧ length (pk_normalizado pk) = length pk
  ∧ (44%N ∉ pk → pk_normalizado pk = pk)
  ∧ (40%N ∉ poblacion_limpia poblacion)
  ∧ strip (poblacion_limpia poblacion) = poblacion_limpia poblacion.
Proof.
  split; [|split; [|split; [|split; [|split]]]].
  - rewrite !GeocodingProps.geocodificar_baliza_cascade.
    by rewrite estrategias_normalised.
  - apply pk_normalizado_no_comma.
  - by rewrite pk_normalizado_map, length_map.
  - apply pk_normalizado_fixed.
  - apply poblacion_limpia_no_paren.
  - unfold poblacion_limpia. destruct (truthy poblacion); [|done].
    apply ScraperMore.strip_idemp.
Qed.

Lemma resolver_inputs_normalised_witness :
  (44%N ∉ lit "23.5") ∧ pk_normalizado (lit "23.5") = lit "23.5".
Proof.
  assert (H : 44%N ∉ lit "23.5")
    by (refine (bool_decide_unpack _ _); vm_compute; exact I).
  split; [exact H|].
  destruct (resolver_inputs_normalised red_vacia [] (lit "23.5") [] [] [])
    as (_ & _ & _ & Hfix & _).
  exact (Hfix H).
Defined.

(** ** The memo cache over time *)

Lemma resolve_all_cache_grows net calls w :
  _geocode_cache w ⊆ _geocode_cache (resolve_all net calls w).
Proof.
  apply (GeocodingProps.resolve_all_steps net
           (λ w w', _geocode_cache w ⊆ _geocode_cache w')).
  - done.
  - intros w1 w2 w3 H12 H23. by etrans.
  - apply GeocodingProps.nominatim_cache_grows.
Qed.

(** X9. The memo cache never evicts or overwrites: an entry, match or 'no
    match', survives any sequence of resolver calls, and a later lookup of
    its query returns it without sending a request or touching clock and
    throttle, whatever the service would answer by then. *)
Theorem memo_entries_persist net calls w q r :
  _geocode_cache w !! q = Some r →
  let w' := resolve_all net calls w in
  _geocode_cache w' !! q = Some r
  ∧ (geocodificar_nominatim net q w').1 = r
  ∧ untouched w' (geocodificar_nominatim net q w').2.
Proof.
  intros Hq w'.
  assert (Hq' : _geocode_cache w' !! q = Some r).
  { eapply lookup_weaken; [exact Hq|apply resolve_all_cache_grows]. }
  split; [exact Hq'|].
  by rewrite (GeocodingProps.nominatim_hit net q w' r Hq').
Qed.

Lemma memo_entries_persist_witness :
  let w := (geocodificar_nominatim red_vacia (lit "MADRID, España") (fresh 1000)).2 in
  let w' := resolve_all red_madrid [a1_km23; solo_madrid] w in
  _geocode_cache w !! lit "MADRID, España" = Some None
  ∧ _geocode_cache w' !! lit "MADRID, España" = Some None
  ∧ (geocodificar_nominatim red_madrid (lit "MADRID, España") w').1 = None
  ∧ untouched w' (geocodificar_nominatim red_madrid (lit "MADRID, España") w').2.
Proof.
  intros w w'.
  assert (H : _geocode_cache w !! lit "MADRID, España" = Some None)
    by (vm_compute; reflexivity).
  split; [exact H|].
  exact (memo_entries_persist red_madrid [a1_km23; solo_madrid] w _ _ H).
Defined.

(** X10. [limpiar_cache] empties the memo cache and nothing else: clock,
    throttle timestamp and the record of requests stay, so the throttle's
    invariant is kept; the next lookup of any query sends a request, and
    sends it no earlier than the throttle allowed before the cache was
    cleared. *)
Theorem limpiar_cache_forgets net q w :
  let w0 := (limpiar_cache w).2 in
  _geocode_cache w0 = ∅
  ∧ _last_request_time w0 = _last_request_time w
  ∧ clock w0 = clock w
  ∧ sent w0 = sent w
  ∧ (throttled w → throttled w0)
  ∧ sent (geocodificar_nominatim net q w0).2 = sent w ++ [(release_time net w, q)].
Proof.
  intros w0. subst w0. unfold limpiar_cache, set_cache. cbn [snd].
  repeat (split; [done|]).
  rewrite GeocodingProps.nominatim_miss by done. done.
Qed.

(** ** Transport errors *)

Lemma cascade_all_failed net levels w :
  (∀ i q, respond net i q = Failed) →
  _geocode_cache w = ∅ →
  (cascade net levels w).1 = None
  ∧ _geocode_cache (cascade net levels w).2 = ∅
  ∧ queries (cascade net levels w).2 = queries w ++ applicable levels.
Proof.
  intros Hf. revert w. induction levels as [|lv rest IH]; intros w Hw.
  - simpl. by rewrite app_nil_r.
  - rewrite GeocodingProps.cascade_cons. unfold applicable. rewrite filter_cons.
    destruct (applies lv) eqn:Ha.
    + rewrite decide_True by done. rewrite fmap_cons.
      assert (Hc : _geocode_cache w !! query lv = None) by by rewrite Hw.
      rewrite (GeocodingProps.nominatim_miss net _ w Hc), Hf.
      match goal with
      | |- context [cascade net rest ?w1] =>
          destruct (IH w1) as (H1 & H2 & H3); [done|]
      end.
      split; [done|]. split; [done|].
      rewrite H3. unfold queries. cbn [sent]. rewrite fmap_app.
      by rewrite <- app_assoc.
    + rewrite decide_False by done. by apply IH.
Qed.

(** X11. A request that ends in an exception counts as 'no match' and the
    cascade goes on: when every request fails and nothing is memoised, the
    resolver sends the queries of all its applicable levels, in order,
    returns None and memoises nothing. *)
Theorem transport_errors_exhaust_cascade
    net carretera pk provincia poblacion comunidad w :
  (∀ i q, respond net i q = Failed) →
  _geocode_cache w = ∅ →
  let run := geocodificar_baliza net carretera pk provincia poblacion comunidad w in
  run.1 = None
  ∧ _geocode_cache run.2 = ∅
  ∧ queries run.2
    = queries w ++ applicable (estrategias carretera pk provincia poblacion).
Proof.
  intros Hf Hw run. subst run. rewrite GeocodingProps.geocodificar_baliza_cascade.
  by apply cascade_all_failed.
Qed.

Lemma transport_errors_exhaust_cascade_witness :
  let run := geocodificar_baliza red_caida (lit "M-50") (lit "15") (lit "MADRID")
               [] [] (fresh 1000) in
  (∀ i q, respond red_caida i q = Failed)
  ∧ _geocode_cache (fresh 1000) = ∅
  ∧ run.1 = None
  ∧ _geocode_cache run.2 = ∅
  ∧ queries run.2
    = queries (fresh 1000)
      ++ applicable (estrategias (lit "M-50") (lit "15") (lit "MADRID") []).
Proof.
  intros run.
  assert (Hf : ∀ i q, respond red_caida i q = Failed) by done.
  assert (Hw : _geocode_cache (fresh 1000) = ∅) by done.
  split; [exact Hf|]. split; [exact Hw|].
  exact (transport_errors_exhaust_cascade red_caida (lit "M-50") (lit "15")
           (lit "MADRID") [] [] (fresh 1000) Hf Hw).
Defined.

(** ** What goes out *)

Lemma nominatim_queries net q w :
  queries (geocodificar_nominatim net q w).2 = queries w
  ∨ queries (geocodificar_nominatim net q w).2 = queries w ++ [q].
Proof.
  destruct (_geocode_cache w !! q) as [r|] eqn:Hc.
  - left. by rewrite (GeocodingProps.nominatim_hit _ _ _ _ Hc).
  - right. rewrite (GeocodingProps.nominatim_miss _ _ _ Hc).
    unfold queries. cbn [snd sent]. by rewrite fmap_app.
Qed.

Lemma cascade_queries net levels w :
  ∃ new, queries (cascade net levels w).2 = queries w ++ new
         ∧ new `sublist_of` applicable levels.
Proof.
  revert w. induction levels as [|lv rest IH]; intros w.
  - exists []. by rewrite app_nil_r.
  - rewrite GeocodingProps.cascade_cons. unfold applicable. rewrite filter_cons.
    destruct (applies lv) eqn:Ha.
    + rewrite decide_True by done. rewrite fmap_cons.
      pose proof (nominatim_queries net (query lv) w) as Hq.
      destruct (geocodificar_nominatim net (query lv) w) as [[[lat lon]|] w1];
        cbn [snd] in Hq |- *.
      * destruct Hq as [->| ->].
        -- exists []. rewrite app_nil_r. split; [done|apply sublist_nil_l].
        -- exists [query lv]. split; [done|].
           apply sublist_skip, sublist_nil_l.
      * destruct (IH w1) as (new & E & Hsub). rewrite E.
        destruct Hq as [->| ->].
        -- exists new. split; [done|]. by apply sublist_cons.
        -- exists (query lv :: new). rewrite <- app_assoc.
           split; [done|]. by apply sublist_skip.
    + rewrite decide_False by done. apply IH.
Qed.

Lemma estrategias_in_spain carretera pk provincia poblacion :
  Forall (λ lv, lit ", España" `suffix_of` query lv)
         (estrategias carretera pk provincia poblacion).
Proof.
  unfold estrategias. repeat apply Forall_cons_2; [..|constructor];
    cbn [query]; rewrite ?app_assoc; by eexists.
Qed.

(** X12. The resolver only ever contacts the service with queries of its
    own cascade: the queries a call sends are, in order, among those of its
    applicable levels, so at most seven, and each of them ends in
    ', España'. *)
Theorem requests_follow_cascade net carretera pk provincia poblacion comunidad w :
  ∃ new,
    queries (geocodificar_baliza net carretera pk provincia poblacion comunidad w).2
    = queries w ++ new
    ∧ new `sublist_of` applicable (estrategias carretera pk provincia poblacion)
    ∧ (length new ≤ 7)%nat
    ∧ Forall (λ q, lit ", España" `suffix_of` q) new.
Proof.
  rewrite GeocodingProps.geocodificar_baliza_cascade.
  destruct (cascade_queries net (estrategias carretera pk provincia poblacion) w)
    as (new & E & Hsub).
  exists new. split; [done|]. split; [done|].
  assert (Hall : Forall (λ q, lit ", España" `suffix_of` q)
                   (applicable (estrategias carretera pk provincia poblacion))).
  { unfold applicable. apply Forall_fmap.
    apply Forall_forall. intros lv [_ Hin]%list_elem_of_filter.
    pose proof (estrategias_in_spain carretera pk provincia poblacion) as H.
    rewrite Forall_forall in H. by apply H. }
  split.
  - apply sublist_length in Hsub. etrans; [exact Hsub|].
    unfold applicable. rewrite length_fmap.
    etrans; [apply length_filter|]. done.
  - rewrite Forall_forall in Hall |- *. intros q Hq. apply Hall.
    eapply sublist_subseteq; [exact Hsub|exact Hq].
Qed.

(** ** Precision labels *)

Lemma truthy_pk_normalizado pk : truthy (pk_normalizado pk) = truthy pk.
Proof. rewrite pk_normalizado_map. by destruct pk. Qed.

Lemma truthy_poblacion_limpia poblacion :
  truthy (poblacion_limpia poblacion) = true → truthy poblacion = true.
Proof. unfold poblacion_limpia. by destruct (truthy poblacion). Qed.

Lemma labels_distinct :
  lit "alta" ≠ lit "muy_alta" ∧ lit "media" ≠ lit "muy_alta"
  ∧ lit "baja" ≠ lit "muy_alta" ∧ lit "estimada" ≠ lit "muy_alta"
  ∧ lit "muy_alta" ≠ lit "estimada" ∧ lit "alta" ≠ lit "estimada"
  ∧ lit "media" ≠ lit "estimada" ∧ lit "baja" ≠ lit "estimada".
Proof. repeat split; vm_compute; discriminate. Qed.

(** X13. The precision label tells which inputs the result rests on.
    'muy_alta' is returned only when road, marker and locality are all
    given; without a road the result is 'media' (from the locality) or
    'estimada'; and 'estimada' always stands for the province alone: its
    [fuente] is 'Nominatim (provincia): <provincia>, España'. *)
Theorem precision_reflects_inputs
    net carretera pk provincia poblacion comunidad w c :
  (geocodificar_baliza net carretera pk provincia poblacion comunidad w).1 = Some c →
  (precision c = lit "muy_alta" →
   truthy carretera = true ∧ truthy pk = true ∧ truthy poblacion = true)
  ∧ (truthy carretera = false →
     precision c = lit "media" ∨ precision c = lit "estimada")
  ∧ (precision c = lit "estimada" ↔
     fuente c = lit "Nominatim (provincia): " ++ provincia ++ lit ", España").
Proof.
  rewrite GeocodingProps.geocodificar_baliza_cascade. intros Hc.
  destruct (GeocodingProps.cascade_success net _ _ _ Hc)
    as (lv & Hin & Ha & Hp & Hf & _).
  rewrite Hp, Hf. clear Hc Hp Hf.
  destruct labels_distinct as (D1 & D2 & D3 & D4 & D5 & D6 & D7 & D8).
  assert (Hprefix : ∀ q, lit "Nominatim: " ++ q
                         ≠ lit "Nominatim (provincia): " ++ provincia ++ lit ", España").
  { intros q. change (lit "Nominatim: ") with (lit "Nominatim" ++ lit ": ").
    change (lit "Nominatim (provincia): ")
      with (lit "Nominatim" ++ lit " (provincia): ").
    rewrite <- !app_assoc. intros H%app_inv_head. discriminate H. }
  assert (Hprefix' : ∀ q, lit "Nominatim (población): " ++ q
                          ≠ lit "Nominatim (provincia): " ++ provincia ++ lit ", España").
  { intros q. change (lit "Nominatim (población): ")
      with (lit "Nominatim (p" ++ lit "oblación): ").
    change (lit "Nominatim (provincia): ")
      with (lit "Nominatim (p" ++ lit "rovincia): ").
    rewrite <- !app_assoc. intros H%app_inv_head. discriminate H. }
  unfold estrategias in Hin.
  change (if truthy pk then replace (lit ",") (lit ".") pk else [])
    with (pk_normalizado pk) in Hin.
  change (if truthy poblacion then strip (split_head 40 poblacion) else [])
    with (poblacion_limpia poblacion) in Hin.
  repeat (apply elem_of_cons in Hin as [->|Hin]);
    [..|by apply elem_of_nil in Hin];
    cbn [applies label origin query] in *.
  - apply andb_prop in Ha as [[H1 H2]%andb_prop H3].
    rewrite truthy_pk_normalizado in H2. apply truthy_poblacion_limpia in H3.
    split; [done|]. split; [congruence|]. split; [congruence|].
    by intros ?%Hprefix.
  - apply andb_prop in Ha as [H1 H2].
    split; [congruence|]. split; [congruence|]. split; [congruence|].
    by intros ?%Hprefix.
  - apply andb_prop in Ha as [H1 H2].
    split; [congruence|]. split; [congruence|]. split; [congruence|].
    by intros ?%Hprefix.
  - apply andb_prop in Ha as [H1 H2].
    split; [congruence|]. split; [congruence|]. split; [congruence|].
    by intros ?%Hprefix.
  - split; [congruence|]. split; [by left|]. split; [congruence|].
    by intros ?%Hprefix'.
  - split; [congruence|]. split; [congruence|]. split; [congruence|].
    by intros ?%Hprefix.
  - split; [congruence|]. split; [by right|]. done.
Qed.

Lemma precision_reflects_inputs_witness :
  (geocodificar_baliza red_madrid (lit "A-1") (lit "23") (lit "MADRID")
     (lit "Alcobendas") [] (fresh 1000)).1 = Some alcobendas
  ∧ precision alcobendas = lit "muy_alta"
  ∧ truthy (lit "A-1") = true ∧ truthy (lit "23") = true
  ∧ truthy (lit "Alcobendas") = true.
Proof.
  assert (H : (geocodificar_baliza red_madrid (lit "A-1") (lit "23") (lit "MADRID")
                 (lit "Alcobendas") [] (fresh 1000)).1 = Some alcobendas)
    by (vm_compute; reflexivity).
  assert (Hp : precision alcobendas = lit "muy_alta") by reflexivity.
  split; [exact H|]. split; [exact Hp|].
  exact (proj1 (precision_reflects_inputs red_madrid (lit "A-1") (lit "23")
                  (lit "MADRID") (lit "Alcobendas") [] (fresh 1000) alcobendas H) Hp).
Defined.

End GeocodingMore.

(* ===================================================================== *)
(** * Properties of the API and of the map generator *)
(* ===================================================================== *)

Module AppProps.
Import Py Float64 Float64Props Scraper Geocoding GeocodingSpec ScraperSpec MoreSpec App.

#[local] Open Scope Q_scope.

(** ** The response cache *)

Lemma get_incidencias_fresh fetch now cache :
  cache_fresh now cache = true →
  get_incidencias_con_cache fetch now cache = (Ok (data cache), cache).
Proof.
  unfold get_incidencias_con_cache, cache_fresh. by intros ->.
Qed.

Lemma get_incidencias_stale fetch now cache :
  cache_fresh now cache = false →
  get_incidencias_con_cache fetch now cache
  = match fetch with
    | Ok incidencias =>
        (Ok incidencias,
         {| data := incidencias; last_update := Some now; ttl := ttl cache |})
    | Raise e =>
        if list_truthy (data cache) then (Ok (data cache), cache)
        else (Raise e, cache)
    end.
Proof.
  unfold get_incidencias_con_cache, cache_fresh. by intros ->.
Qed.

(** The freshness test subtracts floats: a reading that is less than
    [ttl] seconds after the update can count as [ttl] seconds after it. *)
Example ttl_rounds :
  let t0 := round64 (3 # 10) in
  let t1 := round64 (603 # 10) in
  let c1 := (get_incidencias_con_cache (Ok [registro_abierta]) t0 cache0).2 in
  t1 - t0 < ttl c1 ∧ cache_fresh t1 c1 = false.
Proof. intros t0 t1 c1. split; vm_compute; reflexivity. Qed.

(** X14. A list fetched when the clock read [now] is served again, without
    asking upstream and whatever upstream would answer by then, by every
    call at a reading [now'] whose float difference from [now] is below
    [ttl]; the cache is left as the fetch set it. At any other reading the
    cache counts as stale. The float difference is the plain difference
    when both readings are on one grid of floats and less than its horizon
    apart, as the readings of one epoch are. A fetch at reading 0 is not
    remembered as an update: the next call fetches again. *)
Theorem ttl_cache_serves_fetched fetch' now now' cache incidencias :
  cache_fresh now cache = false →
  let c1 := (get_incidencias_con_cache (Ok incidencias) now cache).2 in
  (¬ now == 0 → fsub now' now < ttl cache →
   get_incidencias_con_cache fetch' now' c1 = (Ok incidencias, c1))
  ∧ (ttl cache <= fsub now' now → cache_fresh now' c1 = false)
  ∧ (now == 0 → cache_fresh now' c1 = false)
  ∧ (∀ k, (k ≤ 52)%nat → dyadic k now → dyadic k now' →
        - horizon k < now' - now → now' - now < horizon k →
        fsub now' now == now' - now).
Proof.
  intros Hs c1. subst c1. rewrite (get_incidencias_stale _ _ _ Hs). cbn [snd].
  split; [|split; [|split]].
  - intros Hn Hlt. apply get_incidencias_fresh.
    unfold cache_fresh. cbn [last_update ttl time_truthy from_option].
    apply andb_true_intro. split.
    + apply negb_true_iff. destruct (Qeq_bool now 0) eqn:E; [|done].
      by apply Qeq_bool_iff in E.
    + apply negb_true_iff.
      destruct (Qle_bool (ttl cache) (fsub now' now)) eqn:E; [|done].
      apply Qle_bool_iff in E. lra.
  - intros Hle. unfold cache_fresh. cbn [last_update ttl time_truthy from_option].
    unfold Datatypes.id. apply Qle_bool_iff in Hle. rewrite Hle.
    apply andb_false_r.
  - intros Hz. unfold cache_fresh. cbn [last_update time_truthy].
    apply Qeq_bool_iff in Hz. by rewrite Hz.
  - intros k Hk Hd Hd'. by apply grid_fsub.
Qed.

Lemma ttl_cache_serves_fetched_witness :
  let c1 := (get_incidencias_con_cache (Ok [registro_abierta]) 1000 cache0).2 in
  cache_fresh 1000 cache0 = false
  ∧ ¬ 1000 == 0
  ∧ fsub 1059 1000 < ttl cache0
  ∧ get_incidencias_con_cache (Raise IndexError) 1059 c1
    = (Ok [registro_abierta], c1).
Proof.
  intros c1.
  assert (H1 : cache_fresh 1000 cache0 = false) by reflexivity.
  assert (H2 : ¬ 1000 == 0) by (intros H; discriminate H).
  assert (H3 : fsub 1059 1000 < ttl cache0) by (vm_compute; reflexivity).
  split; [exact H1|]. split; [exact H2|]. split; [exact H3|].
  exact (proj1 (ttl_cache_serves_fetched (Raise IndexError) 1000 1059 cache0
                  [registro_abierta] H1) H2 H3).
Defined.

(** X15. When the cached list is not fresh and upstream fails, the call
    serves the cached list if it is non-empty and raises the upstream
    exception if it is empty, even if that empty list was a fetched one; in
    both cases the cache is left alone, so that every later call tries
    upstream again. *)
Theorem upstream_failure_falls_back e now now' cache :
  cache_fresh now cache = false →
  (get_incidencias_con_cache (Raise e) now cache).2 = cache
  ∧ (data cache ≠ [] →
     (get_incidencias_con_cache (Raise e) now cache).1 = Ok (data cache))
  ∧ (data cache = [] →
     (get_incidencias_con_cache (Raise e) now cache).1 = Raise e)
  ∧ (now <= now' → cache_fresh now' cache = false).
Proof.
  intros Hs. rewrite (get_incidencias_stale _ _ _ Hs).
  split; [by destruct (data cache)|].
  split; [by destruct (data cache)|].
  split; [by intros ->|].
  intros Hle. unfold cache_fresh in *.
  destruct (time_truthy (last_update cache)); [|done]. cbn [andb] in *.
  apply negb_false_iff in Hs. apply Qle_bool_iff in Hs.
  apply negb_false_iff. apply Qle_bool_iff.
  eapply Qle_trans; [exact Hs|]. apply round64_mono. lra.
Qed.

Lemma upstream_failure_falls_back_witness :
  let stale := {| data := [registro_abierta]; last_update := Some 1000; ttl := 60 |} in
  cache_fresh 1060 stale = false
  ∧ data stale ≠ []
  ∧ (get_incidencias_con_cache (Raise IndexError) 1060 stale).1
    = Ok [registro_abierta]
  ∧ (get_incidencias_con_cache (Raise IndexError) 1060 stale).2 = stale.
Proof.
  intros stale.
  assert (H1 : cache_fresh 1060 stale = false) by (vm_compute; reflexivity).
  assert (H2 : data stale ≠ []) by discriminate.
  destruct (upstream_failure_falls_back IndexError 1060 1060 stale H1)
    as (Hc & Hd & _).
  split; [exact H1|]. split; [exact H2|]. split; [exact (Hd H2)|exact Hc].
Defined.

(** ** Statistics and filters *)

Lemma filter_partition_length {A} (b : A → bool) (l : list A) :
  (length (filter (λ x, b x = true) l) + length (filter (λ x, b x = false) l)
   = length l)%nat.
Proof.
  induction l as [|x l IH]; [done|]. rewrite !filter_cons.
  destruct (b x) eqn:E; simpl; lia.
Qed.

(** X16. The figures of [/api/status] add up: the active records split
    into those by accident and the plain obstacles, and there are no more
    active records than records. *)
Theorem status_counts_add_up fetch now cache s :
  (get_status fetch now cache).1 = Http200 s →
  (por_accidente s + obstaculos_fijos s = balizas_activas s)%nat
  ∧ (balizas_activas s ≤ total_incidencias s)%nat.
Proof.
  unfold get_status.
  destruct (get_incidencias_con_cache fetch now cache) as [[incidencias|e] c'];
    [|done].
  intros [= <-]. cbn [por_accidente obstaculos_fijos balizas_activas total_incidencias].
  split.
  - apply (filter_partition_length (λ i, contains ACCIDENTE (tipo i))).
  - apply length_filter.
Qed.

Lemma status_counts_add_up_witness :
  let s := {| total_incidencias := 3; balizas_activas := 3;
              por_accidente := 0; obstaculos_fijos := 3 |} in
  (get_status (Ok [registro_abierta; registro_accidente; registro_hora_sin_fecha])
     1000 cache0).1 = Http200 s
  ∧ (por_accidente s + obstaculos_fijos s = balizas_activas s)%nat
  ∧ (balizas_activas s ≤ total_incidencias s)%nat.
Proof.
  intros s.
  assert (H : (get_status (Ok [registro_abierta; registro_accidente;
                               registro_hora_sin_fecha]) 1000 cache0).1 = Http200 s)
    by (vm_compute; reflexivity).
  split; [exact H|].
  exact (status_counts_add_up _ _ _ _ H).
Defined.

Lemma filter_ext_in {A} (P Q : A → Prop) `{∀ x, Decision (P x)}
    `{∀ x, Decision (Q x)} (l : list A) :
  (∀ x, x ∈ l → P x ↔ Q x) → filter P l = filter Q l.
Proof.
  induction l as [|x l IH]; intros Hext; [done|].
  rewrite !filter_cons.
  assert (Hx : P x ↔ Q x) by (apply Hext; left).
  assert (Hl : filter P l = filter Q l).
  { apply IH. intros y Hy. apply Hext. by right. }
  destruct (decide (P x)) as [HP|HP], (decide (Q x)) as [HQ|HQ];
    rewrite ?Hl; tauto.
Qed.

Lemma tipos_differ : OBSTACULO_FIJO_POR_ACCIDENTE ≠ OBSTACULO_FIJO.
Proof. refine (bool_decide_unpack _ _). vm_compute. exact I. Qed.

Lemma tipo_contains_accidente :
  contains ACCIDENTE OBSTACULO_FIJO_POR_ACCIDENTE = true
  ∧ contains ACCIDENTE OBSTACULO_FIJO = false.
Proof. split; vm_compute; reflexivity. Qed.

(** The category of an extracted record is one of the two constants, and
    the substring test of the API tells them apart. *)
Lemma parsed_tipo U tag_str soup inc :
  inc ∈ parse_soup U tag_str soup →
  (contains ACCIDENTE (tipo inc) = true ↔ tipo inc = OBSTACULO_FIJO_POR_ACCIDENTE)
  ∧ (contains ACCIDENTE (tipo inc) = false ↔ tipo inc = OBSTACULO_FIJO).
Proof.
  intros (row & _ & _ & Hp)%ScraperMore.parse_soup_elem.
  apply ScraperProps.parse_row_inv in Hp
    as (c0 & c1 & c2 & c3 & c4 & c5 & rest & _ & _ & Ht & _).
  destruct tipo_contains_accidente as [Ha Hf].
  pose proof tipos_differ as Hd.
  rewrite Ht.
  destruct (contains OBSTACULO_FIJO _ && contains ACCIDENTE _).
  - rewrite Ha. split; split; intros H; congruence.
  - rewrite Hf. split; split; intros H; congruence.
Qed.

(** X17. Over a freshly fetched page, [/api/balizas/tipo/<tipo>] answers
    by category: for [accidente], in any letter case, the active records
    whose category is the by-accident one; for [fijo] the active records
    of the plain category; for any other word status 400. *)
Theorem tipo_endpoint_by_category U tag_str soup now cache t :
  cache_fresh now cache = false →
  let page := parse_soup U tag_str soup in
  let answer := (get_por_tipo U (Ok page) now cache t).1 in
  (lower U t = lit "accidente" →
   answer = Http200 (filter (λ inc, tipo inc = OBSTACULO_FIJO_POR_ACCIDENTE)
                       (filtrar_activas page)))
  ∧ (lower U t = lit "fijo" →
     answer = Http200 (filter (λ inc, tipo inc = OBSTACULO_FIJO)
                         (filtrar_activas page)))
  ∧ (lower U t ≠ lit "accidente" → lower U t ≠ lit "fijo" → answer = Http400).
Proof.
  intros Hs page answer. subst answer. unfold get_por_tipo.
  rewrite (get_incidencias_stale _ _ _ Hs).
  assert (Hin : ∀ inc, inc ∈ filtrar_activas page → inc ∈ page).
  { intros inc Hi. unfold filtrar_activas in Hi.
    by apply list_elem_of_filter in Hi as [_ Hi]. }
  assert (Hne : lit "fijo" ≠ lit "accidente").
  { refine (bool_decide_unpack _ _). vm_compute. exact I. }
  split; [|split].
  - intros Ht. rewrite bool_decide_eq_true_2 by exact Ht. cbn [fst]. f_equal.
    apply filter_ext_in. intros inc Hi. by apply (parsed_tipo U tag_str soup), Hin.
  - intros Ht. rewrite bool_decide_eq_false_2 by (rewrite Ht; exact Hne).
    rewrite bool_decide_eq_true_2 by exact Ht. cbn [fst]. f_equal.
    apply filter_ext_in. intros inc Hi. by apply (parsed_tipo U tag_str soup), Hin.
  - intros H1 H2. rewrite bool_decide_eq_false_2 by exact H1.
    by rewrite bool_decide_eq_false_2 by exact H2.
Qed.

Lemma tipo_endpoint_by_category_witness :
  cache_fresh 1000 cache0 = false
  ∧ lower latin1 (lit "FIJO") = lit "fijo"
  ∧ (get_por_tipo latin1
       (Ok (parse_soup latin1 (Bs4.decode) (tabla [fila_abierta; fila_corta])))
       1000 cache0 (lit "FIJO")).1
    = Http200 (filter (λ inc, tipo inc = OBSTACULO_FIJO)
                 (filtrar_activas
                    (parse_soup latin1 (Bs4.decode)
                       (tabla [fila_abierta; fila_corta])))).
Proof.
  assert (H1 : cache_fresh 1000 cache0 = false) by reflexivity.
  assert (H2 : lower latin1 (lit "FIJO") = lit "fijo") by (vm_compute; reflexivity).
  split; [exact H1|]. split; [exact H2|].
  exact (proj1 (proj2 (tipo_endpoint_by_category latin1 Bs4.decode
                         (tabla [fila_abierta; fila_corta]) 1000 cache0
                         (lit "FIJO") H1)) H2).
Defined.

(** ** Region endpoints *)

Lemma build_url_empty_ids U comunidad provincia :
  ca_id U comunidad = [] → prov_id U provincia = [] →
  build_url U comunidad provincia = DGT_URL.
Proof.
  intros Hc Hp. rewrite ScraperMore.build_url_parts, Hc, Hp.
  vm_compute. reflexivity.
Qed.

(** X18. [/api/balizas/provincia/<name>] and [/api/balizas/comunidad/<name>]
    do not reject a name that, uppercased, is no key of the id table: they
    request the unfiltered address and answer with the active records of
    the whole country, or with status 500 if that request fails or the
    HTML parser rejects the page. *)
Theorem unknown_region_is_nationwide U tag_str BeautifulSoup http_get name :
  let nationwide :=
    match http_get DGT_URL with
    | Ok text =>
        match BeautifulSoup text with
        | Ok soup => Http200 (filtrar_activas (parse_soup U tag_str soup))
        | Raise e => Http500 e
        end
    | Raise e => Http500 e
    end in
  (PROVINCIAS_IDS !! upper U name = None →
   get_por_provincia U tag_str BeautifulSoup http_get name = nationwide)
  ∧ (COMUNIDADES_IDS !! upper U name = None →
     get_por_comunidad U tag_str BeautifulSoup http_get name = nationwide).
Proof.
  intros nationwide. subst nationwide.
  assert (Hfetch : ∀ comunidad provincia,
            build_url U comunidad provincia = DGT_URL →
            match fetch_balizas_activas U tag_str BeautifulSoup http_get
                    comunidad provincia with
            | Ok incidencias => Http200 (filtrar_activas incidencias)
            | Raise e => Http500 e
            end
            = match http_get DGT_URL with
              | Ok text =>
                  match BeautifulSoup text with
                  | Ok soup => Http200 (filtrar_activas (parse_soup U tag_str soup))
                  | Raise e => Http500 e
                  end
              | Raise e => Http500 e
              end).
  { intros comunidad provincia Hurl. unfold fetch_balizas_activas. rewrite Hurl.
    destruct (http_get DGT_URL) as [text|e]; [|done].
    cbn [mbind result_bind]. unfold parse_incidencias.
    by destruct (BeautifulSoup text). }
  split; intros Hn.
  - unfold get_por_provincia. apply Hfetch.
    apply build_url_empty_ids; [done|].
    unfold prov_id. unfold str in *. rewrite Hn. by destruct (truthy name).
  - unfold get_por_comunidad. apply Hfetch.
    apply build_url_empty_ids; [|done].
    unfold ca_id. unfold str in *. rewrite Hn. by destruct (truthy name).
Qed.

Lemma unknown_region_is_nationwide_witness :
  PROVINCIAS_IDS !! upper latin1 (lit " madrid") = None
  ∧ get_por_provincia latin1 Bs4.decode (λ _, Ok (tabla [fila_abierta]))
      (λ url, if bool_decide (url = DGT_URL) then Ok [] else Raise IndexError)
      (lit " madrid")
    = Http200 [registro_abierta]
  ∧ get_por_provincia latin1 Bs4.decode parser_muestra
      (λ url, if bool_decide (url = DGT_URL) then Ok pagina_rechazada
              else Raise IndexError)
      (lit " madrid")
    = Http500 ParserRejectedMarkup.
Proof.
  assert (H : PROVINCIAS_IDS !! upper latin1 (lit " madrid") = None)
    by (vm_compute; reflexivity).
  split; [exact H|]. split.
  - rewrite (proj1 (unknown_region_is_nationwide latin1 Bs4.decode
                      (λ _, Ok (tabla [fila_abierta]))
                      (λ url, if bool_decide (url = DGT_URL) then Ok []
                              else Raise IndexError)
                      (lit " madrid")) H).
    vm_compute. reflexivity.
  - rewrite (proj1 (unknown_region_is_nationwide latin1 Bs4.decode parser_muestra
                      (λ url, if bool_decide (url = DGT_URL) then Ok pagina_rechazada
                              else Raise IndexError)
                      (lit " madrid")) H).
    vm_compute. reflexivity.
Defined.

End AppProps.

Module MapaProps.
Import Py Float64 Scraper Geocoding GeocodingSpec ScraperSpec MoreSpec App Mapa.

(** ** Attaching coordinates *)

Lemma same_incident_refl b : same_incident b b.
Proof. by repeat split. Qed.

Lemma attach_located c b : located (attach c b).
Proof. unfold located. cbn. eauto. Qed.

Lemma attach_same c b : same_incident (attach c b) b.
Proof. by repeat split. Qed.

Lemma located_latitud b :
  coords_all_or_none b → is_Some (Scraper.latitud b) → located b.
Proof. intros [H|(H & _)] [x Hx]; [done|congruence]. Qed.

Lemma filtrar_activas_elem inc l :
  inc ∈ filtrar_activas l ↔ inc ∈ l ∧ activa inc = true.
Proof. unfold filtrar_activas. rewrite list_elem_of_filter. tauto. Qed.

Lemma Forall_filtrar_activas (P : Incidencia → Prop) l :
  Forall P l → Forall P (filtrar_activas l).
Proof.
  rewrite !Forall_forall. intros H inc [Hi _]%filtrar_activas_elem. by apply H.
Qed.

(** ** What a pass does to the world *)

Section Steps.

Variable net : Network.
Variable P : World → World → Prop.
Hypothesis P_refl : ∀ w, P w w.
Hypothesis P_trans : ∀ w1 w2 w3, P w1 w2 → P w2 w3 → P w1 w3.
Hypothesis P_step : ∀ q w, P w (geocodificar_nominatim net q w).2.

Lemma geocodificar_steps b w : P w (geocodificar net b w).2.
Proof using All.
  unfold geocodificar. rewrite GeocodingProps.geocodificar_baliza_cascade.
  by apply GeocodingProps.cascade_steps.
Qed.



Lemma geocodificar_todas_steps l w : P w (geocodificar_todas net l w).2.
Proof using All.
  revert w. induction l as [|b l IH]; intros w; [apply P_refl|].
  cbn [geocodificar_todas]. unfold bind.
  pose proof (geocodificar_steps b w) as H1.
  destruct (geocodificar net b w) as [c w1].
  pose proof (IH w1) as H2.
  destruct (geocodificar_todas net l w1) as [r w2].
  destruct c; exact (P_trans _ _ _ H1 H2).
Qed.

End Steps.

Section Pass.

Variable net : Network.

Lemma geocodificar_sent_bound b w :
  (length (sent (geocodificar net b w).2) ≤ length (sent w) + 7)%nat.
Proof.
  unfold geocodificar. rewrite GeocodingProps.geocodificar_baliza_cascade.
  apply (GeocodingProps.cascade_sent_bound net (estrategias _ _ _ _) w).
Qed.

Lemma ubicar_spec b w :
  coords_all_or_none b →
  same_incident (ubicar net b w).1 b
  ∧ coords_all_or_none (ubicar net b w).1.
Proof.
  intros Hb. unfold ubicar.
  destruct (is_None (Scraper.latitud b)).
  - unfold bind. destruct (geocodificar net b w) as [[c|] w1]; cbn [fst ret].
    + split; [apply attach_same|]. left. apply attach_located.
    + split; [apply same_incident_refl|done].
  - split; [apply same_incident_refl|done].
Qed.

Lemma ubicar_located b w : located b → ubicar net b w = (b, w).
Proof. intros ([x Hx] & _). unfold ubicar. by rewrite Hx. Qed.

Lemma ubicar_sent_bound b w :
  (length (sent (ubicar net b w).2)
   ≤ length (sent w) + (if is_None (Scraper.latitud b) then 7 else 0))%nat.
Proof.
  unfold ubicar. destruct (is_None (Scraper.latitud b)); [|cbn; lia].
  unfold bind. pose proof (geocodificar_sent_bound b w) as H.
  by destruct (geocodificar net b w) as [[c|] w1].
Qed.

Lemma mapa_loop_spec l w :
  Forall coords_all_or_none l →
  Forall2 same_incident (mapa_loop net l w).1.1 l
  ∧ Forall coords_all_or_none (mapa_loop net l w).1.1
  ∧ (mapa_loop net l w).1.2
    = filter (λ b, is_Some (Scraper.latitud b)) (mapa_loop net l w).1.1.
Proof.
  revert w. induction l as [|b l IH]; intros w Hl.
  { cbn. split; [constructor|]. split; [constructor|done]. }
  apply Forall_cons in Hl as [Hb Hl].
  cbn [mapa_loop]. unfold bind.
  destruct (ubicar_spec b w Hb) as [Hs Hc].
  destruct (ubicar net b w) as [b' w1]. cbn [fst] in Hs, Hc.
  destruct (IH w1 Hl) as (H1 & H2 & H3).
  destruct (mapa_loop net l w1) as [r w2]. cbn [fst snd ret] in *.
  split; [by constructor|]. split; [by constructor|].
  rewrite filter_cons, H3.
  destruct (Scraper.latitud b') as [x|] eqn:E; cbn [is_None].
  - by rewrite decide_True by eauto.
  - rewrite decide_False; [done|]. by intros [? ?].
Qed.

Lemma mapa_loop_located l w :
  Forall located l → mapa_loop net l w = ((l, l), w).
Proof.
  revert w. induction l as [|b l IH]; intros w Hl; [done|].
  apply Forall_cons in Hl as [Hb Hl].
  cbn [mapa_loop]. unfold bind. rewrite (ubicar_located b w Hb), (IH w Hl).
  cbn [fst snd ret]. destruct Hb as ([x ->] & _). done.
Qed.

Lemma mapa_loop_sent_bound l w :
  (length (sent (mapa_loop net l w).2)
   ≤ length (sent w)
     + 7 * length (filter (λ b, Scraper.latitud b = None) l))%nat.
Proof.
  revert w. induction l as [|b l IH]; intros w; [cbn; lia|].
  cbn [mapa_loop]. unfold bind.
  pose proof (ubicar_sent_bound b w) as H1.
  destruct (ubicar net b w) as [b' w1]. cbn [snd] in H1.
  specialize (IH w1).
  destruct (mapa_loop net l w1) as [r w2]. cbn [snd ret] in *.
  rewrite filter_cons.
  destruct (Scraper.latitud b) as [x|]; cbn [is_None] in H1.
  - rewrite decide_False by done. lia.
  - rewrite decide_True by done. cbn [length]. lia.
Qed.

Lemma geocodificar_todas_spec l w :
  ∃ kept, kept `sublist_of` l
          ∧ Forall2 same_incident (geocodificar_todas net l w).1 kept
          ∧ Forall located (geocodificar_todas net l w).1.
Proof.
  revert w. induction l as [|b l IH]; intros w.
  { exists []. cbn. split; [done|]. split; constructor. }
  cbn [geocodificar_todas]. unfold bind.
  destruct (geocodificar net b w) as [c w1].
  destruct (IH w1) as (kept & Hk & H2 & H3).
  destruct (geocodificar_todas net l w1) as [r w2]. cbn [fst] in *.
  destruct c as [c|]; cbn [fst ret].
  - exists (b :: kept). split; [by apply sublist_skip|].
    split; constructor; auto using attach_same, attach_located.
  - exists kept. split; [by apply sublist_cons|]. done.
Qed.

Lemma geocodificar_todas_sent_bound l w :
  (length (sent (geocodificar_todas net l w).2)
   ≤ length (sent w) + 7 * length l)%nat.
Proof.
  revert w. induction l as [|b l IH]; intros w; [cbn; lia|].
  cbn [geocodificar_todas]. unfold bind.
  pose proof (geocodificar_sent_bound b w) as H1.
  destruct (geocodificar net b w) as [c w1]. cbn [snd] in H1.
  specialize (IH w1).
  destruct (geocodificar_todas net l w1) as [r w2]. cbn [snd] in IH.
  destruct c; cbn [snd ret length]; lia.
Qed.

End Pass.



Lemma Forall2_same_origin (l k : list Incidencia) b :
  Forall2 same_incident l k → b ∈ l → ∃ a, a ∈ k ∧ same_incident b a.
Proof.
  induction 1 as [|x y l k Hxy _ IH]; [by intros ?%elem_of_nil|].
  intros [->|Hb]%elem_of_cons.
  - exists y. split; [left|done].
  - destruct (IH Hb) as (a & Ha & Hs). exists a. split; [by right|done].
Qed.

(** X19. [/api/balizas/mapa], on a list whose records each have all three
    coordinate fields or none: every record of the payload is active, has
    all three coordinate fields, and is one of the served incidents with
    nothing but these fields changed; [total] and [geocodificadas] are the
    payload's length, and together with [sin_geocodificar] they count the
    active records. When all records have coordinates already, the payload
    is the active records themselves and the resolver is not called: the
    memo cache, the clock and the requests stay as they were. *)
Theorem mapa_serves_located net incidencias w :
  Forall coords_all_or_none incidencias →
  let m := (balizas_mapa net incidencias w).1 in
  Forall (λ b, located b ∧ activa b = true
               ∧ ∃ a, a ∈ incidencias ∧ same_incident b a) (mapa_data m)
  ∧ total m = length (mapa_data m)
  ∧ geocodificadas m = length (mapa_data m)
  ∧ (geocodificadas m + sin_geocodificar m
     = length (filtrar_activas incidencias))%nat
  ∧ (Forall located incidencias →
     mapa_data m = filtrar_activas incidencias
     ∧ (balizas_mapa net incidencias w).2 = w).
Proof.
  intros Hall m. subst m. unfold balizas_mapa, bind.
  assert (Hact : Forall coords_all_or_none (filtrar_activas incidencias)).
  { by apply Forall_filtrar_activas. }
  destruct (mapa_loop_spec net (filtrar_activas incidencias) w Hact)
    as (H1 & H2 & H3).
  split; [|split; [|split; [|split]]].
  - destruct (mapa_loop net (filtrar_activas incidencias) w) as [r w1].
    cbn [fst snd ret mapa_data] in *. rewrite H3.
    apply Forall_forall. intros b [Hlat Hb]%list_elem_of_filter.
    destruct (Forall2_same_origin _ _ b H1 Hb) as (a & [Ha Hact']%filtrar_activas_elem & Hs).
    split; [|split].
    + apply located_latitud; [|done]. by eapply Forall_forall in H2.
    + destruct Hs as (_&_&_&_&_&_&_&_&_&_&_&_&_&_&Hs). congruence.
    + by exists a.
  - by destruct (mapa_loop net (filtrar_activas incidencias) w) as [r w1].
  - by destruct (mapa_loop net (filtrar_activas incidencias) w) as [r w1].
  - destruct (mapa_loop net (filtrar_activas incidencias) w) as [r w1].
    cbn [fst snd ret geocodificadas sin_geocodificar] in *.
    apply Forall2_length in H1. rewrite <- H1, H3.
    pose proof (length_filter (λ b, is_Some (Scraper.latitud b)) r.1). lia.
  - intros Hloc.
    rewrite (mapa_loop_located net (filtrar_activas incidencias) w); [done|].
    by apply Forall_filtrar_activas.
Qed.

Lemma mapa_serves_located_witness :
  let m := (balizas_mapa red_madrid [registro_localizado; registro_abierta]
              (fresh 1000)).1 in
  Forall coords_all_or_none [registro_localizado; registro_abierta]
  ∧ mapa_data m = [registro_localizado; registro_localizado]
  ∧ Forall (λ b, located b ∧ activa b = true
                 ∧ ∃ a, a ∈ [registro_localizado; registro_abierta]
                        ∧ same_incident b a) (mapa_data m)
  ∧ (geocodificadas m + sin_geocodificar m = 2)%nat.
Proof.
  intros m.
  assert (H : Forall coords_all_or_none [registro_localizado; registro_abierta]).
  { apply Forall_cons. split.
    - left. apply attach_located.
    - apply Forall_singleton. right. by repeat split. }
  destruct (mapa_serves_located red_madrid _ (fresh 1000) H)
    as (H1 & _ & _ & H4 & _).
  split; [exact H|]. split; [vm_compute; reflexivity|].
  split; [exact H1|exact H4].
Defined.



(** ** The map generator *)

Lemma slice_to_sublist {A} n (l : list A) : slice_to n l `sublist_of` l.
Proof. unfold slice_to. destruct (0 <=? n)%Z; apply sublist_take. Qed.

Lemma slice_to_length {A} n (l : list A) :
  length (slice_to n l)
  = if (0 <=? n)%Z then Nat.min (Z.to_nat n) (length l)
    else (length l - Z.to_nat (- n))%nat.
Proof.
  unfold slice_to. destruct (0 <=? n)%Z; rewrite length_take; lia.
Qed.

(** X21. [obtener_balizas_geocodificadas]: when the fetch raises, the
    exception passes through and no lookup is made. Otherwise every record
    returned has coordinates, is active and is one of the fetched
    incidents with nothing but the coordinate fields changed, in page
    order. With a positive [limite] only the first [limite] active
    records are looked up, which bounds the number of records returned and,
    at seven requests a record, the number of requests sent; with a
    negative one all but the last [-limite] active records are looked up;
    0 limits nothing, like None. *)
Theorem generar_mapa_data net fetch limite w :
  match fetch with
  | Raise e =>
      obtener_balizas_geocodificadas net fetch limite w = (Raise e, w)
  | Ok incidencias =>
      ∃ balizas_data kept,
        (obtener_balizas_geocodificadas net fetch limite w).1 = Ok balizas_data
        ∧ kept `sublist_of` filtrar_activas incidencias
        ∧ Forall2 same_incident balizas_data kept
        ∧ Forall (λ b, located b ∧ activa b = true) balizas_data
        ∧ (∀ n, limite = Some n → (0 < n)%Z →
             kept `sublist_of` take (Z.to_nat n) (filtrar_activas incidencias)
             ∧ (length balizas_data ≤ Z.to_nat n)%nat
             ∧ (length (sent (obtener_balizas_geocodificadas net fetch limite w).2)
                ≤ length (sent w) + 7 * Z.to_nat n)%nat)
        ∧ (∀ n, limite = Some n → (n < 0)%Z →
             kept `sublist_of`
               take (length (filtrar_activas incidencias) - Z.to_nat (- n))
                 (filtrar_activas incidencias)
             ∧ (length balizas_data
                ≤ length (filtrar_activas incidencias) - Z.to_nat (- n))%nat)
  end
  ∧ obtener_balizas_geocodificadas net fetch (Some 0%Z) w
    = obtener_balizas_geocodificadas net fetch None w.
Proof.
  split; [|by destruct fetch].
  destruct fetch as [incidencias|e]; [|done].
  unfold obtener_balizas_geocodificadas, bind.
  set (activas := match limite with
                  | Some n => if (n =? 0)%Z then filtrar_activas incidencias
                              else slice_to n (filtrar_activas incidencias)
                  | None => filtrar_activas incidencias
                  end).
  assert (Hsub : activas `sublist_of` filtrar_activas incidencias).
  { subst activas. destruct limite as [n|]; [|done].
    destruct (n =? 0)%Z; [done|apply slice_to_sublist]. }
  destruct (geocodificar_todas_spec net activas w) as (kept & Hk & H2 & H3).
  pose proof (geocodificar_todas_sent_bound net activas w) as Hb.
  destruct (geocodificar_todas net activas w) as [r w1]. cbn [fst snd ret] in *.
  exists r, kept.
  assert (Hlen : (length r ≤ length activas)%nat).
  { rewrite (Forall2_length _ _ _ H2). by apply sublist_length. }
  split; [done|]. split; [by etrans|]. split; [done|].
  split; [|split].
  - apply Forall_forall. intros b Hb'. split; [by eapply Forall_forall in H3|].
    destruct (Forall2_same_origin _ _ b H2 Hb') as (a & Ha & Hs).
    assert (Ha' : a ∈ filtrar_activas incidencias).
    { eapply elem_of_sublist; [exact Ha|]. by etrans. }
    apply filtrar_activas_elem in Ha' as [_ Ha'].
    destruct Hs as (_&_&_&_&_&_&_&_&_&_&_&_&_&_&Hs). congruence.
  - intros n -> Hn. subst activas.
    destruct (Z.eqb_spec n 0) as [E|_]; [lia|].
    split.
    + unfold slice_to in Hk. by destruct (Z.leb_spec 0 n); [|lia].
    + rewrite slice_to_length in Hlen, Hb.
      destruct (Z.leb_spec 0 n); lia.
  - intros n -> Hn. subst activas.
    destruct (Z.eqb_spec n 0) as [E|_]; [lia|].
    split.
    + unfold slice_to in Hk. by destruct (Z.leb_spec 0 n); [lia|].
    + rewrite slice_to_length in Hlen.
      destruct (Z.leb_spec 0 n); lia.
Qed.

Lemma generar_mapa_data_witness :
  let fetch := Ok [registro_abierta; registro_accidente; registro_hora_sin_fecha] in
  (obtener_balizas_geocodificadas red_madrid fetch (Some (-2)%Z) (fresh 1000)).1
  = Ok [registro_localizado]
  ∧ (obtener_balizas_geocodificadas red_madrid fetch (Some 1%Z) (fresh 1000)).1
    = Ok [registro_localizado]
  ∧ ∃ balizas_data kept,
      (obtener_balizas_geocodificadas red_madrid fetch (Some (-2)%Z)
         (fresh 1000)).1 = Ok balizas_data
      ∧ kept `sublist_of` [registro_abierta]
      ∧ Forall2 same_incident balizas_data kept.
Proof.
  intros fetch.
  split; [vm_compute; reflexivity|]. split; [vm_compute; reflexivity|].
  destruct (generar_mapa_data red_madrid fetch (Some (-2)%Z) (fresh 1000))
    as [(balizas_data & kept & H1 & _ & H2 & _ & _ & H3) _].
  exists balizas_data, kept. split; [exact H1|]. split; [|exact H2].
  by destruct (H3 (-2)%Z eq_refl) as [H4 _].
Defined.

End MapaProps.

(* ===================================================================== *)
(** * Coordinates kept in the cached records *)
(* ===================================================================== *)

Module StoreProps.
Import Py Scraper Geocoding GeocodingSpec ScraperSpec MoreSpec App.

Section Store.

Variable net : Network.

Lemma ubicar_same b w : same_incident (ubicar net b w).1 b.
Proof.
  unfold ubicar. destruct (is_None (Scraper.latitud b));
    [|apply MapaProps.same_incident_refl].
  unfold bind. destruct (geocodificar net b w) as [[c|] w1]; cbn [fst ret].
  - apply MapaProps.attach_same.
  - apply MapaProps.same_incident_refl.
Qed.

Lemma ubicar_activa b w : activa (ubicar net b w).1 = activa b.
Proof.
  by destruct (ubicar_same b w) as (_&_&_&_&_&_&_&_&_&_&_&_&_&_&H).
Qed.

Lemma ubicar_id b w : id (ubicar net b w).1 = id b.
Proof. by destruct (ubicar_same b w) as (H & _). Qed.

Lemma ubicar_has_lat b w :
  is_Some (Scraper.latitud b) → ubicar net b w = (b, w).
Proof. intros [x Hx]. unfold ubicar. by rewrite Hx. Qed.

Lemma refs_from_length k l : length (refs_from k l) = length (filtrar_activas l).
Proof.
  revert k. induction l as [|inc l IH]; intros k; [done|].
  cbn [refs_from]. unfold filtrar_activas in *. rewrite filter_cons.
  destruct (activa inc).
  - rewrite decide_True by done. cbn [length]. by rewrite IH.
  - rewrite decide_False by done. apply IH.
Qed.

(** The loop over the references is one pass over the store. *)
Lemma mapa_refs_pass post pre w :
  mapa_refs net (refs_from (length pre) post) (pre ++ post) w
  = ((filter (λ b, is_Some (Scraper.latitud b))
        (filtrar_activas (ubicar_activas net post w).1),
      pre ++ (ubicar_activas net post w).1),
     (ubicar_activas net post w).2).
Proof.
  revert pre w. induction post as [|inc post IH]; intros pre w.
  { cbn. by rewrite app_nil_r. }
  cbn [refs_from ubicar_activas]. unfold bind.
  destruct (activa inc) eqn:Ha.
  - cbn [mapa_refs]. rewrite list_lookup_middle by done. unfold bind.
    pose proof (ubicar_activa inc w) as Hb.
    destruct (ubicar net inc w) as [b w1]. cbn [fst] in Hb.
    assert (Hst : <[length pre:=b]> (pre ++ inc :: post) = (pre ++ [b]) ++ post).
    { rewrite insert_app_r_alt by lia. rewrite Nat.sub_diag. cbn.
      by rewrite <- app_assoc. }
    rewrite Hst.
    assert (Hlen : S (length pre) = length (pre ++ [b])).
    { rewrite length_app. cbn. lia. }
    rewrite Hlen, IH.
    destruct (ubicar_activas net post w1) as [r w2]. cbn [fst snd ret].
    unfold filtrar_activas. rewrite (filter_cons _ b).
    rewrite decide_True by congruence. rewrite filter_cons.
    rewrite <- app_assoc. cbn [app].
    destruct (Scraper.latitud b) as [x|]; cbn [is_None].
    + by rewrite decide_True by eauto.
    + rewrite decide_False; [done|]. by intros [? ?].
  - cbn [ret].
    assert (Hst : pre ++ inc :: post = (pre ++ [inc]) ++ post).
    { by rewrite <- app_assoc. }
    assert (Hlen : S (length pre) = length (pre ++ [inc])).
    { rewrite length_app. cbn. lia. }
    rewrite Hst, Hlen, IH.
    destruct (ubicar_activas net post w) as [r w2]. cbn [fst snd ret].
    unfold filtrar_activas. rewrite (filter_cons _ inc).
    rewrite decide_False by congruence. by rewrite <- app_assoc.
Qed.

(** A pass and the loop over the active records do the same. *)
Lemma ubicar_activas_loop l w :
  mapa_loop net (filtrar_activas l) w
  = ((filtrar_activas (ubicar_activas net l w).1,
      filter (λ b, is_Some (Scraper.latitud b))
        (filtrar_activas (ubicar_activas net l w).1)),
     (ubicar_activas net l w).2).
Proof.
  revert w. induction l as [|inc l IH]; intros w; [done|].
  cbn [ubicar_activas]. unfold bind, filtrar_activas in *.
  rewrite (filter_cons _ inc).
  destruct (activa inc) eqn:Ha.
  - rewrite decide_True by done. cbn [mapa_loop]. unfold bind.
    pose proof (ubicar_activa inc w) as Hb.
    destruct (ubicar net inc w) as [b w1]. cbn [fst] in Hb.
    rewrite IH.
    destruct (ubicar_activas net l w1) as [r w2]. cbn [fst snd ret].
    rewrite (filter_cons _ b). rewrite decide_True by congruence.
    rewrite filter_cons.
    destruct (Scraper.latitud b) as [x|]; cbn [is_None].
    + by rewrite decide_True by eauto.
    + rewrite decide_False; [done|]. by intros [? ?].
  - rewrite decide_False by congruence. cbn [ret]. rewrite IH.
    destruct (ubicar_activas net l w) as [r w2]. cbn [fst snd ret].
    rewrite (filter_cons _ inc). by rewrite decide_False by congruence.
Qed.

Lemma ubicar_activas_same l w :
  Forall2 same_incident (ubicar_activas net l w).1 l.
Proof.
  revert w. induction l as [|inc l IH]; intros w; [constructor|].
  cbn [ubicar_activas]. unfold bind.
  assert (Hs : same_incident
                 ((if activa inc then ubicar net inc else ret inc) w).1 inc).
  { destruct (activa inc); [apply ubicar_same|apply MapaProps.same_incident_refl]. }
  destruct ((if activa inc then ubicar net inc else ret inc) w) as [b w1].
  specialize (IH w1).
  destruct (ubicar_activas net l w1) as [r w2]. by constructor.
Qed.

Lemma same_incident_activas l k :
  Forall2 same_incident l k →
  length (filtrar_activas l) = length (filtrar_activas k).
Proof.
  unfold filtrar_activas.
  induction 1 as [|x y l k Hxy _ IH]; [done|].
  rewrite !filter_cons.
  destruct Hxy as (_&_&_&_&_&_&_&_&_&_&_&_&_&_&Hxy). rewrite Hxy.
  destruct (decide (activa y = true)); cbn [length]; by rewrite IH.
Qed.

Lemma ubicar_activas_fixed l w :
  Forall (λ b, is_Some (Scraper.latitud b)) (filtrar_activas l) →
  ubicar_activas net l w = (l, w).
Proof.
  revert w. induction l as [|inc l IH]; intros w Hl; [done|].
  unfold filtrar_activas in *. rewrite filter_cons in Hl.
  cbn [ubicar_activas]. unfold bind.
  destruct (activa inc) eqn:Ha.
  - rewrite decide_True in Hl by done. apply Forall_cons in Hl as [Hi Hl].
    rewrite (ubicar_has_lat inc w Hi), (IH w Hl). done.
  - rewrite decide_False in Hl by congruence. cbn [ret]. by rewrite (IH w Hl).
Qed.

Lemma ubicar_activas_sent_bound l w :
  (length (sent (ubicar_activas net l w).2)
   ≤ length (sent w) + 7 * length (pendientes l))%nat.
Proof.
  pose proof (MapaProps.mapa_loop_sent_bound net (filtrar_activas l) w) as H.
  by rewrite ubicar_activas_loop in H.
Qed.

(** What [get_balizas_mapa] answers and leaves in the cache, once the
    incidents are at hand. *)
Lemma get_balizas_mapa_ok fetch now cache w incidencias cache' :
  get_incidencias_con_cache fetch now cache = (Ok incidencias, cache') →
  get_balizas_mapa net fetch now cache w
  = ((Http200 (balizas_mapa net incidencias w).1,
      {| data := (ubicar_activas net incidencias w).1;
         last_update := last_update cache'; ttl := ttl cache' |}),
     (ubicar_activas net incidencias w).2)
  ∧ (balizas_mapa net incidencias w).2 = (ubicar_activas net incidencias w).2
  ∧ mapa_data (balizas_mapa net incidencias w).1
    = filter (λ b, is_Some (Scraper.latitud b))
        (filtrar_activas (ubicar_activas net incidencias w).1).
Proof.
  intros Hg. unfold get_balizas_mapa, balizas_mapa, bind. rewrite Hg.
  unfold refs_activas.
  pose proof (mapa_refs_pass incidencias [] w) as Hp. cbn [length app] in Hp.
  rewrite Hp, ubicar_activas_loop.
  cbn [fst snd ret mapa_data]. by rewrite refs_from_length.
Qed.

End Store.

Lemma served_is_cached fetch now cache incidencias cache' :
  get_incidencias_con_cache fetch now cache = (Ok incidencias, cache') →
  data cache' = incidencias.
Proof.
  unfold get_incidencias_con_cache.
  destruct (_ && _); [by intros [= <- <-]|].
  destruct fetch as [l|e]; [by intros [= <- <-]|].
  destruct (list_truthy (data cache)); [by intros [= <- <-]|done].
Qed.

Lemma filter_all_length {A} (P : A → Prop) `{∀ x, Decision (P x)} (l : list A) :
  (length l ≤ length (filter P l))%nat → Forall P l.
Proof.
  induction l as [|x l IH]; [constructor|].
  rewrite filter_cons. pose proof (length_filter P l) as Hle.
  destruct (decide (P x)); cbn [length]; intros Hlen.
  - constructor; [done|]. apply IH. lia.
  - lia.
Qed.

Lemma filter_lat_partition (l : list Incidencia) :
  (length (filter (λ b, Scraper.latitud b = None) l)
   + length (filter (λ b, is_Some (Scraper.latitud b)) l) = length l)%nat.
Proof.
  induction l as [|b l IH]; [done|]. rewrite !filter_cons.
  destruct (Scraper.latitud b) as [x|].
  - rewrite decide_False by done. rewrite decide_True by eauto. cbn [length]. lia.
  - rewrite decide_True by done.
    rewrite decide_False by (by intros [? ?]). cbn [length]. lia.
Qed.

(** X22. [/api/balizas/mapa] writes the coordinates it finds into the
    cached records, which are the objects of the list it was served. The
    cache afterwards holds the same incidents, with nothing but coordinate
    fields changed. A second call while the cache is fresh sends at most
    seven requests for each record the first answer counted in
    [sin_geocodificar], whatever the service does by then; when that count
    is 0 it sends none, leaves the resolver's state alone and gives the
    same answer. *)
Theorem mapa_second_pass net fetch now cache w m c1 w1 :
  get_balizas_mapa net fetch now cache w = ((Http200 m, c1), w1) →
  ∃ incidencias,
    (get_incidencias_con_cache fetch now cache).1 = Ok incidencias
    ∧ m = (balizas_mapa net incidencias w).1
    ∧ w1 = (balizas_mapa net incidencias w).2
    ∧ Forall2 same_incident (data c1) incidencias
    ∧ ∀ net' fetch' now' w',
        cache_fresh now' c1 = true →
        (length (sent (get_balizas_mapa net' fetch' now' c1 w').2)
         ≤ length (sent w') + 7 * sin_geocodificar m)%nat
        ∧ (sin_geocodificar m = 0%nat →
           get_balizas_mapa net' fetch' now' c1 w' = ((Http200 m, c1), w')).
Proof.
  intros Hfirst.
  destruct (get_incidencias_con_cache fetch now cache) as [[incidencias|e] cache']
    eqn:Hg; [|unfold get_balizas_mapa, ret in Hfirst; by rewrite Hg in Hfirst].
  destruct (get_balizas_mapa_ok net fetch now cache w incidencias cache' Hg)
    as (Heq & Hw & Hd).
  rewrite Heq in Hfirst. injection Hfirst as Hm Hc Hw1.
  exists incidencias. split; [done|]. split; [done|].
  split; [by rewrite Hw|].
  pose proof (ubicar_activas_same net incidencias w) as Hsame.
  split; [by rewrite <- Hc|].
  intros net' fetch' now' w' Hfresh.
  set (store := (ubicar_activas net incidencias w).1) in *.
  assert (Hdata : data c1 = store) by (by rewrite <- Hc).
  pose proof (AppProps.get_incidencias_fresh fetch' now' c1 Hfresh) as Hg2.
  rewrite Hdata in Hg2.
  destruct (get_balizas_mapa_ok net' fetch' now' c1 w' store c1 Hg2)
    as (Heq2 & _ & Hd2).
  assert (Hact : length (filtrar_activas store) = length (filtrar_activas incidencias)).
  { by apply same_incident_activas. }
  assert (Hsin : sin_geocodificar m = length (pendientes store)).
  { rewrite <- Hm. unfold balizas_mapa, bind.
    rewrite (ubicar_activas_loop net incidencias w). cbn [fst snd ret sin_geocodificar].
    fold store. unfold pendientes.
    pose proof (filter_lat_partition (filtrar_activas store)). lia. }
  split.
  - rewrite Heq2. cbn [snd]. rewrite Hsin.
    apply ubicar_activas_sent_bound.
  - intros H0. rewrite Hsin in H0.
    assert (Hall : Forall (λ b, is_Some (Scraper.latitud b)) (filtrar_activas store)).
    { apply (filter_all_length (λ b, is_Some (Scraper.latitud b))).
      pose proof (filter_lat_partition (filtrar_activas store)).
      unfold pendientes in H0. lia. }
    rewrite Heq2. unfold balizas_mapa, bind.
    rewrite (ubicar_activas_loop net' store w').
    rewrite (ubicar_activas_fixed net' store w' Hall). cbn [fst snd ret].
    rewrite <- Hm. unfold balizas_mapa, bind.
    rewrite (ubicar_activas_loop net incidencias w). cbn [fst snd ret].
    fold store. rewrite Hact. rewrite <- Hc. done.
Qed.

Lemma mapa_second_pass_witness :
  let first := get_balizas_mapa red_madrid (Ok [registro_abierta]) 1000 cache0
                 (fresh 1000) in
  let m := {| total := 1; geocodificadas := 1; sin_geocodificar := 0;
              mapa_data := [registro_localizado] |} in
  first.1.1 = Http200 m
  ∧ cache_fresh 1030 first.1.2 = true
  ∧ get_balizas_mapa red_caida (Raise IndexError) 1030 first.1.2 first.2
    = ((Http200 m, first.1.2), first.2).
Proof.
  intros first m.
  assert (H1 : first = ((Http200 m, first.1.2), first.2))
    by (vm_compute; reflexivity).
  assert (H2 : cache_fresh 1030 first.1.2 = true) by (vm_compute; reflexivity).
  destruct (mapa_second_pass red_madrid (Ok [registro_abierta]) 1000 cache0
              (fresh 1000) m first.1.2 first.2 H1)
    as (incidencias & _ & _ & _ & _ & Hsecond).
  split; [by rewrite H1|]. split; [exact H2|].
  exact (proj2 (Hsecond red_caida (Raise IndexError) 1030 first.2 H2) eq_refl).
Defined.

(** X23. [/api/balizas/<id>/ubicacion] answers 404 exactly when no served
    record has the identifier. Otherwise it answers with the first such
    record, active or not, with nothing but coordinate fields changed, and
    the coordinates it finds stay in the cached record: once an answer has
    a latitude, every call for the same identifier made while the cache is
    fresh gives the same answer without calling the resolver, whatever the
    service does by then. *)
Theorem ubicacion_sticks net fetch now cache ident w :
  let first := get_baliza_ubicacion net fetch now cache ident w in
  (first.1.1 = Http404 ↔
   ∃ incidencias,
     (get_incidencias_con_cache fetch now cache).1 = Ok incidencias
     ∧ Forall (λ inc, id inc ≠ ident) incidencias)
  ∧ ∀ b, first.1.1 = Http200 b →
      id b = ident
      ∧ (∃ incidencias i a,
           (get_incidencias_con_cache fetch now cache).1 = Ok incidencias
           ∧ incidencias !! i = Some a ∧ same_incident b a
           ∧ (∀ j a', incidencias !! j = Some a' → (j < i)%nat → id a' ≠ ident)
           ∧ data first.1.2 = <[i:=b]> incidencias)
      ∧ ∀ net' fetch' now' w',
          is_Some (Scraper.latitud b) →
          cache_fresh now' first.1.2 = true →
          get_baliza_ubicacion net' fetch' now' first.1.2 ident w'
          = ((Http200 b, first.1.2), w').
Proof.
  intros first. subst first.
  destruct (get_incidencias_con_cache fetch now cache) as [[incidencias|e] cache']
    eqn:Hg; unfold get_baliza_ubicacion; rewrite !Hg; cbn [fst snd ret].
  2: { split; [|done]. split; [done|]. by intros (l & [=] & _). }
  destruct (list_find (λ inc, id inc = ident) incidencias) as [[i a]|] eqn:Hf.
  - apply list_find_Some in Hf as (Hi & Ha & Hbefore).
    unfold bind. pose proof (ubicar_same net a w) as Hs.
    destruct (ubicar net a w) as [b w1]. cbn [fst snd ret] in *.
    split.
    { split; [done|]. intros (l & [= <-] & Hall).
      eapply Forall_forall in Hall; [|by eapply list_elem_of_lookup_2]. done. }
    intros b' [= <-].
    assert (Hid : id b = ident) by (destruct Hs as (Hs & _); congruence).
    split; [done|]. split.
    { exists incidencias, i, a. split; [done|]. split; [done|]. split; [done|].
      split; [|done]. intros j a' Hj Hlt. by eapply Hbefore. }
    intros net' fetch' now' w' Hlat Hfresh.
    rewrite (AppProps.get_incidencias_fresh fetch' now' _ Hfresh). cbn [data].
    assert (Hf2 : list_find (λ inc, id inc = ident) (<[i:=b]> incidencias)
                  = Some (i, b)).
    { apply list_find_Some. split; [|split; [done|]].
      - apply list_lookup_insert_eq. by eapply lookup_lt_Some.
      - intros j y Hj Hlt. rewrite list_lookup_insert_ne in Hj by lia.
        by eapply Hbefore. }
    rewrite Hf2. unfold bind. rewrite (ubicar_has_lat net' b w' Hlat).
    cbn [ret last_update ttl]. by rewrite list_insert_insert_eq.
  - apply list_find_None in Hf. split; [|done].
    split; [|done]. intros _. by exists incidencias.
Qed.

Lemma ubicacion_sticks_witness :
  let first := get_baliza_ubicacion red_madrid (Ok [registro_abierta]) 1000 cache0
                 (lit "12345") (fresh 1000) in
  first.1.1 = Http200 registro_localizado
  ∧ is_Some (Scraper.latitud registro_localizado)
  ∧ cache_fresh 1030 first.1.2 = true
  ∧ get_baliza_ubicacion red_caida (Raise IndexError) 1030 first.1.2
      (lit "12345") first.2
    = ((Http200 registro_localizado, first.1.2), first.2).
Proof.
  intros first.
  assert (H1 : first.1.1 = Http200 registro_localizado) by (vm_compute; reflexivity).
  assert (H2 : is_Some (Scraper.latitud registro_localizado)) by (cbn; eauto).
  assert (H3 : cache_fresh 1030 first.1.2 = true) by (vm_compute; reflexivity).
  split; [exact H1|]. split; [exact H2|]. split; [exact H3|].
  exact (proj2 (proj2 (proj2 (ubicacion_sticks red_madrid (Ok [registro_abierta])
                                1000 cache0 (lit "12345") (fresh 1000))
                         registro_localizado H1))
           red_caida (Raise IndexError) 1030 first.2 H2 H3).
Defined.

End StoreProps.

(* ===================================================================== *)
(** * The text fields of a parsed row *)
(* ===================================================================== *)

Module RowProps.
Import Py Bs4 Scraper ScraperSpec MoreSpec.

Lemma m_nivel_word U s w :
  m_nivel U s = Some w → w ≠ [] ∧ Forall (λ c, is_word U c = true) w.
Proof.
  unfold m_nivel. destruct (strip_prefix _ s) as [rest|]; [|done].
  cbn [mbind option_bind].
  pose proof (ScraperMore.span_spec (is_word U) rest) as [Hw _].
  destruct (span (is_word U) rest) as [g tl]. cbn [fst] in Hw.
  destruct (truthy g) eqn:Hg; [|done]. cbn [andb].
  destruct (startswith _ tl); [|done]. intros [= <-].
  split; [by destruct g|done].
Qed.

(** X24. The text fields of a row that [parse_row] turns into a record:
    [provincia], [poblacion], [carretera], [fecha_inicio] and
    [hora_inicio] carry no whitespace at their ends, and so does [hora_fin]
    when set; without a province there is no locality; [nivel] is never
    empty, being 'desconocido' or a non-empty run of word characters; an
    end date, when set, has ten characters. *)
Theorem row_text_fields U tag_str cells row_id inc :
  parse_row U tag_str cells row_id = Ok (Some inc) →
  strip (provincia inc) = provincia inc
  ∧ strip (poblacion inc) = poblacion inc
  ∧ strip (carretera inc) = carretera inc
  ∧ strip (fecha_inicio inc) = fecha_inicio inc
  ∧ strip (hora_inicio inc) = hora_inicio inc
  ∧ (∀ h, hora_fin inc = Some h → strip h = h)
  ∧ (provincia inc = [] → poblacion inc = [])
  ∧ nivel inc ≠ []
  ∧ (nivel inc = lit "desconocido"
     ∨ Forall (λ c, is_word U c = true) (nivel inc))
  ∧ (∀ f, fecha_fin inc = Some f → length f = 10%nat).
Proof.
  intros Hp.
  pose proof (ScraperProps.parse_row_inv U tag_str _ _ _ Hp)
    as (c0 & c1 & c2 & c3 & c4 & c5 & rest & -> & _ & _ & Hh & Hf & _).
  assert (Hdesc : lit "desconocido" ≠ [])
    by (refine (bool_decide_unpack _ _); vm_compute; exact I).
  assert (H5 : ∀ h, hora_fin inc = Some h → strip h = h).
  { intros h. rewrite Hh. unfold end_label.
    destruct (truthy _); [|done]. intros [= <-].
    destruct (find (lit "span") c1); [apply ScraperMore.strip_idemp|done]. }
  assert (H9 : ∀ f, fecha_fin inc = Some f → length f = 10%nat).
  { intros f. rewrite Hf. destruct (truthy _); [|done].
    intros (t & Ht)%ScraperProps.search_Some.
    by apply ScraperProps.m_fecha_length in Ht. }
  clear Hh Hf. revert Hp. unfold parse_row.
  cbv beta iota zeta delta
    [index lookup list_lookup mbind result_bind mret result_ret].
  destruct (match find _ c1 with Some _ => _ | None => _ end) as [hf ff].
  intros [= <-].
  cbn [provincia poblacion carretera fecha_inicio hora_inicio nivel].
  split; [|split; [|split; [|split; [|split; [|split; [|split; [|split; [|split]]]]]]]].
  - destruct (find (lit "b") c3); [apply ScraperMore.strip_idemp|done].
  - destruct (truthy _ && contains _ _); [apply ScraperMore.strip_idemp|done].
  - destruct (find (lit "b") c4); [apply ScraperMore.strip_idemp|done].
  - destruct (find (lit "a") c0); [apply ScraperMore.strip_idemp|done].
  - destruct (find (lit "span") c0); [apply ScraperMore.strip_idemp|done].
  - exact H5.
  - intros ->. done.
  - destruct (find (lit "img") c2) as [img|]; [|exact Hdesc].
    destruct (get (lit "src") img) as [src|]; [|exact Hdesc].
    destruct (truthy src); [|exact Hdesc].
    destruct (search (m_nivel U) src) as [w|] eqn:Es; [|exact Hdesc].
    apply ScraperProps.search_Some in Es as [t Ht].
    by apply m_nivel_word in Ht as [Hne _].
  - destruct (find (lit "img") c2) as [img|]; [|by left].
    destruct (get (lit "src") img) as [src|]; [|by left].
    destruct (truthy src); [|by left].
    destruct (search (m_nivel U) src) as [w|] eqn:Es; [|by left].
    apply ScraperProps.search_Some in Es as [t Ht].
    right. by apply m_nivel_word in Ht as [_ Hw].
  - exact H9.
Qed.

Lemma row_text_fields_witness :
  parse_row latin1 decode (find_all (lit "td") fila_abierta) (lit "12345")
    = Ok (Some registro_abierta)
  ∧ strip (poblacion registro_abierta) = poblacion registro_abierta
  ∧ nivel registro_abierta ≠ [].
Proof.
  assert (H : parse_row latin1 decode (find_all (lit "td") fila_abierta) (lit "12345")
              = Ok (Some registro_abierta)) by (vm_compute; reflexivity).
  split; [exact H|].
  destruct (row_text_fields latin1 decode _ _ _ H)
    as (_ & H2 & _ & _ & _ & _ & _ & H8 & _).
  exact (conj H2 H8).
Defined.

End RowProps.
